(** * Sol Watch: the wallet registry and the balance monitor of Sniffler.py

    A shallow embedding of the SQLite wallet table, of the process
    configuration, of the background job [check_balances_job], of the
    wallets screen and of the handlers of the bot, with the properties of
    the monitoring engine and of the wallet management proved over it.

    Conventions.
    - Python integers (wallet ids, Telegram user ids, lamports, the [enabled]
      column) are [Z]; text is [string] (a sequence of bytes, so the UTF-8
      literals of the source are kept as they are).
    - The [wallets] table is the list of its rows in insertion order together
      with the AUTOINCREMENT counter.  Every [db_*] helper opens its own
      connection and commits, so it is a function from the store to the store
      and its result.  The statements are assumed to execute: no I/O error,
      and integers that fit the 64-bit INTEGER of SQLite.
    - The job is a family of coroutines run by [asyncio.gather].  A coroutine
      only yields at its [await]s, so a scan is a transition system whose
      moves resume one task from one suspension point to the next; the
      outcome of each remote call is given by an environment.  The moves of
      a scan are those of its own coroutines: the handlers of the bot, which
      the event loop may run in between, are not part of it.
    - Amounts are lamports.  The conversion to SOL of lamports_to_sol (a
      float division) only serves the text of the screens and of the notice
      and is left out: a notice is kept as the values its text is made of.
    - A handler is a function of what it reads of the update (the callback
      data or the text of the message, the id of the sender), of the
      conversation's [user_data] and of the store; it returns the store, the
      texts it replies, the screen it shows and the next state of the
      conversation.  How python-telegram-bot routes an update to a handler
      is not modelled. *)

From stdpp Require Import base decidable option list strings gmap sorting pretty.
From Stdlib Require Import ZArith Lia Ascii.

#[local] Open Scope string_scope.
#[local] Open Scope Z_scope.
#[local] Open Scope list_scope.

(** ** The wallets table (db_init, lines 77-87) *)

Module Registry.

(** One row of [wallets]: id, user_id, name, address, enabled, last_lamports
    (NULL is [None]). *)
Record Wallet := mkWallet {
  w_id : Z;
  w_user_id : Z;
  w_name : string;
  w_address : string;
  w_enabled : Z;
  w_last_lamports : option Z
}.

(** The table and the AUTOINCREMENT counter (the largest id ever handed out:
    an id is never reused, also after a delete). *)
Record DB := mkDB {
  wallets : list Wallet;
  autoincrement : Z
}.

#[global] Instance Wallet_eq_dec : EqDecision Wallet.
Proof. solve_decision. Defined.

#[global] Instance DB_eq_dec : EqDecision DB.
Proof. solve_decision. Defined.

Definition empty_db : DB := mkDB [] 0.

(** [WHERE id = ? AND user_id = ?] *)
Definition owned_by (user_id wallet_id : Z) (w : Wallet) : Prop :=
  w_id w = wallet_id ∧ w_user_id w = user_id.

#[global] Instance owned_by_dec user_id wallet_id w :
  Decision (owned_by user_id wallet_id w).
Proof. unfold owned_by. apply _. Defined.

(** The pair constrained by [UNIQUE(user_id, address)]. *)
Definition owner_address (w : Wallet) : Z * string :=
  (w_user_id w, w_address w).

Definition MSG_SAVED : string := "✅ Wallet saved!".
Definition MSG_ALREADY_SAVED : string :=
  "⚠️ That wallet address is already saved for you.".

(** db_add_wallet (lines 94-107).  The INSERT raises [IntegrityError] when
    the UNIQUE constraint is violated; nothing is written then. *)
Definition db_add_wallet (user_id : Z) (name address : string) (d : DB)
  : DB * (bool * string) :=
  if decide ((user_id, address) ∈ owner_address <$> wallets d) then
    (d, (false, MSG_ALREADY_SAVED))
  else
    let id := autoincrement d + 1 in
    (mkDB (wallets d ++ [mkWallet id user_id name address 1 None]) id,
     (true, MSG_SAVED)).

(** db_toggle_wallet (lines 120-139). *)
Definition set_enabled (e : Z) (w : Wallet) : Wallet :=
  mkWallet (w_id w) (w_user_id w) (w_name w) (w_address w) e
           (w_last_lamports w).

Definition db_toggle_wallet (user_id wallet_id : Z) (d : DB)
  : DB * option Z :=
  match head (filter (owned_by user_id wallet_id) (wallets d)) with
  | None => (d, None)
  | Some row =>
      let enabled := w_enabled row in
      let new_enabled := if decide (enabled = 1) then 0 else 1 in
      (mkDB ((λ w, if decide (owned_by user_id wallet_id w)
                   then set_enabled new_enabled w else w) <$> wallets d)
            (autoincrement d),
       Some new_enabled)
  end.

(** db_delete_wallet (lines 141-151): [cur.rowcount > 0]. *)
Definition db_delete_wallet (user_id wallet_id : Z) (d : DB) : DB * bool :=
  let rowcount := length (filter (owned_by user_id wallet_id) (wallets d)) in
  (mkDB (filter (λ w, ¬ owned_by user_id wallet_id w) (wallets d))
        (autoincrement d),
   bool_decide (0 < rowcount)%nat).

(** A row handed to the monitor:
    (wallet_id, user_id, name, address, last_lamports). *)
Definition Row : Type := Z * Z * string * string * option Z.

Definition row_of (w : Wallet) : Row :=
  (w_id w, w_user_id w, w_name w, w_address w, w_last_lamports w).

Definition row_id (r : Row) : Z := r.1.1.1.1.
Definition row_user_id (r : Row) : Z := r.1.1.1.2.
Definition row_address (r : Row) : string := r.1.2.
Definition row_last_lamports (r : Row) : option Z := r.2.

(** db_get_enabled_wallets_all_users (lines 153-164). *)
Definition db_get_enabled_wallets_all_users (d : DB) : list Row :=
  row_of <$> filter (λ w, w_enabled w = 1) (wallets d).

(** db_update_last_lamports (lines 166-175). *)
Definition set_last_lamports (lamports : Z) (w : Wallet) : Wallet :=
  mkWallet (w_id w) (w_user_id w) (w_name w) (w_address w) (w_enabled w)
           (Some lamports).

Definition db_update_last_lamports (wallet_id lamports : Z) (d : DB) : DB :=
  mkDB ((λ w, if decide (w_id w = wallet_id)
              then set_last_lamports lamports w else w) <$> wallets d)
       (autoincrement d).

(** What the table declares: ids are a primary key handed out by the
    counter, and (user_id, address) is unique. *)
Definition primary_key (d : DB) : Prop :=
  NoDup (w_id <$> wallets d) ∧ Forall (λ w, w_id w ≤ autoincrement d) (wallets d).

Definition unique_owner_address (d : DB) : Prop :=
  NoDup (owner_address <$> wallets d).

(** Everything of a row but its last_lamports. *)
Definition identity (w : Wallet) : Z * Z * string * string * Z :=
  (w_id w, w_user_id w, w_name w, w_address w, w_enabled w).

(** The last_lamports stored for an id. *)
Definition last_lamports_of (wallet_id : Z) (d : DB) : list (option Z) :=
  w_last_lamports <$> filter (λ w, w_id w = wallet_id) (wallets d).

(** db_get_wallets (lines 109-118): the rows of one user as
    (id, name, address, enabled, last_lamports), ORDER BY id DESC. *)
Definition WalletRow : Type := Z * string * string * Z * option Z.

Definition wallet_row_of (w : Wallet) : WalletRow :=
  (w_id w, w_name w, w_address w, w_enabled w, w_last_lamports w).

Definition id_desc (a b : Wallet) : Prop := w_id b ≤ w_id a.

#[global] Instance id_desc_dec a b : Decision (id_desc a b).
Proof. unfold id_desc. apply _. Defined.

Definition db_get_wallets (user_id : Z) (d : DB) : list WalletRow :=
  wallet_row_of
    <$> merge_sort id_desc (filter (λ w, w_user_id w = user_id) (wallets d)).

(** The writers of the table: the four helpers above are the only
    statements of the program that modify it. *)
Inductive Op :=
| AddWallet (user_id : Z) (name address : string)
| ToggleWallet (user_id wallet_id : Z)
| DeleteWallet (user_id wallet_id : Z)
| UpdateLastLamports (wallet_id lamports : Z).

Definition apply_op (d : DB) (op : Op) : DB :=
  match op with
  | AddWallet user_id name address => (db_add_wallet user_id name address d).1
  | ToggleWallet user_id wallet_id => (db_toggle_wallet user_id wallet_id d).1
  | DeleteWallet user_id wallet_id => (db_delete_wallet user_id wallet_id d).1
  | UpdateLastLamports wallet_id lamports =>
      db_update_last_lamports wallet_id lamports d
  end.

(** The table after a history of writes, from the empty table of db_init. *)
Definition after (ops : list Op) : DB := foldl apply_op empty_db ops.

(** The user who issues a write from the bot: the scan's write has none. *)
Definition op_user (op : Op) : option Z :=
  match op with
  | AddWallet user_id _ _ | ToggleWallet user_id _ | DeleteWallet user_id _ =>
      Some user_id
  | UpdateLastLamports _ _ => None
  end.

(** Two rows are the same wallet: same id, owner, name and address. *)
Definition same_wallet (w0 w : Wallet) : Prop :=
  w_id w0 = w_id w ∧ w_user_id w0 = w_user_id w ∧ w_name w0 = w_name w
  ∧ w_address w0 = w_address w.

(** The enabled column holds a flag. *)
Definition enabled_is_flag (d : DB) : Prop :=
  Forall (λ w, w_enabled w = 0 ∨ w_enabled w = 1) (wallets d).

End Registry.

(** ** Text helpers *)

Module Text.

(** The ASCII characters for which [str.isspace] holds.  The text handled
    here (decimal numbers, base58 addresses) is ASCII. *)
Definition is_space (c : ascii) : bool :=
  let n := nat_of_ascii c in
  ((9 <=? n) && (n <=? 13) || (28 <=? n) && (n <=? 32))%nat.

Fixpoint lstrip (s : list ascii) : list ascii :=
  match s with
  | c :: s' => if is_space c then lstrip s' else s
  | [] => []
  end.

(** [s.strip()] *)
Definition strip (s : string) : string :=
  String.string_of_list_ascii
    (rev (lstrip (rev (lstrip (String.list_ascii_of_string s))))).

Definition digit_value (c : ascii) : option Z :=
  let n := nat_of_ascii c in
  if ((48 <=? n) && (n <=? 57))%nat then Some (Z.of_nat n - 48) else None.

(** Digits with single underscores between them, most significant first. *)
Fixpoint int_digits (acc : Z) (after_digit : bool) (s : list ascii)
  : option Z :=
  match s with
  | [] => if after_digit then Some acc else None
  | c :: s' =>
      match digit_value c with
      | Some v => int_digits (10 * acc + v) true s'
      | None =>
          if after_digit && bool_decide (c = "_"%char)
          then int_digits acc false s' else None
      end
  end.

(** [int(s)] on a string: [None] is [ValueError]. *)
Definition python_int (s : string) : option Z :=
  match String.list_ascii_of_string (strip s) with
  | "-"%char :: ds => Z.opp <$> int_digits 0 false ds
  | "+"%char :: ds => int_digits 0 false ds
  | ds => int_digits 0 false ds
  end.

(** truncate_addr (lines 200-204) *)
Definition truncate_addr (a : string) : string :=
  let a := strip a in
  if (String.length a <=? 10)%nat then a
  else String.substring 0 4 a +:+ "…"
       +:+ String.substring (String.length a - 4) 4 a.

(** *** Text typed by users: Python strings as UTF-8

    The helpers above serve the configuration values and the addresses of
    the table, which are ASCII.  What a user types is arbitrary text: its
    whitespace is that of [str.isspace] and [len] counts its characters. *)

Definition byte_is (c : ascii) (n : N) : bool := N.eqb (N_of_ascii c) n.

(** U+0085, U+00A0. *)
Definition is_space2 (b1 b2 : ascii) : bool :=
  byte_is b1 194 && (byte_is b2 133 || byte_is b2 160).

(** U+1680, U+2000..U+200A, U+2028, U+2029, U+202F, U+205F, U+3000. *)
Definition is_space3 (b1 b2 b3 : ascii) : bool :=
  byte_is b1 225 && byte_is b2 154 && byte_is b3 128
  || byte_is b1 226 && byte_is b2 128
     && ((128 <=? N_of_ascii b3)%N && (N_of_ascii b3 <=? 138)%N
         || byte_is b3 168 || byte_is b3 169 || byte_is b3 175)
  || byte_is b1 226 && byte_is b2 129 && byte_is b3 159
  || byte_is b1 227 && byte_is b2 128 && byte_is b3 128.

(** The number of bytes of the whitespace character the text starts with,
    0 when it starts with none. *)
Definition space_first (l : list ascii) : nat :=
  match l with
  | b1 :: l1 =>
      if is_space b1 then 1
      else match l1 with
           | b2 :: l2 =>
               if is_space2 b1 b2 then 2
               else match l2 with
                    | b3 :: _ => if is_space3 b1 b2 b3 then 3 else 0
                    | [] => 0
                    end
           | [] => 0
           end
  | [] => 0
  end%nat.

(** The same for the character the text ends with, on the reversed text. *)
Definition space_last (r : list ascii) : nat :=
  match r with
  | b1 :: r1 =>
      if is_space b1 then 1
      else match r1 with
           | b2 :: r2 =>
               if is_space2 b2 b1 then 2
               else match r2 with
                    | b3 :: _ => if is_space3 b3 b2 b1 then 3 else 0
                    | [] => 0
                    end
           | [] => 0
           end
  | [] => 0
  end%nat.

Fixpoint strip_go (width : list ascii → nat) (fuel : nat) (l : list ascii)
  : list ascii :=
  match fuel with
  | O => l
  | S fuel =>
      match width l with
      | O => l
      | n => strip_go width fuel (drop n l)
      end
  end.

(** [s.strip()] on text. *)
Definition strip_text (s : string) : string :=
  let l := String.list_ascii_of_string s in
  let l := strip_go space_first (length l) l in
  let r := rev l in
  String.string_of_list_ascii (rev (strip_go space_last (length r) r)).

(** [len(s)]: the bytes that start a character. *)
Definition is_continuation (c : ascii) : bool :=
  ((128 <=? N_of_ascii c) && (N_of_ascii c <? 192))%N.

Definition py_len (s : string) : Z :=
  Z.of_nat (length (filter (λ c, is_continuation c = false)
                           (String.list_ascii_of_string s))).

(** [str(n)] of an integer. *)
Definition str (n : Z) : string := pretty n.

(** [s.startswith(prefix)] *)
Definition startswith (s prefix : string) : bool := String.prefix prefix s.

(** [s.split(":", 1)[1]]: what follows the first colon; [None] is the
    IndexError of a text without colon. *)
Fixpoint after_colon (s : string) : option string :=
  match s with
  | EmptyString => None
  | String c s' =>
      if bool_decide (c = ":"%char) then Some s' else after_colon s'
  end.

(** BASE58_RE and is_probably_solana_address (lines 60-63): 32 to 44
    characters of [1-9A-HJ-NP-Za-km-z] after [strip]. *)
Definition is_base58 (c : ascii) : bool :=
  let n := N_of_ascii c in
  ((49 <=? n) && (n <=? 57) || (65 <=? n) && (n <=? 72)
   || (74 <=? n) && (n <=? 78) || (80 <=? n) && (n <=? 90)
   || (97 <=? n) && (n <=? 107) || (109 <=? n) && (n <=? 122))%N.

Definition is_probably_solana_address (addr : string) : bool :=
  let a := String.list_ascii_of_string (strip_text addr) in
  forallb is_base58 a && (32 <=? length a)%nat && (length a <=? 44)%nat.

End Text.

(** ** Process configuration (lines 31-34, 190, 537) *)

Module Config.

(** [os.getenv(name, fallback)] over the process environment. *)
Definition getenv (env : gmap string string) (name fallback : string)
  : string :=
  default fallback (env !! name).

Record Settings := mkSettings {
  BOT_TOKEN : string;
  SOLANA_RPC_URL : string;
  DB_PATH : string;
  CHECK_INTERVAL_SECONDS : Z
}.

(** The module-level assignments, evaluated once when the module is loaded;
    [None] when [int] raises. *)
Definition load (env : gmap string string) : option Settings :=
  interval ← Text.python_int (getenv env "CHECK_INTERVAL_SECONDS" "10");
  Some (mkSettings
          (Text.strip (getenv env "BOT_TOKEN" ""))
          (Text.strip (getenv env "SOLANA_RPC_URL"
                                  "https://api.mainnet-beta.solana.com"))
          (Text.strip (getenv env "DB_PATH" "data.db"))
          interval).

(** [aiohttp.ClientTimeout(total=12)] in rpc_get_balance_lamports. *)
Definition CLIENT_TIMEOUT_TOTAL : Z := 12.

(** [asyncio.Semaphore(8)] in check_balances_job. *)
Definition SEMAPHORE_VALUE : nat := 8.

(** The three settings of the monitor as the process started in [env] uses
    them: the interval given to [run_repeating] by on_startup, the timeout of
    a balance request and the number of permits of the scan's semaphore. *)
Record Effective := mkEffective {
  scan_interval : Z;
  fetch_timeout : Z;
  concurrency_bound : nat
}.

(** The module is loaded, then main (lines 595-597) refuses to start
    without a bot token; [None] when the process does not start. *)
Definition effective (env : gmap string string) : option Effective :=
  cfg ← load env;
  if decide (BOT_TOKEN cfg = "") then None
  else Some (mkEffective (CHECK_INTERVAL_SECONDS cfg) CLIENT_TIMEOUT_TOTAL
                         SEMAPHORE_VALUE).

(** A setting is read from the environment when two environments in which
    the process starts give it different values. *)
Definition read_from_environment {A} (setting : Effective → A) : Prop :=
  ∃ env1 env2 e1 e2, effective env1 = Some e1 ∧ effective env2 = Some e2 ∧
                     setting e1 ≠ setting e2.

End Config.

(** ** The background balance monitor (lines 526-576) *)

Module Monitor.
Import Registry.

(** The balance notice of lines 561-569 before it is rendered: the name, the
    truncated address, the direction line, the sign, and the two amounts in
    lamports ([abs(delta)] and [current]) that the text prints in SOL. *)
Record BalanceUpdate := mkBalanceUpdate {
  bu_name : string;
  bu_addr : string;
  bu_direction : string;
  bu_sign : string;
  bu_change : Z;
  bu_balance : Z
}.

(** What a task does to the outside: the registry write, the Telegram
    message with the outcome of its delivery, and the two warnings. *)
Inductive Event :=
| DbUpdateLastLamports (wallet_id lamports : Z)
| SendMessage (chat_id : Z) (msg : BalanceUpdate) (delivered : bool)
| WarnFetchFailed (address : string)
| WarnNotifyFailed (user_id : Z).

#[global] Instance BalanceUpdate_eq_dec : EqDecision BalanceUpdate.
Proof. solve_decision. Defined.

#[global] Instance Event_eq_dec : EqDecision Event.
Proof. solve_decision. Defined.

(** The part of the application the job touches: [bot_data["last_check_iso"]]
    and the database behind the [db_*] helpers. *)
Record App := mkApp {
  last_check_iso : option string;
  db : DB
}.

(** The outcome of the remote calls of the task at each position of [rows]:
    the balance returned by the RPC, or [None] when the call raises (timeout,
    transport error, RPC error payload), and whether Telegram accepted the
    message. *)
Record Remote := mkRemote {
  rpc_get_balance_lamports : nat → option Z;
  send_message : nat → bool
}.

(** Where a [process_one] coroutine stands. *)
Inductive Phase :=
| Pending                          (* before [async with sem] *)
| Fetching                         (* awaiting rpc_get_balance_lamports *)
| Notifying (msg : BalanceUpdate)  (* awaiting app.bot.send_message *)
| Finished.

#[global] Instance Phase_eq_dec : EqDecision Phase.
Proof. solve_decision. Defined.

(** A task between [async with sem:] and its exit holds a permit. *)
Definition holds_sem (p : Phase) : bool :=
  match p with
  | Fetching | Notifying _ => true
  | Pending | Finished => false
  end.

Record Scan := mkScan {
  tasks : list (Row * Phase);
  sem : nat;
  app : App;
  trace : list (nat * Event)
}.

(** Lines 541-569: from the completion of the request to the next [await]
    or the end of the coroutine. *)
Definition on_fetch (r : Row) (result : option Z) : list Event * Phase :=
  let '(wallet_id, user_id, name, address, last_lamports) := r in
  match result with
  | None => ([WarnFetchFailed address], Finished)
  | Some current =>
      match last_lamports with
      | None => ([DbUpdateLastLamports wallet_id current], Finished)
      | Some last_lamports =>
          if decide (current ≠ last_lamports) then
            let delta := current - last_lamports in
            let direction :=
              if decide (delta > 0) then "increased 📈" else "decreased 📉" in
            let sign := if decide (delta > 0) then "+" else "-" in
            ([DbUpdateLastLamports wallet_id current],
             Notifying (mkBalanceUpdate name (Text.truncate_addr address)
                                        direction sign (Z.abs delta) current))
          else ([], Finished)
      end
  end.

(** Lines 571-574. *)
Definition on_send (r : Row) (msg : BalanceUpdate) (delivered : bool)
  : list Event :=
  let '(_, user_id, _, _, _) := r in
  SendMessage user_id msg delivered
    :: (if delivered then [] else [WarnNotifyFailed user_id]).

(** The whole coroutine, given the outcomes of its two remote calls. *)
Definition process_one (r : Row) (result : option Z) (delivered : bool)
  : list Event :=
  let '(evs, p) := on_fetch r result in
  match p with
  | Notifying msg => evs ++ on_send r msg delivered
  | _ => evs
  end.

(** The effect of an event on the database. *)
Definition perform (d : DB) (e : Event) : DB :=
  match e with
  | DbUpdateLastLamports wallet_id lamports =>
      db_update_last_lamports wallet_id lamports d
  | _ => d
  end.

(** The values written for a wallet id by a sequence of events. *)
Definition written (wallet_id : Z) (evs : list Event) : list Z :=
  omap (λ e, match e with
             | DbUpdateLastLamports w v =>
                 if decide (w = wallet_id) then Some v else None
             | _ => None
             end) evs.

(** Task [i] ran from one suspension point to phase [p], doing [evs]; the
    permit goes back when the coroutine leaves [async with sem]. *)
Definition resume (s : Scan) (i : nat) (r : Row) (evs : list Event)
  (p : Phase) : Scan :=
  mkScan (<[i := (r, p)]> (tasks s))
         (if holds_sem p then sem s else S (sem s))
         (mkApp (last_check_iso (app s)) (foldl perform (db (app s)) evs))
         (trace s ++ ((λ e, (i, e)) <$> evs)).

(** The event loop resumes one task at a time. *)
Inductive Move :=
| Acquire (i : nat)   (* the semaphore lets task [i] in *)
| Fetched (i : nat)   (* the request of task [i] completes *)
| Sent (i : nat).     (* the send of task [i] completes *)

Definition step (env : Remote) (s : Scan) (m : Move) : option Scan :=
  match m with
  | Acquire i =>
      match tasks s !! i with
      | Some (r, Pending) =>
          match sem s with
          | S n => Some (mkScan (<[i := (r, Fetching)]> (tasks s)) n
                                (app s) (trace s))
          | O => None
          end
      | _ => None
      end
  | Fetched i =>
      match tasks s !! i with
      | Some (r, Fetching) =>
          let '(evs, p) := on_fetch r (rpc_get_balance_lamports env i) in
          Some (resume s i r evs p)
      | _ => None
      end
  | Sent i =>
      match tasks s !! i with
      | Some (r, Notifying msg) =>
          Some (resume s i r (on_send r msg (send_message env i)) Finished)
      | _ => None
      end
  end.

Fixpoint run (env : Remote) (moves : list Move) (s : Scan) : option Scan :=
  match moves with
  | [] => Some s
  | m :: moves => s' ← step env s m; run env moves s'
  end.

(** Lines 527-537: the timestamp, the snapshot of the enabled rows, the
    semaphore and one coroutine per row.  With no row the job returns at
    once: the scan below has no task. *)
Definition start (now : string) (a : App) : Scan :=
  let a := mkApp (Some now) (db a) in
  let rows := db_get_enabled_wallets_all_users (db a) in
  mkScan ((λ r, (r, Pending)) <$> rows) Config.SEMAPHORE_VALUE a [].

(** [asyncio.gather] returns when every coroutine has. *)
Definition finished (s : Scan) : Prop :=
  Forall (λ t, t.2 = Finished) (tasks s).

#[global] Instance finished_dec s : Decision (finished s).
Proof. unfold finished. apply _. Defined.

(** The schedule that lets the first task inside [async with sem] run to
    its end before the next one enters: from [start], the tasks run one
    after the other in the order of [rows]. *)
Definition next_move (s : Scan) : option Move :=
  match list_find (λ t, holds_sem t.2 = true) (tasks s) with
  | Some (i, (_, Fetching)) => Some (Fetched i)
  | Some (i, _) => Some (Sent i)
  | None =>
      match list_find (λ t, t.2 = Pending) (tasks s) with
      | Some (i, _) => Some (Acquire i)
      | None => None
      end
  end.

Fixpoint drive (env : Remote) (fuel : nat) (s : Scan) : Scan :=
  match fuel with
  | O => s
  | S fuel =>
      match next_move s ≫= step env s with
      | Some s' => drive env fuel s'
      | None => s
      end
  end.

(** The events of one task. *)
Definition events_of (i : nat) (s : Scan) : list Event :=
  (filter (λ x, x.1 = i) (trace s)).*2.

Definition is_fetch_warning (e : Event) : bool :=
  match e with WarnFetchFailed _ => true | _ => false end.

Definition is_db_update (e : Event) : bool :=
  match e with DbUpdateLastLamports _ _ => true | _ => false end.

Definition is_send (e : Event) : bool :=
  match e with SendMessage _ _ _ => true | _ => false end.

Definition count (f : Event → bool) (evs : list Event) : nat :=
  length (filter (λ e, f e = true) evs).

(** The change a notice announces, with its sign. *)
Definition signed_change (msg : BalanceUpdate) : Z :=
  if decide (bu_sign msg = "+") then bu_change msg else - bu_change msg.

(** What the job hands back when it is over: it returns [None], and leaves
    [bot_data] and the database for the screens to read. *)
Definition job_result (s : Scan) : unit * App := (tt, app s).

(** The number of tasks of the scan whose request fails. *)
Definition fetch_failures (env : Remote) (s : Scan) : nat :=
  length (filter (λ i, rpc_get_balance_lamports env i = None)
                 (seq 0 (length (tasks s)))).

(** Tasks awaiting the RPC, and tasks holding a permit. *)
Definition in_flight (s : Scan) : nat :=
  length (filter (λ t, t.2 = Fetching) (tasks s)).

Definition holders (s : Scan) : nat :=
  length (filter (λ t, holds_sem t.2 = true) (tasks s)).

(** The moves as a relation: what [step] computes. *)
Inductive transition (env : Remote) (s : Scan) : Move → Scan → Prop :=
| transition_acquire i r n :
    tasks s !! i = Some (r, Pending) → sem s = S n →
    transition env s (Acquire i)
      (mkScan (<[i := (r, Fetching)]> (tasks s)) n (app s) (trace s))
| transition_fetched i r evs p :
    tasks s !! i = Some (r, Fetching) →
    on_fetch r (rpc_get_balance_lamports env i) = (evs, p) →
    transition env s (Fetched i) (resume s i r evs p)
| transition_sent i r msg :
    tasks s !! i = Some (r, Notifying msg) →
    transition env s (Sent i)
      (resume s i r (on_send r msg (send_message env i)) Finished).

(** How far a coroutine is from its end, in moves, and the scan with it. *)
Definition phase_weight (p : Phase) : nat :=
  match p with
  | Pending => 3
  | Fetching => 2
  | Notifying _ => 1
  | Finished => 0
  end.

Definition remaining (s : Scan) : nat :=
  sum_list ((λ t, phase_weight t.2) <$> tasks s).

(** What a task has done so far is fixed by where it stands, its row and
    the outcomes of its own remote calls. *)
Definition task_ok (env : Remote) (s : Scan) (i : nat) (r : Row) (p : Phase)
  : Prop :=
  match p with
  | Pending | Fetching => events_of i s = []
  | Notifying msg =>
      on_fetch r (rpc_get_balance_lamports env i)
      = (events_of i s, Notifying msg)
  | Finished =>
      events_of i s
      = process_one r (rpc_get_balance_lamports env i) (send_message env i)
  end.

(** The invariant of a scan started at time [now] on application [a]. *)
Record invariant (env : Remote) (now : string) (a : App) (s : Scan)
  : Prop := mkInvariant {
  inv_rows : (tasks s).*1 = db_get_enabled_wallets_all_users (db a);
  inv_sem : (sem s + holders s = Config.SEMAPHORE_VALUE)%nat;
  inv_tasks : ∀ i r p, tasks s !! i = Some (r, p) → task_ok env s i r p;
  inv_trace : ∀ i e, (i, e) ∈ trace s → is_Some (tasks s !! i);
  inv_db : db (app s) = foldl perform (db a) (trace s).*2;
  inv_stamp : last_check_iso (app s) = Some now
}.

(** A row after the writes of a sequence of events: its balance is the last
    value written for its id. *)
Definition settle (evs : list Event) (w : Wallet) : Wallet :=
  match last (written (w_id w) evs) with
  | Some v => set_last_lamports v w
  | None => w
  end.

(** The account at position [i] has a stored balance and its request
    returns another one; the number of such accounts in a scan. *)
Definition balance_changed (env : Remote) (s : Scan) (i : nat) : bool :=
  match (tasks s).*1 !! i, rpc_get_balance_lamports env i with
  | Some r, Some current =>
      match row_last_lamports r with
      | Some previous => bool_decide (current ≠ previous)
      | None => false
      end
  | _, _ => false
  end.

Definition changes (env : Remote) (s : Scan) : nat :=
  length (filter (λ i, balance_changed env s i = true)
                 (seq 0 (length (tasks s)))).

(** check_balances_job under the schedule [next_move]. *)
Definition check_balances_job (env : Remote) (now : string) (a : App)
  : Scan :=
  let s := start now a in drive env (remaining s) s.

End Monitor.

(** ** The wallets screen (lines 243-304) *)

Module Screens.
Import Registry.

(** Callback data keys (lines 44-55). *)
Definition CB_ADD : string := "add".
Definition CB_REFRESH : string := "refresh".
Definition CB_BACK_MENU : string := "back_menu".
Definition CB_WALLETS : string := "wallets".
Definition CB_ALERTS : string := "alerts".
Definition CB_SETTINGS : string := "settings".
Definition CB_HELP : string := "help".
Definition CB_WALLETS_PAGE_PREFIX : string := "wpage:".
Definition CB_TOGGLE_PREFIX : string := "toggle:".
Definition CB_DELETE_PREFIX : string := "delete:".

(** The default of the [per_page] parameter; no caller passes another. *)
Definition PER_PAGE : Z := 6.

Definition wr_id (r : WalletRow) : Z := r.1.1.1.1.
Definition wr_name (r : WalletRow) : string := r.1.1.1.2.
Definition wr_address (r : WalletRow) : string := r.1.1.2.
Definition wr_enabled (r : WalletRow) : Z := r.1.2.
Definition wr_last_lamports (r : WalletRow) : option Z := r.2.

(** [rows[start:stop]] for [0 <= start <= stop], the only slices taken. *)
Definition slice {A} (start stop : Z) (l : list A) : list A :=
  take (Z.to_nat (stop - start)) (drop (Z.to_nat start) l).

(** One entry of the wallets text: the name, the status, the truncated
    address and the stored balance (printed in SOL, or as a dash). *)
Record WalletLine := mkWalletLine {
  wl_name : string;
  wl_status : string;
  wl_addr : string;
  wl_last_lamports : option Z
}.

(** The wallets text as the values it is made of: the empty-list text, or
    the header "(Page page+1/pages)" and the entries. *)
Inductive WalletsText :=
| NoWallets
| WalletsPage (page_shown pages : Z) (lines : list WalletLine).

Definition wallet_line (r : WalletRow) : WalletLine :=
  mkWalletLine (wr_name r)
               (if decide (wr_enabled r = 1) then "🔔 ON" else "🔕 OFF")
               (Text.truncate_addr (wr_address r))
               (wr_last_lamports r).

(** wallets_screen_text (lines 243-277); [//] is the floor division, for a
    positive [per_page]. *)
Definition wallets_screen_text (wallet_rows : list WalletRow)
  (page per_page : Z) : WalletsText :=
  let total := Z.of_nat (length wallet_rows) in
  if decide (total = 0) then NoWallets
  else
    let pages := (total + per_page - 1) / per_page in
    let page := Z.max 0 (Z.min page (pages - 1)) in
    let start := page * per_page in
    let chunk := slice start (start + per_page) wallet_rows in
    WalletsPage (page + 1) pages (wallet_line <$> chunk).

Record Button := mkButton {
  button_text : string;
  callback_data : string
}.

Definition wallet_buttons (r : WalletRow) : list Button :=
  [mkButton ("🔔 Toggle — " +:+ wr_name r)
            (CB_TOGGLE_PREFIX +:+ Text.str (wr_id r));
   mkButton ("🗑 Remove — " +:+ wr_name r)
            (CB_DELETE_PREFIX +:+ Text.str (wr_id r))].

(** wallets_screen_keyboard (lines 279-304): the rows of buttons. *)
Definition wallets_screen_keyboard (wallet_rows : list WalletRow)
  (page per_page : Z) : list (list Button) :=
  let total := Z.of_nat (length wallet_rows) in
  let pages := Z.max 1 ((total + per_page - 1) / per_page) in
  let page := Z.max 0 (Z.min page (pages - 1)) in
  let start := page * per_page in
  let chunk := slice start (start + per_page) wallet_rows in
  let nav :=
    (if decide (page > 0)
     then [mkButton "⬅️ Prev" (CB_WALLETS_PAGE_PREFIX +:+ Text.str (page - 1))]
     else [])
    ++ [mkButton "➕ Add" CB_ADD]
    ++ (if decide (page < pages - 1)
        then [mkButton "Next ➡️"
                       (CB_WALLETS_PAGE_PREFIX +:+ Text.str (page + 1))]
        else []) in
  (wallet_buttons <$> chunk)
    ++ [nav] ++ [[mkButton "🏠 Back to Dashboard" CB_BACK_MENU]].

(** The number of pages and the rows of a page, as both functions compute
    them. *)
Definition page_count (wallet_rows : list WalletRow) (per_page : Z) : Z :=
  Z.max 1 ((Z.of_nat (length wallet_rows) + per_page - 1) / per_page).

Definition page_shown (wallet_rows : list WalletRow) (page per_page : Z)
  : Z :=
  Z.max 0 (Z.min page (page_count wallet_rows per_page - 1)).

Definition page_rows (wallet_rows : list WalletRow) (page per_page : Z)
  : list WalletRow :=
  slice (page * per_page) (page * per_page + per_page) wallet_rows.

End Screens.

(** ** The handlers (lines 377-521) *)

Module Handlers.
Import Registry Screens.

(** Conversation states (line 39) and [ConversationHandler.END]. *)
Inductive ConvState := ASK_NAME | ASK_ADDRESS | END.

(** What a handler puts on the screen: the dashboard of show_main_menu, the
    prompt for a name, the wallets screen with its keyboard, or one of the
    three fixed screens. *)
Inductive Shown :=
| MainMenu
| AddPrompt
| WalletsScreen (text : WalletsText) (keyboard : list (list Button))
| AlertsScreen
| SettingsScreen
| HelpScreen.

(** The table after the handler, the texts it replies, the screen it shows
    and the state of the conversation it returns. *)
Record Outcome := mkOutcome {
  o_db : DB;
  o_replies : list string;
  o_shown : option Shown;
  o_state : ConvState
}.

Definition MSG_NOT_FOUND : string := "⚠️ Couldn’t find that wallet.".
Definition MSG_ENABLED : string := "✅ Notifications enabled 🔔".
Definition MSG_DISABLED : string := "✅ Notifications disabled 🔕".
Definition MSG_REMOVED : string := "🗑 Removed ✅".
Definition MSG_NOT_REMOVED : string := "⚠️ Couldn’t remove (not found).".
Definition MSG_NAME_LENGTH : string :=
  "⚠️ Name must be 1–40 characters. Send the wallet name again.".
Definition MSG_SEND_ADDRESS : string :=
  "📩 Now send the *wallet address* (Solana base58).".
Definition MSG_INVALID_ADDRESS : string :=
  "⚠️ That doesn’t look like a valid Solana address. Send the address again.".
Definition MSG_CANCELLED : string := "✅ Cancelled.".

(** The wallets screen of a user, as the handler renders it. *)
Definition show_wallets (user_id page : Z) (d : DB) : Shown :=
  let rows := db_get_wallets user_id d in
  WalletsScreen (wallets_screen_text rows page PER_PAGE)
                (wallets_screen_keyboard rows page PER_PAGE).

(** [int(data.split(":", 1)[1])]; [None] when it raises. *)
Definition callback_int (data : string) : option Z :=
  Text.after_colon data ≫= Text.python_int.

(** menu_click (lines 377-475), for the callback data [data] of a query of
    user [user_id]; [None] when the handler raises. *)
Definition menu_click (data : string) (user_id : Z) (d : DB)
  : option Outcome :=
  if decide (data = CB_REFRESH) then Some (mkOutcome d [] (Some MainMenu) END)
  else if decide (data = CB_BACK_MENU)
  then Some (mkOutcome d [] (Some MainMenu) END)
  else if decide (data = CB_ADD)
  then Some (mkOutcome d [] (Some AddPrompt) ASK_NAME)
  else if decide (data = CB_WALLETS)
  then Some (mkOutcome d [] (Some (show_wallets user_id 0 d)) END)
  else if Text.startswith data CB_WALLETS_PAGE_PREFIX then
    page ← callback_int data;
    Some (mkOutcome d [] (Some (show_wallets user_id page d)) END)
  else if decide (data = CB_ALERTS)
  then Some (mkOutcome d [] (Some AlertsScreen) END)
  else if decide (data = CB_SETTINGS)
  then Some (mkOutcome d [] (Some SettingsScreen) END)
  else if decide (data = CB_HELP)
  then Some (mkOutcome d [] (Some HelpScreen) END)
  else if Text.startswith data CB_TOGGLE_PREFIX then
    wallet_id ← callback_int data;
    let '(d, new_enabled) := db_toggle_wallet user_id wallet_id d in
    let reply :=
      match new_enabled with
      | None => MSG_NOT_FOUND
      | Some new_enabled =>
          if decide (new_enabled = 1) then MSG_ENABLED else MSG_DISABLED
      end in
    Some (mkOutcome d [reply] (Some (show_wallets user_id 0 d)) END)
  else if Text.startswith data CB_DELETE_PREFIX then
    wallet_id ← callback_int data;
    let '(d, ok) := db_delete_wallet user_id wallet_id d in
    Some (mkOutcome d [if ok then MSG_REMOVED else MSG_NOT_REMOVED]
                    (Some (show_wallets user_id 0 d)) END)
  else Some (mkOutcome d [] None END).

(** add_wallet_name (lines 477-488): [text] is the text of the message,
    [user_data] the dictionary of the conversation. *)
Definition add_wallet_name (text : option string)
  (user_data : gmap string string)
  : gmap string string * string * ConvState :=
  let name := Text.strip_text (default "" text) in
  if decide (Text.py_len name < 1 ∨ Text.py_len name > 40)
  then (user_data, MSG_NAME_LENGTH, ASK_NAME)
  else (<["new_wallet_name" := name]> user_data, MSG_SEND_ADDRESS,
        ASK_ADDRESS).

(** add_wallet_address (lines 490-515); [fetched] is the outcome of the
    balance request, [None] when it raises. *)
Definition add_wallet_address (text : option string) (user_id : Z)
  (user_data : gmap string string) (fetched : option Z) (d : DB)
  : gmap string string * Outcome :=
  let addr := Text.strip_text (default "" text) in
  if negb (Text.is_probably_solana_address addr)
  then (user_data, mkOutcome d [MSG_INVALID_ADDRESS] None ASK_ADDRESS)
  else
    let name := default "Wallet" (user_data !! "new_wallet_name") in
    let '(d, (ok, msg)) := db_add_wallet user_id name addr d in
    let d :=
      match fetched with
      | Some lamports =>
          match head (filter (λ r, wr_address r = addr)
                             (db_get_wallets user_id d)) with
          | Some r => db_update_last_lamports (wr_id r) lamports d
          | None => d
          end
      | None => d
      end in
    (delete "new_wallet_name" user_data,
     mkOutcome d [msg] (Some MainMenu) END).

(** cancel (lines 517-521). *)
Definition cancel (user_data : gmap string string) (d : DB)
  : gmap string string * Outcome :=
  (delete "new_wallet_name" user_data,
   mkOutcome d [MSG_CANCELLED] (Some MainMenu) END).

End Handlers.

(** ** The change detector as the specification words it (section 4.2) *)

Module ChangeDetector.

Inductive Signal :=
| FirstObservation
| Unchanged
| Changed (delta : Z).

Definition detect (previous : option Z) (current : Z) : Signal :=
  match previous with
  | None => FirstObservation
  | Some previous =>
      if decide (previous = current) then Unchanged
      else Changed (current - previous)
  end.

End ChangeDetector.

(** ** Sample data: the end-to-end scenarios of the specification *)

Module Scenarios.
Import Registry Monitor.

Definition ADDRESS_X : string := "4Nd1mYQFPHxMiSC9voV7GWnrZ3BCcFRwDq3kG1J5nXTe".
Definition ADDRESS_Y : string := "9WzDXwBbmkg8ZTbNMqUxvQRAyrZzDsGYdLVL9zYtAWWM".
Definition NOW : string := "2026-01-01 00:00:00".

(** One wallet of user 100, added to the empty table; one wallet each for
    users 100 and 200. *)
Definition registry_one : DB := after [AddWallet 100 "Main" ADDRESS_Y].

Definition registry_two_users : DB :=
  mkDB [mkWallet 1 100 "Main" ADDRESS_Y 1 None;
        mkWallet 2 200 "Cold" ADDRESS_X 1 None] 2.

(** Accounts X (5 SOL stored) and Y (1 SOL stored) of user 100. *)
Definition registry : DB :=
  mkDB [mkWallet 1 100 "X" ADDRESS_X 1 (Some 5000000000);
        mkWallet 2 100 "Y" ADDRESS_Y 1 (Some 1000000000)] 2.

Definition application : App := mkApp None registry.

(** X is now at 4.5 SOL, the request for Y times out, and Telegram refuses
    the message. *)
Definition remote_timeout : Remote :=
  mkRemote (λ i, match i with O => Some 4500000000 | _ => None end)
           (λ _, false).

(** The same, but the request for Y returns the stored balance. *)
Definition remote_quiet : Remote :=
  mkRemote (λ i, match i with O => Some 4500000000 | _ => Some 1000000000 end)
           (λ _, false).

(** A complete run of the scan on [application] under [remote_timeout]. *)
Definition moves_timeout : list Move :=
  [Acquire 0; Acquire 1; Fetched 1; Fetched 0; Sent 0]%nat.

(** The state that run reaches, and the one with both tasks in flight. *)
Definition scan_timeout : Scan :=
  default (start NOW application)
          (run remote_timeout moves_timeout (start NOW application)).

Definition scan_in_flight : Scan :=
  default (start NOW application)
          (run remote_timeout [Acquire 0; Acquire 1]%nat
               (start NOW application)).

(** The same application after user 100 has turned the alerts of Y off, and
    a complete scan of it. *)
Definition application_y_off : App :=
  mkApp None (db_toggle_wallet 100 2 registry).1.

Definition moves_y_off : list Move := [Acquire 0; Fetched 0; Sent 0]%nat.

Definition scan_y_off : Scan :=
  default (start NOW application_y_off)
          (run remote_quiet moves_y_off (start NOW application_y_off)).

(** Ten enabled accounts, never observed. *)
Definition ten_accounts : App :=
  mkApp None
    (mkDB ((λ i, mkWallet (Z.of_nat i) (Z.of_nat i) "W" ADDRESS_X 1 None)
             <$> seq 1 10) 10).

(** An environment with the bot token only, and one that also sets the
    interval and two more variables. *)
Definition environment_default : gmap string string :=
  <["BOT_TOKEN" := "123456:token"]> ∅.

Definition environment : gmap string string :=
  <["CHECK_INTERVAL_SECONDS" := "30"]>
    (<["FETCH_TIMEOUT_SECONDS" := "3"]>
       (<["MAX_CONCURRENCY" := "2"]> environment_default)).

End Scenarios.

(** * Properties *)

(** ** The registry *)

Module RegistryFacts.
Import Registry.

Lemma fmap_update_key {A B} (key : A → B) (f : A → A) (l : list A) :
  (∀ x, key (f x) = key x) → key <$> (f <$> l) = key <$> l.
Proof.
  intros Hf. rewrite <- list_fmap_compose. apply list_fmap_ext.
  intros _ x _. apply Hf.
Qed.

(** A conditional update of one column leaves a projection that ignores
    that column as it was. *)
Ltac same_projection := intros; simpl; by destruct (decide _).

Lemma NoDup_fmap_filter {A B} (key : A → B) (P : A → Prop)
  `{∀ x, Decision (P x)} (l : list A) :
  NoDup (key <$> l) → NoDup (key <$> filter P l).
Proof.
  induction l as [|x l IH]; simpl; [done|].
  rewrite NoDup_cons. intros [Hx Hl].
  rewrite filter_cons. destruct (decide (P x)); [|by apply IH].
  rewrite fmap_cons, NoDup_cons. split; [|by apply IH].
  intros Hin. apply Hx.
  apply list_elem_of_fmap in Hin as (y & -> & Hy).
  apply list_elem_of_fmap. exists y. split; [done|].
  by apply list_elem_of_filter in Hy as [_ ?].
Qed.

(** Each writer keeps the UNIQUE(user_id, address) constraint. *)
Lemma db_add_wallet_unique user_id name address d :
  unique_owner_address d →
  unique_owner_address (db_add_wallet user_id name address d).1.
Proof.
  unfold unique_owner_address, db_add_wallet. intros Hd.
  destruct (decide _) as [Hin|Hin]; simpl; [done|].
  rewrite fmap_app. apply NoDup_app. split; [done|].
  split; [|apply NoDup_singleton].
  intros x Hx Hx'. apply list_elem_of_singleton in Hx'. by subst x.
Qed.

Lemma db_toggle_wallet_unique user_id wallet_id d :
  unique_owner_address d →
  unique_owner_address (db_toggle_wallet user_id wallet_id d).1.
Proof.
  unfold unique_owner_address, db_toggle_wallet. intros Hd.
  destruct (head _) as [row|]; simpl; [|done].
  rewrite fmap_update_key; [done|].
  same_projection.
Qed.

Lemma db_delete_wallet_unique user_id wallet_id d :
  unique_owner_address d →
  unique_owner_address (db_delete_wallet user_id wallet_id d).1.
Proof. unfold unique_owner_address. simpl. apply NoDup_fmap_filter. Qed.

Lemma db_update_last_lamports_unique wallet_id lamports d :
  unique_owner_address d →
  unique_owner_address (db_update_last_lamports wallet_id lamports d).
Proof.
  unfold unique_owner_address. simpl. intros Hd.
  rewrite fmap_update_key; [done|].
  same_projection.
Qed.

Lemma after_snoc ops op : after (ops ++ [op]) = apply_op (after ops) op.
Proof. unfold after. by rewrite foldl_app. Qed.

Lemma after_unique ops : unique_owner_address (after ops).
Proof.
  induction ops as [|op ops IH] using rev_ind.
  - apply NoDup_nil_2.
  - rewrite after_snoc. destruct op; simpl.
    + by apply db_add_wallet_unique.
    + by apply db_toggle_wallet_unique.
    + by apply db_delete_wallet_unique.
    + by apply db_update_last_lamports_unique.
Qed.

(** Each writer keeps the primary key. *)
Lemma after_primary_key ops : primary_key (after ops).
Proof.
  induction ops as [|op ops [IH1 IH2]] using rev_ind.
  - split; [apply NoDup_nil_2 | apply Forall_nil_2].
  - rewrite after_snoc. destruct op as [u n a|u w|u w|w l]; simpl.
    + unfold db_add_wallet. destruct (decide _); simpl; [done|].
      split; simpl.
      * rewrite fmap_app. apply NoDup_app. split; [done|].
        split; [|apply NoDup_singleton].
        intros x Hx Hx'. apply list_elem_of_singleton in Hx'. subst x.
        apply list_elem_of_fmap in Hx as (y & Hy & Hin).
        rewrite Forall_forall in IH2. specialize (IH2 y Hin). simpl in *. lia.
      * apply Forall_app. split.
        -- eapply Forall_impl; [exact IH2|]. simpl. intros; lia.
        -- apply Forall_singleton. simpl. lia.
    + unfold db_toggle_wallet. destruct (head _) as [row|]; simpl; [|done].
      split; simpl.
      * rewrite fmap_update_key; [done|]. same_projection.
      * apply Forall_fmap. eapply Forall_impl; [exact IH2|].
        intros x Hx. simpl. by destruct (decide _).
    + split; simpl.
      * by apply NoDup_fmap_filter.
      * rewrite Forall_forall in IH2 |- *. intros x Hx.
        apply list_elem_of_filter in Hx as [_ Hx]. by apply IH2.
    + split; simpl.
      * rewrite fmap_update_key; [done|]. same_projection.
      * apply Forall_fmap. eapply Forall_impl; [exact IH2|].
        intros x Hx. simpl. by destruct (decide _).
Qed.

Lemma filter_none_owned user_id wallet_id (l : list Wallet) :
  (∀ w, w ∈ l → ¬ owned_by user_id wallet_id w) →
  filter (owned_by user_id wallet_id) l = [] ∧
  filter (λ w, ¬ owned_by user_id wallet_id w) l = l.
Proof.
  induction l as [|x l IH]; intros Hl; [done|].
  rewrite !filter_cons.
  assert (¬ owned_by user_id wallet_id x) as Hx by (apply Hl; left).
  destruct (IH (λ w Hw, Hl w (list_elem_of_further _ _ _ Hw))) as [-> ->].
  destruct (decide (owned_by _ _ x)); [done|].
  by destruct (decide (¬ owned_by _ _ x)).
Qed.

(** C8. (user_id, address) is unique in the table after any history of
    writes, and every write keeps it so; adding a pair that is already there
    is refused with the already-saved message and changes nothing; adding a
    pair that is not there succeeds and appends the new row, enabled and
    with no balance. *)
Theorem add_wallet_owner_address_unique
  (ops : list Op) (d : DB) (user_id : Z) (name address : string) :
  let r := db_add_wallet user_id name address d in
  unique_owner_address (after ops) ∧
  (unique_owner_address d → unique_owner_address r.1) ∧
  ((user_id, address) ∈ owner_address <$> wallets d →
     r = (d, (false, MSG_ALREADY_SAVED))) ∧
  ((user_id, address) ∉ owner_address <$> wallets d →
     r.2 = (true, MSG_SAVED) ∧
     wallets r.1 = (wallets d ++ [mkWallet (autoincrement d + 1) user_id name
                                           address 1 None])%list).
Proof.
  simpl. split; [apply after_unique|].
  split; [apply db_add_wallet_unique|].
  unfold db_add_wallet. split; intros Hin; by destruct (decide _).
Qed.

Lemma add_wallet_owner_address_unique_witness :
  unique_owner_address
    (db_add_wallet 100 "Again" Scenarios.ADDRESS_Y Scenarios.registry_one).1 ∧
  db_add_wallet 100 "Again" Scenarios.ADDRESS_Y Scenarios.registry_one
  = (Scenarios.registry_one, (false, MSG_ALREADY_SAVED)) ∧
  (db_add_wallet 200 "Other" Scenarios.ADDRESS_Y Scenarios.registry_one).2
  = (true, MSG_SAVED).
Proof.
  destruct (add_wallet_owner_address_unique
              [AddWallet 100 "Main" Scenarios.ADDRESS_Y]
              Scenarios.registry_one 100 "Again" Scenarios.ADDRESS_Y)
    as (Hu & Hkeep & Hdup & _).
  destruct (add_wallet_owner_address_unique
              [] Scenarios.registry_one 200 "Other" Scenarios.ADDRESS_Y)
    as (_ & _ & _ & Hnew).
  split; [exact (Hkeep Hu)|]. split.
  - apply Hdup. apply (bool_decide_unpack _). vm_compute. exact I.
  - apply Hnew. apply (bool_decide_unpack _). vm_compute. exact I.
Defined.

(** C10. Toggle and delete only touch rows whose id is the given one and
    whose owner is the caller: every other row, in particular every row of
    another user, stays in the table as it is; when no row matches, toggle
    answers [None], delete answers [false] and the store is the same; when
    one matches, toggle answers the flipped flag and delete answers [true]. *)
Theorem toggle_delete_owner_scoped (user_id wallet_id : Z) (d : DB) :
  let t := db_toggle_wallet user_id wallet_id d in
  let x := db_delete_wallet user_id wallet_id d in
  (∀ i w, wallets d !! i = Some w → ¬ owned_by user_id wallet_id w →
          wallets t.1 !! i = Some w) ∧
  length (wallets t.1) = length (wallets d) ∧
  (∀ w, w ∈ wallets x.1 ↔ w ∈ wallets d ∧ ¬ owned_by user_id wallet_id w) ∧
  autoincrement t.1 = autoincrement d ∧
  autoincrement x.1 = autoincrement d ∧
  ((∀ w, w ∈ wallets d → ¬ owned_by user_id wallet_id w) →
     t = (d, None) ∧ x = (d, false)) ∧
  (∀ w, w ∈ wallets d → owned_by user_id wallet_id w →
     (∃ row, row ∈ wallets d ∧ owned_by user_id wallet_id row ∧
             t.2 = Some (if decide (w_enabled row = 1) then 0 else 1)) ∧
     x.2 = true).
Proof.
  simpl. split_and!.
  - intros i w Hi Hw. unfold db_toggle_wallet.
    destruct (head _) as [row|]; simpl; [|done].
    rewrite list_lookup_fmap, Hi. simpl. by destruct (decide _).
  - unfold db_toggle_wallet. destruct (head _) as [row|]; simpl; [|done].
    by rewrite length_fmap.
  - intros w. simpl. rewrite list_elem_of_filter. tauto.
  - unfold db_toggle_wallet. by destruct (head _).
  - done.
  - intros Hnone. destruct (filter_none_owned _ _ _ Hnone) as [Hf Hk].
    unfold db_toggle_wallet, db_delete_wallet. rewrite Hf, Hk. simpl.
    by destruct d.
  - intros w Hw Ho.
    assert (w ∈ filter (owned_by user_id wallet_id) (wallets d)) as Hin
      by (by apply list_elem_of_filter).
    split.
    + unfold db_toggle_wallet.
      destruct (head _) as [row|] eqn:Hrow; simpl.
      * exists row. apply head_Some_elem_of in Hrow.
        apply list_elem_of_filter in Hrow as [? ?]. done.
      * apply head_None in Hrow. rewrite Hrow in Hin.
        by apply elem_of_nil in Hin.
    + unfold db_delete_wallet. simpl. apply bool_decide_eq_true.
      destruct (filter _ _); [by apply elem_of_nil in Hin|]. simpl. lia.
Qed.

Lemma toggle_delete_owner_scoped_witness :
  db_toggle_wallet 100 2 Scenarios.registry_two_users
  = (Scenarios.registry_two_users, None) ∧
  db_delete_wallet 100 2 Scenarios.registry_two_users
  = (Scenarios.registry_two_users, false).
Proof.
  destruct (toggle_delete_owner_scoped 100 2 Scenarios.registry_two_users)
    as (_ & _ & _ & _ & _ & Hnone & _).
  apply Hnone. intros w Hw [Hid Hu]. simpl in Hw.
  rewrite !elem_of_cons in Hw.
  destruct Hw as [->|[->|Hw]]; simpl in *; try lia.
  by apply elem_of_nil in Hw.
Defined.

End RegistryFacts.

(** ** The monitor *)

Module MonitorFacts.
Import Registry Monitor.

(** *** One coroutine *)

Lemma on_fetch_phase r result evs p :
  on_fetch r result = (evs, p) → p = Finished ∨ ∃ msg, p = Notifying msg.
Proof.
  destruct r as [[[[wid uid] name] addr] last]. unfold on_fetch.
  destruct result as [current|]; [|intros [= <- <-]; by left].
  destruct last as [last|]; [|intros [= <- <-]; by left].
  destruct (decide _); intros [= <- <-]; [right; eauto | by left].
Qed.

Lemma on_fetch_failed r :
  on_fetch r None = ([WarnFetchFailed (row_address r)], Finished).
Proof. by destruct r as [[[[wid uid] name] addr] last]. Qed.

Lemma on_fetch_first r current :
  row_last_lamports r = None →
  on_fetch r (Some current)
  = ([DbUpdateLastLamports (row_id r) current], Finished).
Proof. destruct r as [[[[wid uid] name] addr] last]. simpl. by intros ->. Qed.

Lemma on_fetch_unchanged r current :
  row_last_lamports r = Some current →
  on_fetch r (Some current) = ([], Finished).
Proof.
  destruct r as [[[[wid uid] name] addr] last]. simpl. intros ->.
  by destruct (decide _).
Qed.

Lemma on_fetch_changed r previous current :
  row_last_lamports r = Some previous → current ≠ previous →
  ∃ msg, on_fetch r (Some current)
         = ([DbUpdateLastLamports (row_id r) current], Notifying msg)
         ∧ signed_change msg = current - previous
         ∧ bu_balance msg = current.
Proof.
  destruct r as [[[[wid uid] name] addr] last]. simpl. intros -> Hne.
  destruct (decide (current ≠ previous)); [|done].
  eexists. split; [done|]. split; [|done].
  unfold signed_change. simpl.
  destruct (decide (current - previous > 0)); simpl; lia.
Qed.

Lemma on_send_events r msg delivered :
  on_send r msg delivered
  = SendMessage (row_user_id r) msg delivered
      :: (if delivered then [] else [WarnNotifyFailed (row_user_id r)]).
Proof. by destruct r as [[[[wid uid] name] addr] last]. Qed.

Lemma process_one_failed r delivered :
  process_one r None delivered = [WarnFetchFailed (row_address r)].
Proof. unfold process_one. by rewrite on_fetch_failed. Qed.

Lemma process_one_first r current delivered :
  row_last_lamports r = None →
  process_one r (Some current) delivered
  = [DbUpdateLastLamports (row_id r) current].
Proof. intros H. unfold process_one. by rewrite on_fetch_first. Qed.

Lemma process_one_unchanged r current delivered :
  row_last_lamports r = Some current →
  process_one r (Some current) delivered = [].
Proof. intros H. unfold process_one. by rewrite on_fetch_unchanged. Qed.

Lemma process_one_changed r previous current delivered :
  row_last_lamports r = Some previous → current ≠ previous →
  ∃ msg, process_one r (Some current) delivered
         = DbUpdateLastLamports (row_id r) current
             :: SendMessage (row_user_id r) msg delivered
             :: (if delivered then [] else [WarnNotifyFailed (row_user_id r)])
         ∧ signed_change msg = current - previous
         ∧ bu_balance msg = current.
Proof.
  intros H Hne. destruct (on_fetch_changed _ _ _ H Hne) as (msg & Hf & Hm).
  exists msg. split; [|done].
  unfold process_one. rewrite Hf. simpl. by rewrite on_send_events.
Qed.

(** *** The database under a sequence of events *)

Lemma perform_identity d e :
  identity <$> wallets (perform d e) = identity <$> wallets d
  ∧ autoincrement (perform d e) = autoincrement d.
Proof.
  destruct e; simpl; try done. split; [|done].
  rewrite <- list_fmap_compose. apply list_fmap_ext.
  intros _ w _. simpl. by destruct (decide _).
Qed.

Lemma foldl_perform_identity evs d :
  identity <$> wallets (foldl perform d evs) = identity <$> wallets d
  ∧ autoincrement (foldl perform d evs) = autoincrement d.
Proof.
  revert d. induction evs as [|e evs IH]; intros d; simpl; [done|].
  destruct (IH (perform d e)) as [-> ->]. apply perform_identity.
Qed.

Lemma last_lamports_of_update w w' v d :
  last_lamports_of w (db_update_last_lamports w' v d)
  = if decide (w' = w) then (λ _, Some v) <$> last_lamports_of w d
    else last_lamports_of w d.
Proof.
  unfold last_lamports_of, db_update_last_lamports. simpl.
  destruct (decide (w' = w)) as [->|Hne].
  - induction (wallets d) as [|x l IH]; [done|].
    rewrite fmap_cons, !filter_cons.
    destruct (decide (w_id x = w)) as [Hx|Hx]; csimpl.
    + rewrite decide_True by done. csimpl. by rewrite IH.
    + by rewrite decide_False by done.
  - induction (wallets d) as [|x l IH]; [done|].
    rewrite fmap_cons, !filter_cons.
    destruct (decide (w_id x = w')) as [Hx|Hx]; csimpl.
    + rewrite !decide_False by congruence. done.
    + destruct (decide (w_id x = w)); csimpl; by rewrite IH.
Qed.

Lemma last_lamports_of_foldl w evs d :
  last_lamports_of w (foldl perform d evs)
  = match last (written w evs) with
    | Some v => (λ _, Some v) <$> last_lamports_of w d
    | None => last_lamports_of w d
    end.
Proof.
  revert d. induction evs as [|e evs IH]; intros d; simpl; [done|].
  rewrite IH. unfold written at 2. simpl. fold (written w evs).
  destruct e as [w' v| | |]; simpl; try done.
  rewrite last_lamports_of_update.
  destruct (decide (w' = w)) as [->|Hne]; simpl; [|done].
  destruct (written w evs) as [|v' l] eqn:Hw; simpl; [done|].
  rewrite last_cons. destruct (last l); simpl;
    rewrite <- list_fmap_compose; done.
Qed.

(** *** The moves of a scan *)

Lemma step_transition env s m s' :
  step env s m = Some s' ↔ transition env s m s'.
Proof.
  split.
  - destruct m as [i|i|i]; simpl;
      destruct (tasks s !! i) as [[r [| |msg|]]|] eqn:Hi; try done.
    + destruct (sem s) as [|n] eqn:Hs; [done|].
      intros [= <-]. by eapply transition_acquire.
    + destruct (on_fetch _ _) as [evs p] eqn:Hf. intros [= <-].
      by eapply transition_fetched.
    + intros [= <-]. by eapply transition_sent.
  - intros [i r n Hi Hs|i r evs p Hi Hf|i r msg Hi]; simpl; rewrite Hi.
    + by rewrite Hs.
    + by rewrite Hf.
    + done.
Qed.

Lemma events_of_resume i s j r evs p :
  events_of i (resume s j r evs p)
  = events_of i s ++ (if decide (i = j) then evs else []).
Proof.
  unfold events_of, resume. simpl. rewrite filter_app, fmap_app. f_equal.
  induction evs as [|e evs IH]; csimpl; [by destruct (decide _)|].
  rewrite filter_cons. simpl.
  destruct (decide (j = i)) as [->|Hne].
  - rewrite decide_True in IH |- * by done. csimpl. by rewrite IH.
  - rewrite decide_False in IH |- * by done. done.
Qed.

Lemma length_filter_insert {A} (P : A → Prop) `{∀ x, Decision (P x)}
  (l : list A) i x y :
  l !! i = Some x →
  (length (filter P (<[i:=y]> l)) + (if decide (P x) then 1 else 0)
   = length (filter P l) + (if decide (P y) then 1 else 0))%nat.
Proof.
  revert i. induction l as [|z l IH]; intros [|i] Hi; simplify_eq/=.
  - rewrite !filter_cons. repeat case_decide; simpl; lia.
  - specialize (IH i Hi). rewrite !filter_cons.
    destruct (decide (P z)); simpl; lia.
Qed.

Lemma holders_insert s i r p p' :
  tasks s !! i = Some (r, p) →
  (length (filter (λ t, holds_sem t.2 = true) (<[i := (r, p')]> (tasks s)))
   + (if holds_sem p then 1 else 0)
   = holders s + (if holds_sem p' then 1 else 0))%nat.
Proof.
  intros Hi.
  pose proof (length_filter_insert (λ t : Row * Phase, holds_sem t.2 = true)
                (tasks s) i (r, p) (r, p') Hi) as H.
  unfold holders. simpl in H.
  destruct (holds_sem p), (holds_sem p'); simpl in *;
    repeat case_decide; try done; lia.
Qed.

Lemma fst_insert_phase (l : list (Row * Phase)) i r p p' :
  l !! i = Some (r, p) → (<[i := (r, p')]> l).*1 = l.*1.
Proof.
  intros Hi. rewrite list_fmap_insert. simpl.
  apply list_insert_id. by rewrite list_lookup_fmap, Hi.
Qed.

Lemma remaining_insert s i r p p' :
  tasks s !! i = Some (r, p) →
  (sum_list ((λ t, phase_weight t.2) <$> <[i := (r, p')]> (tasks s))
   + phase_weight p
   = remaining s + phase_weight p')%nat.
Proof.
  unfold remaining. generalize (tasks s). intros l. revert i.
  induction l as [|z l IH]; intros [|i] Hi; simplify_eq/=; [lia|].
  specialize (IH i Hi). lia.
Qed.

(** Every move brings the scan closer to its end. *)
Lemma transition_remaining env s m s' :
  transition env s m s' → (remaining s' < remaining s)%nat.
Proof.
  intros [i r n Hi Hs|i r evs p Hi Hf|i r msg Hi]; unfold remaining; simpl.
  - pose proof (remaining_insert s i r Pending Fetching Hi). simpl in *.
    unfold remaining in *. lia.
  - pose proof (remaining_insert s i r Fetching p Hi).
    destruct (on_fetch_phase _ _ _ _ Hf) as [->|[msg ->]]; simpl in *;
      unfold remaining in *; lia.
  - pose proof (remaining_insert s i r (Notifying msg) Finished Hi).
    simpl in *. unfold remaining in *. lia.
Qed.

Lemma run_length env moves s s' :
  run env moves s = Some s' →
  (length moves + remaining s' ≤ remaining s)%nat.
Proof.
  revert s. induction moves as [|m moves IH]; intros s; simpl.
  - intros [= ->]. lia.
  - destruct (step env s m) as [s1|] eqn:Hs; simpl; [|done].
    intros Hrun. apply IH in Hrun.
    apply step_transition, transition_remaining in Hs. lia.
Qed.

Lemma filter_Forall_not {A} (P : A → Prop) `{∀ x, Decision (P x)}
  (l : list A) :
  Forall (λ x, ¬ P x) l → filter P l = [].
Proof.
  induction 1 as [|x l Hx _ IH]; [done|].
  rewrite filter_cons. by destruct (decide (P x)).
Qed.

Lemma is_Some_insert {A} (l : list A) i j x :
  is_Some (l !! j) → is_Some (<[i:=x]> l !! j).
Proof. by rewrite !lookup_lt_is_Some, length_insert. Qed.

(** *** The invariant *)

Lemma invariant_start env now a : invariant env now a (start now a).
Proof.
  split; simpl.
  - rewrite <- list_fmap_compose. apply list_fmap_id.
  - unfold holders. simpl. rewrite filter_Forall_not; [done|].
    apply Forall_fmap, Forall_true. done.
  - intros i r p Hi. rewrite list_lookup_fmap in Hi.
    destruct (_ !! i); simplify_eq/=. done.
  - intros i e Hin. by apply elem_of_nil in Hin.
  - done.
  - done.
Qed.

Lemma invariant_transition env now a s m s' :
  invariant env now a s → transition env s m s' → invariant env now a s'.
Proof.
  intros [Hrows Hsem Htasks Htrace Hdb Hstamp].
  intros [i r n Hi Hs|i r evs p Hi Hf|i r msg Hi].
  - split; simpl; try done.
    + by rewrite (fst_insert_phase _ _ _ _ _ Hi).
    + pose proof (holders_insert s i r Pending Fetching Hi) as H.
      unfold holders at 1. simpl in *. lia.
    + intros j r' p' Hj.
      destruct (decide (i = j)) as [->|Hne].
      * rewrite list_lookup_insert_eq in Hj by (by eapply lookup_lt_Some).
        simplify_eq. apply (Htasks _ _ _ Hi).
      * rewrite list_lookup_insert_ne in Hj by done.
        apply (Htasks _ _ _ Hj).
    + intros j e Hin. apply is_Some_insert. by eapply Htrace.
  - pose proof (Htasks _ _ _ Hi) as Hev. simpl in Hev.
    split; simpl.
    + by rewrite (fst_insert_phase _ _ _ _ _ Hi).
    + pose proof (holders_insert s i r Fetching p Hi) as H.
      unfold holders at 1. simpl in *.
      destruct (holds_sem p); lia.
    + intros j r' p' Hj.
      destruct (decide (i = j)) as [->|Hne].
      * rewrite list_lookup_insert_eq in Hj by (by eapply lookup_lt_Some).
        simplify_eq. unfold task_ok.
        rewrite !events_of_resume, decide_True, Hev by done. simpl.
        destruct (on_fetch_phase _ _ _ _ Hf) as [->|[msg ->]]; [|done].
        unfold process_one. by rewrite Hf.
      * rewrite list_lookup_insert_ne in Hj by done.
        specialize (Htasks _ _ _ Hj). unfold task_ok in *.
        rewrite !events_of_resume, decide_False, app_nil_r by done. done.
    + intros j e Hin. apply is_Some_insert.
      apply elem_of_app in Hin as [Hin|Hin].
      * by eapply Htrace.
      * apply list_elem_of_fmap in Hin as (e' & [= -> ->] & _). eauto.
    + rewrite fmap_app, foldl_app, <- Hdb. f_equal.
      rewrite <- list_fmap_compose. by rewrite list_fmap_id.
    + done.
  - pose proof (Htasks _ _ _ Hi) as Hev. simpl in Hev.
    split; simpl.
    + by rewrite (fst_insert_phase _ _ _ _ _ Hi).
    + pose proof (holders_insert s i r (Notifying msg) Finished Hi) as H.
      unfold holders at 1. simpl in *. lia.
    + intros j r' p' Hj.
      destruct (decide (i = j)) as [->|Hne].
      * rewrite list_lookup_insert_eq in Hj by (by eapply lookup_lt_Some).
        simplify_eq. unfold task_ok.
        rewrite !events_of_resume, decide_True by done.
        unfold process_one. rewrite Hev. done.
      * rewrite list_lookup_insert_ne in Hj by done.
        specialize (Htasks _ _ _ Hj). unfold task_ok in *.
        rewrite !events_of_resume, decide_False, app_nil_r by done. done.
    + intros j e Hin. apply is_Some_insert.
      apply elem_of_app in Hin as [Hin|Hin].
      * by eapply Htrace.
      * apply list_elem_of_fmap in Hin as (e' & [= -> ->] & _). eauto.
    + rewrite fmap_app, foldl_app, <- Hdb. f_equal.
      rewrite <- list_fmap_compose. by rewrite list_fmap_id.
    + done.
Qed.

Lemma invariant_run env now a moves s s' :
  invariant env now a s → run env moves s = Some s' → invariant env now a s'.
Proof.
  revert s. induction moves as [|m moves IH]; intros s Hinv; simpl.
  - by intros [= <-].
  - destruct (step env s m) as [s1|] eqn:Hs; simpl; [|done].
    apply IH. eapply invariant_transition; [done|]. by apply step_transition.
Qed.

Lemma invariant_reachable env now a moves s :
  run env moves (start now a) = Some s → invariant env now a s.
Proof. apply invariant_run, invariant_start. Qed.

(** *** Every scan can be brought to its end *)

Lemma finished_remaining s : finished s → remaining s = 0%nat.
Proof.
  unfold finished, remaining. induction 1 as [|[r p] l Hp _ IH]; [done|].
  simpl in Hp. subst p. rewrite fmap_cons. simpl. by rewrite IH.
Qed.

Lemma progress env now a s :
  invariant env now a s → ¬ finished s →
  ∃ m s', next_move s = Some m ∧ step env s m = Some s'.
Proof.
  intros Hinv Hnot. unfold next_move.
  destruct (list_find (λ t, holds_sem t.2 = true) (tasks s))
    as [[i [r p]]|] eqn:Hfind.
  - apply list_find_Some in Hfind as (Hi & Hp & _). simpl in Hp.
    destruct p as [| |msg|]; try done.
    + destruct (on_fetch r (rpc_get_balance_lamports env i)) as [evs p] eqn:Hf.
      eexists _, _. split; [done|]. simpl. by rewrite Hi, Hf.
    + eexists _, _. split; [done|]. simpl. by rewrite Hi.
  - apply list_find_None in Hfind.
    assert (holders s = 0%nat) as Hh.
    { unfold holders. by rewrite filter_Forall_not. }
    pose proof (inv_sem _ _ _ _ Hinv) as Hsem. rewrite Hh in Hsem.
    destruct (list_find (λ t, t.2 = Pending) (tasks s))
      as [[i [r p]]|] eqn:Hpend.
    + apply list_find_Some in Hpend as (Hi & Hp & _). simpl in Hp. subst p.
      unfold Config.SEMAPHORE_VALUE in Hsem.
      destruct (sem s) as [|n] eqn:Hs; [lia|].
      eexists _, _. split; [done|]. simpl. by rewrite Hi, Hs.
    + apply list_find_None in Hpend. exfalso. apply Hnot.
      unfold finished. rewrite Forall_forall in Hfind, Hpend |- *.
      intros [r p] Hin. specialize (Hfind _ Hin). specialize (Hpend _ Hin).
      simpl in *. by destruct p.
Qed.

Lemma drive_finishes env now a fuel s :
  invariant env now a s → (remaining s ≤ fuel)%nat →
  finished (drive env fuel s) ∧
  ∃ moves, run env moves s = Some (drive env fuel s).
Proof.
  revert s. induction fuel as [|fuel IH]; intros s Hinv Hfuel.
  - simpl. split; [|by exists []].
    destruct (decide (finished s)) as [|Hnot]; [done|].
    destruct (progress _ _ _ _ Hinv Hnot) as (m & s' & _ & Hs).
    apply step_transition, transition_remaining in Hs. lia.
  - simpl. destruct (decide (finished s)) as [Hfin|Hnot].
    + destruct (next_move s ≫= step env s) as [s'|] eqn:Hs.
      * destruct (next_move s) as [m|]; simplify_eq/=.
        apply step_transition, transition_remaining in Hs.
        rewrite (finished_remaining _ Hfin) in Hs. lia.
      * split; [done|]. by exists [].
    + destruct (progress _ _ _ _ Hinv Hnot) as (m & s' & Hm & Hs).
      rewrite Hm. simpl. rewrite Hs.
      pose proof Hs as Ht. apply step_transition in Ht.
      destruct (IH s') as [Hfin [moves Hrun]].
      * by eapply invariant_transition.
      * apply transition_remaining in Ht. lia.
      * split; [done|]. exists (m :: moves). simpl. by rewrite Hs.
Qed.

(** The job returns: its run under [next_move] is a run of the scan that
    ends with every coroutine finished. *)
Lemma check_balances_job_finishes env now a :
  finished (check_balances_job env now a) ∧
  ∃ moves, run env moves (start now a) = Some (check_balances_job env now a).
Proof. apply (drive_finishes env now a); [apply invariant_start | done]. Qed.

(** From wherever a scan stands, the remaining coroutines can be run to
    their end. *)
Lemma can_finish env now a s :
  invariant env now a s →
  ∃ moves s', run env moves s = Some s' ∧ finished s'.
Proof.
  intros Hinv.
  destruct (drive_finishes env now a (remaining s) s Hinv) as [Hfin [moves Hrun]];
    [done|]. eauto.
Qed.

(** *** What the database holds during a scan *)

Lemma filter_key_NoDup {A B} `{EqDecision B} (key : A → B) (l : list A) x :
  NoDup (key <$> l) → x ∈ l → filter (λ y, key y = key x) l = [x].
Proof.
  induction l as [|z l IH]; intros Hnd Hin; [by apply elem_of_nil in Hin|].
  rewrite fmap_cons, NoDup_cons in Hnd. destruct Hnd as [Hz Hnd].
  rewrite filter_cons. apply elem_of_cons in Hin as [->|Hin].
  - rewrite decide_True by done. f_equal.
    apply filter_Forall_not, Forall_forall. intros y Hy Heq.
    apply Hz. rewrite <- Heq. by apply list_elem_of_fmap_2.
  - rewrite decide_False; [by apply IH|].
    intros Heq. apply Hz. rewrite Heq. by apply list_elem_of_fmap_2.
Qed.

Lemma snapshot_last_lamports d r :
  primary_key d → r ∈ db_get_enabled_wallets_all_users d →
  last_lamports_of (row_id r) d = [row_last_lamports r].
Proof.
  intros [Hnd _] Hr. unfold db_get_enabled_wallets_all_users in Hr.
  apply list_elem_of_fmap in Hr as (w & -> & Hw).
  apply list_elem_of_filter in Hw as [_ Hw].
  unfold last_lamports_of. simpl.
  by rewrite (filter_key_NoDup w_id (wallets d) w Hnd Hw).
Qed.

Lemma snapshot_ids_NoDup d :
  primary_key d → NoDup (row_id <$> db_get_enabled_wallets_all_users d).
Proof.
  intros [Hnd _]. unfold db_get_enabled_wallets_all_users.
  rewrite <- list_fmap_compose.
  by apply (RegistryFacts.NoDup_fmap_filter w_id).
Qed.

Lemma on_fetch_db_update r result w v :
  DbUpdateLastLamports w v ∈ (on_fetch r result).1 →
  w = row_id r ∧ result = Some v.
Proof.
  destruct r as [[[[wid uid] name] addr] last]. unfold on_fetch.
  destruct result as [current|]; simpl.
  - destruct last as [last|]; simpl.
    + destruct (decide _); simpl; rewrite ?elem_of_nil; [|done].
      rewrite list_elem_of_singleton. by intros [= -> ->].
    + rewrite list_elem_of_singleton. by intros [= -> ->].
  - rewrite list_elem_of_singleton. done.
Qed.

Lemma process_one_db_update r result delivered w v :
  DbUpdateLastLamports w v ∈ process_one r result delivered →
  w = row_id r ∧ result = Some v.
Proof.
  unfold process_one. intros Hin. apply (on_fetch_db_update r result).
  destruct (on_fetch r result) as [evs p]. simpl.
  destruct p as [| |msg|]; try done.
  apply elem_of_app in Hin as [Hin|Hin]; [done|].
  rewrite on_send_events in Hin.
  apply elem_of_cons in Hin as [|Hin]; [done|].
  destruct delivered; [by apply elem_of_nil in Hin|].
  by apply list_elem_of_singleton in Hin.
Qed.

Lemma elem_of_events_of i e s : e ∈ events_of i s ↔ (i, e) ∈ trace s.
Proof.
  unfold events_of. rewrite list_elem_of_fmap. split.
  - intros ([j e'] & -> & Hin). apply list_elem_of_filter in Hin as [Hj Hin].
    simpl in *. by subst j.
  - intros Hin. exists (i, e). split; [done|]. by apply list_elem_of_filter.
Qed.

(** A write in the trace is a write of the coroutine's own row, with the
    balance its own request returned. *)
Lemma event_owner env now a s i w v :
  invariant env now a s → (i, DbUpdateLastLamports w v) ∈ trace s →
  ∃ r p, tasks s !! i = Some (r, p) ∧ row_id r = w
         ∧ rpc_get_balance_lamports env i = Some v.
Proof.
  intros Hinv Hin.
  destruct (inv_trace _ _ _ _ Hinv _ _ Hin) as [[r p] Hi].
  exists r, p. split; [done|].
  pose proof (inv_tasks _ _ _ _ Hinv _ _ _ Hi) as Hok.
  apply elem_of_events_of in Hin.
  destruct p as [| |msg|]; simpl in Hok.
  - rewrite Hok in Hin. by apply elem_of_nil in Hin.
  - rewrite Hok in Hin. by apply elem_of_nil in Hin.
  - destruct (on_fetch_db_update r (rpc_get_balance_lamports env i) w v);
      [by rewrite Hok | done].
  - rewrite Hok in Hin.
    by destruct (process_one_db_update _ _ _ _ _ Hin).
Qed.

Lemma written_cons w e evs :
  written w (e :: evs)
  = match e with
    | DbUpdateLastLamports w' v => if decide (w' = w) then [v] else []
    | _ => []
    end ++ written w evs.
Proof. destruct e as [w' v| | |]; try done. simpl. by destruct (decide _). Qed.

Lemma written_filter i w (tr : list (nat * Event)) :
  (∀ j v, (j, DbUpdateLastLamports w v) ∈ tr → j = i) →
  written w tr.*2 = written w (filter (λ x, x.1 = i) tr).*2.
Proof.
  induction tr as [|[j e] tr IH]; intros Hown; [done|].
  assert (written w tr.*2 = written w (filter (λ x, x.1 = i) tr).*2) as IH'.
  { apply IH. intros j' v Hin. apply (Hown j' v). by right. }
  rewrite filter_cons, fmap_cons, written_cons, IH'.
  destruct (decide ((j, e).1 = i)) as [Hj|Hne].
  - by rewrite fmap_cons, written_cons.
  - simpl in *. destruct e as [w' v| | |]; try done.
    destruct (decide (w' = w)) as [->|]; [|done].
    exfalso. apply Hne. apply (Hown j v). by left.
Qed.

Lemma written_trace env now a s i r p :
  invariant env now a s → primary_key (db a) →
  tasks s !! i = Some (r, p) →
  written (row_id r) (trace s).*2 = written (row_id r) (events_of i s).
Proof.
  intros Hinv Hpk Hi. apply written_filter. intros j v Hin.
  destruct (event_owner _ _ _ _ _ _ _ Hinv Hin) as (r' & p' & Hj & Hid & _).
  pose proof (snapshot_ids_NoDup _ Hpk) as Hnd.
  rewrite <- (inv_rows _ _ _ _ Hinv) in Hnd.
  eapply (NoDup_lookup _ j i (row_id r)); [exact Hnd| |].
  - by rewrite !list_lookup_fmap, Hj; simpl; rewrite Hid.
  - by rewrite !list_lookup_fmap, Hi.
Qed.

(** The balance stored for the row of a task is the last one the task
    wrote, or the one of the snapshot when it has written none. *)
Lemma stored env now a s i r p :
  invariant env now a s → primary_key (db a) →
  tasks s !! i = Some (r, p) →
  last_lamports_of (row_id r) (db (app s))
  = match last (written (row_id r) (events_of i s)) with
    | Some v => [Some v]
    | None => [row_last_lamports r]
    end.
Proof.
  intros Hinv Hpk Hi.
  rewrite (inv_db _ _ _ _ Hinv), last_lamports_of_foldl.
  rewrite (written_trace _ _ _ _ _ _ _ Hinv Hpk Hi).
  rewrite (snapshot_last_lamports (db a) r Hpk).
  - by destruct (last _).
  - rewrite <- (inv_rows _ _ _ _ Hinv).
    apply list_elem_of_fmap. exists (r, p). split; [done|].
    by eapply list_elem_of_lookup_2.
Qed.

(** *** The claims on the scan *)

(** C1. For every previous balance and every fetched balance, the coroutine
    does what the detector's signal asks for: with no previous balance
    (FirstObservation) it stores the current one and sends nothing; with an
    equal previous balance (Unchanged) it does nothing; with a different one
    it stores the current balance and sends one notice whose signed change
    is current - previous (Changed).  A notice is sent for Changed only, and
    the balance stored after FirstObservation or Changed is the current
    one. *)
Theorem change_detection
  (wallet_id user_id : Z) (name address : string) (previous : option Z)
  (current : Z) (delivered : bool) (d : DB) :
  let r : Row := (wallet_id, user_id, name, address, previous) in
  let evs := process_one r (Some current) delivered in
  let d' := foldl perform d evs in
  match ChangeDetector.detect previous current with
  | ChangeDetector.FirstObservation =>
      previous = None ∧
      evs = [DbUpdateLastLamports wallet_id current] ∧
      count is_send evs = 0%nat ∧
      last_lamports_of wallet_id d'
      = (λ _, Some current) <$> last_lamports_of wallet_id d
  | ChangeDetector.Unchanged =>
      previous = Some current ∧ evs = [] ∧ count is_send evs = 0%nat ∧ d' = d
  | ChangeDetector.Changed delta =>
      ∃ p msg,
        previous = Some p ∧ p ≠ current ∧ delta = current - p ∧
        signed_change msg = delta ∧
        evs = DbUpdateLastLamports wallet_id current
                :: SendMessage user_id msg delivered
                :: (if delivered then [] else [WarnNotifyFailed user_id]) ∧
        count is_send evs = 1%nat ∧
        last_lamports_of wallet_id d'
        = (λ _, Some current) <$> last_lamports_of wallet_id d
  end.
Proof.
  intros r evs d'. unfold ChangeDetector.detect.
  destruct previous as [p|].
  - destruct (decide (p = current)) as [->|Hne].
    + subst d'. subst evs. rewrite process_one_unchanged by done. done.
    + destruct (process_one_changed r p current delivered) as (msg & He & Hm & _);
        [done | congruence |].
      exists p, msg. subst d'. fold evs in He. rewrite He.
      split_and!; try done.
      * by destruct delivered.
      * rewrite last_lamports_of_foldl. simpl. rewrite decide_True by done.
        by destruct delivered.
  - subst d'. subst evs. rewrite process_one_first by done.
    split_and!; try done.
    rewrite last_lamports_of_foldl. simpl. by rewrite decide_True.
Qed.

(** C7. A scan leaves the rows of the table where they are, with their id,
    owner, name, address and enabled flag, and leaves the id counter: only
    last_lamports can differ after it. *)
Theorem scan_only_updates_last_lamports env now a moves s :
  run env moves (start now a) = Some s →
  identity <$> wallets (db (app s)) = identity <$> wallets (db a) ∧
  length (wallets (db (app s))) = length (wallets (db a)) ∧
  autoincrement (db (app s)) = autoincrement (db a).
Proof.
  intros Hrun. pose proof (invariant_reachable _ _ _ _ _ Hrun) as Hinv.
  rewrite (inv_db _ _ _ _ Hinv).
  destruct (foldl_perform_identity (trace s).*2 (db a)) as [Hid Hauto].
  split_and!; [done| |done].
  by rewrite <- (length_fmap identity), Hid, length_fmap.
Qed.

Lemma in_flight_holders s : (in_flight s ≤ holders s)%nat.
Proof.
  unfold in_flight, holders.
  induction (tasks s) as [|[r p] l IH]; [done|].
  rewrite !filter_cons. simpl.
  destruct (decide (p = Fetching)) as [->|Hp]; simpl; [lia|].
  destruct (decide (holds_sem p = true)); simpl; lia.
Qed.

Lemma in_flight_insert s i r p p' :
  tasks s !! i = Some (r, p) →
  (length (filter (λ t, t.2 = Fetching) (<[i := (r, p')]> (tasks s)))
   + (if decide (p = Fetching) then 1 else 0)
   = in_flight s + (if decide (p' = Fetching) then 1 else 0))%nat.
Proof.
  intros Hi.
  pose proof (length_filter_insert (λ t : Row * Phase, t.2 = Fetching)
                (tasks s) i (r, p) (r, p') Hi) as H.
  unfold in_flight. simpl in H. exact H.
Qed.

(** C5. Every scan starts with 8 permits, and in every state of a scan at
    most 8 requests are outstanding, however many accounts are enabled: a
    request is only outstanding while its task holds one of the permits;
    a request starts only by a move that takes a permit; the permit of a
    task whose request fails goes back at that very move; and when the scan
    is over all 8 permits are back, whatever the outcomes were. *)
Theorem semaphore_bounds_fetches env now a moves s :
  run env moves (start now a) = Some s →
  sem (start now a) = 8%nat ∧
  (in_flight s ≤ 8)%nat ∧
  (in_flight s ≤ holders s)%nat ∧
  (sem s + holders s = 8)%nat ∧
  (∀ m s', step env s m = Some s' → (in_flight s < in_flight s')%nat →
           ∃ i, m = Acquire i ∧ sem s = S (sem s')) ∧
  (∀ i r, tasks s !! i = Some (r, Fetching) →
          rpc_get_balance_lamports env i = None →
          ∃ s', step env s (Fetched i) = Some s' ∧ sem s' = S (sem s)
                ∧ tasks s' !! i = Some (r, Finished)) ∧
  (finished s → sem s = 8%nat).
Proof.
  intros Hrun. pose proof (invariant_reachable _ _ _ _ _ Hrun) as Hinv.
  pose proof (inv_sem _ _ _ _ Hinv) as Hsem.
  unfold Config.SEMAPHORE_VALUE in Hsem.
  pose proof (in_flight_holders s) as Hle.
  split_and!; [done|lia|done|done| | |].
  - intros m s' Hstep Hlt. apply step_transition in Hstep.
    destruct Hstep as [i r n Hi Hs|i r evs p Hi Hf|i r msg Hi].
    + exists i. by rewrite Hs.
    + exfalso. pose proof (in_flight_insert s i r Fetching p Hi) as H.
      unfold in_flight in *. simpl in Hlt.
      rewrite decide_True in H by done.
      destruct (on_fetch_phase _ _ _ _ Hf) as [->|[msg ->]];
        rewrite decide_False in H by done; lia.
    + exfalso.
      pose proof (in_flight_insert s i r (Notifying msg) Finished Hi) as H.
      unfold in_flight in *. simpl in Hlt.
      rewrite !decide_False in H by done. lia.
  - intros i r Hi Hnone. eexists. simpl. rewrite Hi, Hnone, on_fetch_failed.
    split; [done|]. simpl. split; [done|].
    apply list_lookup_insert_eq. by eapply lookup_lt_Some.
  - intros Hfin. assert (holders s = 0%nat) as Hh; [|lia].
    unfold holders. rewrite filter_Forall_not; [done|].
    eapply Forall_impl; [exact Hfin|]. intros [r p] Hp. simpl in *.
    by subst p.
Qed.

Lemma failed_task_events env now a s i r p :
  invariant env now a s → tasks s !! i = Some (r, p) →
  rpc_get_balance_lamports env i = None →
  events_of i s = [] ∨ events_of i s = [WarnFetchFailed (row_address r)].
Proof.
  intros Hinv Hi Hnone.
  pose proof (inv_tasks _ _ _ _ Hinv _ _ _ Hi) as Hok. unfold task_ok in Hok.
  rewrite Hnone in Hok. destruct p as [| |msg|]; [by left|by left| |].
  - by rewrite on_fetch_failed in Hok.
  - right. by rewrite Hok, process_one_failed.
Qed.

Lemma fetched_task_events env now a s i r p current :
  invariant env now a s → tasks s !! i = Some (r, p) →
  rpc_get_balance_lamports env i = Some current →
  row_last_lamports r ≠ Some current →
  match p with
  | Pending | Fetching => events_of i s = []
  | Notifying msg =>
      events_of i s = [DbUpdateLastLamports (row_id r) current]
  | Finished =>
      ∃ rest, events_of i s = DbUpdateLastLamports (row_id r) current :: rest
              ∧ (row_last_lamports r = None ∧ rest = []
                 ∨ ∃ previous msg,
                     row_last_lamports r = Some previous ∧
                     signed_change msg = current - previous ∧
                     rest = SendMessage (row_user_id r) msg (send_message env i)
                              :: (if send_message env i then []
                                  else [WarnNotifyFailed (row_user_id r)]))
  end.
Proof.
  intros Hinv Hi Hcur Hne.
  pose proof (inv_tasks _ _ _ _ Hinv _ _ _ Hi) as Hok. unfold task_ok in Hok.
  rewrite Hcur in Hok. destruct p as [| |msg|]; try done.
  - destruct (row_last_lamports r) as [previous|] eqn:Hlast.
    + destruct (on_fetch_changed r previous current Hlast) as (msg' & Hf & _);
        [congruence|]. rewrite Hf in Hok. by injection Hok as <- _.
    + by rewrite on_fetch_first in Hok.
  - destruct (row_last_lamports r) as [previous|] eqn:Hlast.
    + destruct (process_one_changed r previous current (send_message env i)
                  Hlast) as (msg & He & Hm & _); [congruence|].
      rewrite He in Hok. eexists. split; [exact Hok|]. right. eauto.
    + rewrite process_one_first in Hok by done.
      eexists. split; [exact Hok|]. by left.
Qed.

Lemma written_own_update w v rest :
  count is_db_update rest = 0%nat →
  written w (DbUpdateLastLamports w v :: rest) = [v].
Proof.
  intros Hrest. rewrite written_cons, decide_True by done. simpl. f_equal.
  induction rest as [|e rest IH]; [done|].
  rewrite written_cons. unfold count in *. rewrite filter_cons in Hrest.
  destruct e as [w' v'| | |]; simpl in Hrest; [done|..]; by apply IH.
Qed.

Lemma finished_task_outcome env now a s i r :
  invariant env now a s → primary_key (db a) →
  tasks s !! i = Some (r, Finished) →
  events_of i s
  = process_one r (rpc_get_balance_lamports env i) (send_message env i)
  ∧ last_lamports_of (row_id r) (db (app s))
    = match last (written (row_id r)
                    (process_one r (rpc_get_balance_lamports env i)
                                 (send_message env i))) with
      | Some v => [Some v]
      | None => [row_last_lamports r]
      end.
Proof.
  intros Hinv Hpk Hi.
  pose proof (inv_tasks _ _ _ _ Hinv _ _ _ Hi) as Hok. simpl in Hok.
  split; [done|]. by rewrite (stored _ _ _ _ _ _ _ Hinv Hpk Hi), Hok.
Qed.

(** C2. In a scan in which the request of account A fails, whatever the
    state the scan has reached: the balance stored for A is the one of
    before the scan, and A has sent no notice and written nothing; an
    account B whose request returned a balance different from its stored
    one has, once its coroutine is over, exactly one write and exactly one
    notice, and its stored balance is the fetched one; the outcome of a
    finished account is the same in every run of the scan in which its own
    two remote calls have the same outcome, whatever happens to the other
    accounts; and the scan can always be run to its end. *)
Theorem fetch_failure_is_account_local env now a moves s iA rA pA :
  primary_key (db a) →
  run env moves (start now a) = Some s →
  tasks s !! iA = Some (rA, pA) →
  rpc_get_balance_lamports env iA = None →
  last_lamports_of (row_id rA) (db (app s))
  = last_lamports_of (row_id rA) (db a) ∧
  last_lamports_of (row_id rA) (db (app s)) = [row_last_lamports rA] ∧
  count is_send (events_of iA s) = 0%nat ∧
  count is_db_update (events_of iA s) = 0%nat ∧
  (∀ iB rB previous current,
     tasks s !! iB = Some (rB, Finished) →
     rpc_get_balance_lamports env iB = Some current →
     row_last_lamports rB = Some previous → current ≠ previous →
     count is_db_update (events_of iB s) = 1%nat ∧
     count is_send (events_of iB s) = 1%nat ∧
     last_lamports_of (row_id rB) (db (app s)) = [Some current]) ∧
  (∀ env' moves' s' i r,
     run env' moves' (start now a) = Some s' →
     tasks s !! i = Some (r, Finished) →
     tasks s' !! i = Some (r, Finished) →
     rpc_get_balance_lamports env' i = rpc_get_balance_lamports env i →
     send_message env' i = send_message env i →
     events_of i s' = events_of i s ∧
     last_lamports_of (row_id r) (db (app s'))
     = last_lamports_of (row_id r) (db (app s))) ∧
  (∃ moves' s', run env moves' s = Some s' ∧ finished s').
Proof.
  intros Hpk Hrun HA Hnone.
  pose proof (invariant_reachable _ _ _ _ _ Hrun) as Hinv.
  assert (written (row_id rA) (events_of iA s) = []
          ∧ count is_send (events_of iA s) = 0%nat
          ∧ count is_db_update (events_of iA s) = 0%nat) as (Hw & Hs & Hu).
  { by destruct (failed_task_events _ _ _ _ _ _ _ Hinv HA Hnone) as [->| ->]. }
  assert (last_lamports_of (row_id rA) (db (app s)) = [row_last_lamports rA])
    as Hlast.
  { by rewrite (stored _ _ _ _ _ _ _ Hinv Hpk HA), Hw. }
  split_and!; try done.
  - rewrite Hlast. symmetry. apply snapshot_last_lamports; [done|].
    rewrite <- (inv_rows _ _ _ _ Hinv).
    apply list_elem_of_fmap. exists (rA, pA). split; [done|].
    by eapply list_elem_of_lookup_2.
  - intros iB rB previous current HB Hcur Hprev Hne.
    destruct (fetched_task_events _ _ _ _ _ _ _ current Hinv HB Hcur)
      as (rest & Hev & Hrest); [congruence|].
    destruct Hrest as [[? _]|(previous' & msg & _ & _ & ->)]; [congruence|].
    rewrite (stored _ _ _ _ _ _ _ Hinv Hpk HB), Hev.
    rewrite written_own_update by (by destruct (send_message env iB)).
    by destruct (send_message env iB).
  - intros env' moves' s' i r Hrun' Hi Hi' Hrpc Hsend.
    pose proof (invariant_reachable _ _ _ _ _ Hrun') as Hinv'.
    destruct (finished_task_outcome _ _ _ _ _ _ Hinv Hpk Hi) as [-> ->].
    destruct (finished_task_outcome _ _ _ _ _ _ Hinv' Hpk Hi') as [-> ->].
    by rewrite Hrpc, Hsend.
  - by eapply can_finish.
Qed.

(** C3. For an account whose request returned a balance that is new (no
    stored balance, or a different one): while its notice is being sent the
    balance is already written, and written first; once its coroutine is
    over the stored balance is the fetched one whether or not the delivery
    succeeded; at most one send is ever attempted; when the delivery fails
    the events of the account are the write, the one send and the warning;
    and the scan can still be run to its end, every coroutine then having
    done what its own row and remote calls determine. *)
Theorem balance_persisted_before_notification env now a moves s i r p current :
  primary_key (db a) →
  run env moves (start now a) = Some s →
  tasks s !! i = Some (r, p) →
  rpc_get_balance_lamports env i = Some current →
  row_last_lamports r ≠ Some current →
  (∀ msg, p = Notifying msg →
          events_of i s = [DbUpdateLastLamports (row_id r) current] ∧
          last_lamports_of (row_id r) (db (app s)) = [Some current]) ∧
  (∀ chat_id msg delivered,
     SendMessage chat_id msg delivered ∈ events_of i s →
     ∃ rest, events_of i s
             = DbUpdateLastLamports (row_id r) current
                 :: SendMessage chat_id msg delivered :: rest) ∧
  (p = Finished →
   last_lamports_of (row_id r) (db (app s)) = [Some current]) ∧
  (count is_send (events_of i s) ≤ 1)%nat ∧
  (p = Finished → send_message env i = false →
   ∀ previous, row_last_lamports r = Some previous →
     ∃ msg, events_of i s
            = [DbUpdateLastLamports (row_id r) current;
               SendMessage (row_user_id r) msg false;
               WarnNotifyFailed (row_user_id r)]) ∧
  (∃ moves' s',
     run env moves' s = Some s' ∧ finished s' ∧
     ∀ j r', tasks s' !! j = Some (r', Finished) →
             events_of j s'
             = process_one r' (rpc_get_balance_lamports env j)
                           (send_message env j)).
Proof.
  intros Hpk Hrun Hi Hcur Hne.
  pose proof (invariant_reachable _ _ _ _ _ Hrun) as Hinv.
  pose proof (fetched_task_events _ _ _ _ _ _ _ current Hinv Hi Hcur Hne)
    as Hev.
  pose proof (stored _ _ _ _ _ _ _ Hinv Hpk Hi) as Hst.
  split_and!.
  - intros msg ->. split; [done|]. rewrite Hst, Hev.
    by rewrite written_own_update.
  - intros chat_id msg delivered Hin.
    destruct p as [| |msg'|]; try (rewrite Hev in Hin).
    + by apply elem_of_nil in Hin.
    + by apply elem_of_nil in Hin.
    + by apply list_elem_of_singleton in Hin.
    + destruct Hev as (rest & Hev & Hrest). rewrite Hev in Hin |- *.
      apply elem_of_cons in Hin as [|Hin]; [done|].
      destruct Hrest as [[_ ->]|(previous & msg' & _ & _ & ->)];
        [by apply elem_of_nil in Hin|].
      apply elem_of_cons in Hin as [Heq|Hin];
        [injection Heq as ? ? ?; subst; eauto|].
      destruct (send_message env i); [by apply elem_of_nil in Hin|].
      by apply list_elem_of_singleton in Hin.
  - intros ->. destruct Hev as (rest & Hev & Hrest). rewrite Hst, Hev.
    rewrite written_own_update; [done|].
    destruct Hrest as [[_ ->]|(previous & msg' & _ & _ & ->)]; [done|].
    by destruct (send_message env i).
  - unfold count.
    destruct p as [| |msg'|]; try (rewrite Hev; by (simpl; lia)).
    destruct Hev as (rest & -> & Hrest).
    destruct Hrest as [[_ ->]|(previous & msg' & _ & _ & ->)]; [simpl; lia|].
    destruct (send_message env i); simpl; lia.
  - intros -> Hfail previous Hprev.
    destruct Hev as (rest & -> & Hrest).
    destruct Hrest as [[? _]|(previous' & msg' & _ & _ & ->)]; [congruence|].
    rewrite Hfail. eauto.
  - destruct (can_finish _ _ _ _ Hinv) as (moves' & s' & Hrun' & Hfin).
    exists moves', s'. split_and!; try done.
    intros j r' Hj.
    pose proof (invariant_run _ _ _ _ _ _ Hinv Hrun') as Hinv'.
    apply (inv_tasks _ _ _ _ Hinv' _ _ _ Hj).
Qed.

(** *** Counting the warnings of a scan *)

Lemma sum_list_outside (g : nat → nat) j c start n :
  (j < start)%nat →
  sum_list ((λ i, g i + (if decide (j = i) then c else 0))%nat <$> seq start n)
  = sum_list (g <$> seq start n).
Proof.
  revert start. induction n as [|n IH]; intros start Hj; [done|].
  csimpl. rewrite IH by lia. rewrite decide_False by lia. lia.
Qed.

Lemma sum_list_indicator (g : nat → nat) j c start n :
  (start ≤ j < start + n)%nat →
  sum_list ((λ i, g i + (if decide (j = i) then c else 0))%nat <$> seq start n)
  = (sum_list (g <$> seq start n) + c)%nat.
Proof.
  revert start. induction n as [|n IH]; intros start Hj; [lia|].
  csimpl. destruct (decide (j = start)) as [->|Hne].
  - rewrite sum_list_outside by lia. lia.
  - rewrite IH by lia. lia.
Qed.

Lemma count_cons f e evs :
  count f (e :: evs) = ((if f e then 1 else 0) + count f evs)%nat.
Proof.
  unfold count. rewrite filter_cons. by destruct (f e).
Qed.

Lemma count_by_task f (tr : list (nat * Event)) n :
  (∀ i e, (i, e) ∈ tr → (i < n)%nat) →
  count f tr.*2
  = sum_list ((λ i, count f (filter (λ x, x.1 = i) tr).*2) <$> seq 0 n).
Proof.
  induction tr as [|[j e] tr IH]; intros Hidx.
  - simpl. induction (seq 0 n) as [|i l IHl]; [done|]. csimpl. by rewrite <- IHl.
  - rewrite fmap_cons, count_cons, IH by (intros i e' Hin; eapply Hidx; by right).
    rewrite Nat.add_comm.
    rewrite <- (sum_list_indicator _ j (if f e then 1 else 0)%nat 0 n).
    + f_equal. apply list_fmap_ext. intros _ i _.
      rewrite filter_cons. simpl.
      destruct (decide (j = i)) as [Hj|Hj]; [|lia].
      rewrite fmap_cons, count_cons. simpl. lia.
    + split; [lia|]. simpl. eapply Hidx. by left.
Qed.

Lemma process_one_fetch_warnings r result delivered :
  count is_fetch_warning (process_one r result delivered)
  = if decide (result = None) then 1%nat else 0%nat.
Proof.
  destruct result as [current|]; [|by rewrite process_one_failed].
  rewrite decide_False by done.
  destruct (row_last_lamports r) as [previous|] eqn:Hlast.
  - destruct (decide (current = previous)) as [->|Hne].
    + by rewrite process_one_unchanged.
    + destruct (process_one_changed r previous current delivered Hlast Hne)
        as (msg & -> & _).
      by destruct delivered.
  - by rewrite process_one_first.
Qed.

Lemma sum_list_filter (P : nat → Prop) `{∀ i, Decision (P i)} (l : list nat) :
  sum_list ((λ i, if decide (P i) then 1 else 0)%nat <$> l)
  = length (filter P l).
Proof.
  induction l as [|i l IH]; [done|].
  rewrite fmap_cons, filter_cons. simpl. destruct (decide (P i)); simpl; lia.
Qed.

(** C6, amended. A scan returns nothing and keeps no count: what it leaves
    to the screens is the time of the scan, set when it starts, next to the
    table; each request that fails is reported by exactly one warning of
    the log and by nothing else, so that the warnings of a finished scan
    are as many as its failed requests. *)
Theorem scan_leaves_timestamp_and_warnings env now a moves s :
  run env moves (start now a) = Some s → finished s →
  job_result s = (tt, mkApp (Some now) (db (app s))) ∧
  count is_fetch_warning (trace s).*2 = fetch_failures env s ∧
  (∀ i r p, tasks s !! i = Some (r, p) →
            rpc_get_balance_lamports env i = None →
            events_of i s = [WarnFetchFailed (row_address r)]).
Proof.
  intros Hrun Hfin. pose proof (invariant_reachable _ _ _ _ _ Hrun) as Hinv.
  assert (∀ i r p, tasks s !! i = Some (r, p) →
            events_of i s
            = process_one r (rpc_get_balance_lamports env i)
                          (send_message env i)) as Hdone.
  { intros i r p Hi. unfold finished in Hfin. rewrite Forall_lookup in Hfin.
    pose proof (Hfin _ _ Hi) as Hp. simpl in Hp. subst p.
    apply (inv_tasks _ _ _ _ Hinv _ _ _ Hi). }
  split_and!.
  - unfold job_result. f_equal. destruct (app s) as [stamp d] eqn:Happ.
    pose proof (inv_stamp _ _ _ _ Hinv) as Hstamp. rewrite Happ in Hstamp.
    simpl in *. by subst stamp.
  - rewrite (count_by_task _ _ (length (tasks s))).
    + unfold fetch_failures. rewrite <- sum_list_filter. f_equal.
      apply list_fmap_ext. intros k i Hk.
      apply lookup_seq in Hk as [-> Hlt]. simpl.
      destruct (lookup_lt_is_Some_2 (tasks s) k Hlt) as [[r p] Hi].
      fold (events_of k s). rewrite (Hdone _ _ _ Hi).
      apply process_one_fetch_warnings.
    + intros i e Hin. apply lookup_lt_is_Some. by eapply inv_trace.
  - intros i r p Hi Hnone. by rewrite (Hdone _ _ _ Hi), Hnone, process_one_failed.
Qed.

(** C6, as stated, fails: no count of failed requests (the fetchFailures of
    the statistics) can be read from what the job returns and leaves
    behind.  The scan of accounts X and Y in which the request for Y times
    out and the scan in which it returns Y's stored balance hand back the
    same result, with one failure in the first and none in the second. *)
Lemma scan_statistics_counterexample :
  ¬ ∃ fetchFailures : unit * App → nat,
      ∀ env now a,
        fetchFailures (job_result (check_balances_job env now a))
        = fetch_failures env (check_balances_job env now a).
Proof.
  intros [fetchFailures Hstats].
  pose proof (Hstats Scenarios.remote_timeout Scenarios.NOW
                     Scenarios.application) as H1.
  pose proof (Hstats Scenarios.remote_quiet Scenarios.NOW
                     Scenarios.application) as H2.
  vm_compute in H1, H2. rewrite H1 in H2. discriminate H2.
Qed.

(** *** The theorems at the scenarios *)

Lemma scenario_primary_key : primary_key Scenarios.registry.
Proof.
  split; apply (bool_decide_unpack _); vm_compute; exact I.
Defined.

Lemma fetch_failure_is_account_local_witness :
  last_lamports_of 2 (db (app Scenarios.scan_timeout)) = [Some 1000000000] ∧
  count is_send (events_of 1 Scenarios.scan_timeout) = 0%nat ∧
  count is_send (events_of 0 Scenarios.scan_timeout) = 1%nat ∧
  last_lamports_of 1 (db (app Scenarios.scan_timeout)) = [Some 4500000000].
Proof.
  destruct (fetch_failure_is_account_local
              Scenarios.remote_timeout Scenarios.NOW Scenarios.application
              Scenarios.moves_timeout Scenarios.scan_timeout 1%nat
              (2, 100, "Y", Scenarios.ADDRESS_Y, Some 1000000000) Finished
              scenario_primary_key)
    as (_ & HA & HsendA & _ & HB & _).
  - vm_compute; reflexivity.
  - reflexivity.
  - reflexivity.
  - destruct (HB 0%nat (1, 100, "X", Scenarios.ADDRESS_X, Some 5000000000)
                 5000000000 4500000000) as (_ & HsendB & HlastB).
    + reflexivity.
    + reflexivity.
    + reflexivity.
    + lia.
    + exact (conj HA (conj HsendA (conj HsendB HlastB))).
Defined.

Lemma balance_persisted_before_notification_witness :
  last_lamports_of 1 (db (app Scenarios.scan_timeout)) = [Some 4500000000] ∧
  (count is_send (events_of 0 Scenarios.scan_timeout) ≤ 1)%nat.
Proof.
  destruct (balance_persisted_before_notification
              Scenarios.remote_timeout Scenarios.NOW Scenarios.application
              Scenarios.moves_timeout Scenarios.scan_timeout 0%nat
              (1, 100, "X", Scenarios.ADDRESS_X, Some 5000000000) Finished
              4500000000 scenario_primary_key)
    as (_ & _ & Hstored & Hsend & _).
  - vm_compute; reflexivity.
  - reflexivity.
  - reflexivity.
  - simpl. intros H. discriminate H.
  - split; [by apply Hstored | exact Hsend].
Defined.

Lemma semaphore_bounds_fetches_witness :
  (in_flight Scenarios.scan_in_flight ≤ 8)%nat ∧
  (sem Scenarios.scan_in_flight + holders Scenarios.scan_in_flight = 8)%nat.
Proof.
  destruct (semaphore_bounds_fetches
              Scenarios.remote_timeout Scenarios.NOW Scenarios.application
              [Acquire 0; Acquire 1]%nat Scenarios.scan_in_flight)
    as (_ & Hbound & _ & Hsem & _).
  - vm_compute; reflexivity.
  - exact (conj Hbound Hsem).
Defined.

Lemma scan_only_updates_last_lamports_witness :
  identity <$> wallets (db (app Scenarios.scan_timeout))
  = identity <$> wallets Scenarios.registry.
Proof.
  destruct (scan_only_updates_last_lamports
              Scenarios.remote_timeout Scenarios.NOW Scenarios.application
              Scenarios.moves_timeout Scenarios.scan_timeout)
    as (Hid & _).
  - vm_compute; reflexivity.
  - exact Hid.
Defined.

Lemma scan_leaves_timestamp_and_warnings_witness :
  count is_fetch_warning (trace Scenarios.scan_timeout).*2
  = fetch_failures Scenarios.remote_timeout Scenarios.scan_timeout.
Proof.
  destruct (scan_leaves_timestamp_and_warnings
              Scenarios.remote_timeout Scenarios.NOW Scenarios.application
              Scenarios.moves_timeout Scenarios.scan_timeout)
    as (_ & Hcount & _).
  - vm_compute; reflexivity.
  - apply (bool_decide_unpack _). vm_compute. exact I.
  - exact Hcount.
Defined.

(** The end-to-end scenarios, run. *)

Example scenario_first_observation :
  process_one (1, 100, "X", Scenarios.ADDRESS_X, None) (Some 5000000000) true
  = [DbUpdateLastLamports 1 5000000000].
Proof. reflexivity. Qed.

Example scenario_decrease :
  process_one (1, 100, "X", Scenarios.ADDRESS_X, Some 5000000000)
              (Some 4500000000) true
  = [DbUpdateLastLamports 1 4500000000;
     SendMessage 100
       (mkBalanceUpdate "X" "4Nd1…nXTe" "decreased 📉" "-" 500000000
                        4500000000) true].
Proof. vm_compute. reflexivity. Qed.

Example scenario_timeout :
  let s := check_balances_job Scenarios.remote_timeout Scenarios.NOW
                              Scenarios.application in
  last_lamports_of 2 (db (app s)) = [Some 1000000000] ∧
  fetch_failures Scenarios.remote_timeout s = 1%nat ∧
  events_of 1 s = [WarnFetchFailed Scenarios.ADDRESS_Y].
Proof. vm_compute. done. Qed.

Example scenario_no_account :
  check_balances_job Scenarios.remote_timeout Scenarios.NOW
                     (mkApp None empty_db)
  = mkScan [] 8 (mkApp (Some Scenarios.NOW) empty_db) [].
Proof. reflexivity. Qed.

(** Ten accounts: eight requests can be outstanding, a ninth cannot start
    before one of them is over. *)
Example scenario_ninth_acquire_waits :
  let s0 := start Scenarios.NOW Scenarios.ten_accounts in
  (in_flight <$> run Scenarios.remote_quiet (Acquire <$> seq 0 8) s0)
  = Some 8%nat ∧
  run Scenarios.remote_quiet (Acquire <$> seq 0 9) s0 = None ∧
  (in_flight <$> run Scenarios.remote_quiet
                   ((Acquire <$> seq 0 8) ++ [Fetched 3; Acquire 8]%nat) s0)
  = Some 8%nat.
Proof. vm_compute. done. Qed.

End MonitorFacts.

(** ** The configuration *)

Module ConfigFacts.
Import Config.

Lemma effective_inv env e :
  effective env = Some e →
  ∃ cfg, load env = Some cfg ∧
         e = mkEffective (CHECK_INTERVAL_SECONDS cfg) 12 8.
Proof.
  unfold effective. destruct (load env) as [cfg|]; [|done]. simpl.
  destruct (decide _); [done|]. intros [= <-]. eauto.
Qed.

Lemma effective_constants env e :
  effective env = Some e →
  fetch_timeout e = 12 ∧ concurrency_bound e = 8%nat.
Proof. intros He. by destruct (effective_inv _ _ He) as (cfg & _ & ->). Qed.

(** C9, as stated, fails: the timeout of a request and the concurrency
    bound are not read from the environment; no environment gives either
    of them a value other than 12 and 8. *)
Lemma configuration_counterexample :
  ¬ (read_from_environment scan_interval ∧
     read_from_environment fetch_timeout ∧
     read_from_environment concurrency_bound).
Proof.
  intros (_ & (env1 & env2 & e1 & e2 & H1 & H2 & Hne) & _). apply Hne.
  destruct (effective_constants _ _ H1) as [-> _].
  by destruct (effective_constants _ _ H2) as [-> _].
Qed.

(** C9, amended. The scan interval is read from the environment variable
    CHECK_INTERVAL_SECONDS when the settings are loaded, and is 10 when the
    variable is not set; the timeout of a request is 12 and the concurrency
    bound is 8 in every environment in which the process starts. *)
Theorem configuration_surface (env : gmap string string) (e : Effective) :
  effective env = Some e →
  read_from_environment scan_interval ∧
  fetch_timeout e = 12 ∧
  concurrency_bound e = 8%nat ∧
  (env !! "CHECK_INTERVAL_SECONDS" = None → scan_interval e = 10) ∧
  (∀ v, env !! "CHECK_INTERVAL_SECONDS" = Some v →
        Text.python_int v = Some (scan_interval e)).
Proof.
  intros He. destruct (effective_constants _ _ He) as [Ht Hc].
  destruct (effective_inv _ _ He) as (cfg & Hload & ->).
  split_and!; try done.
  - exists Scenarios.environment_default, Scenarios.environment.
    eexists _, _. split; [vm_compute; reflexivity|].
    split; [vm_compute; reflexivity|]. done.
  - intros Hnone. unfold load, getenv in Hload. rewrite Hnone in Hload.
    simpl in Hload. by injection Hload as <-.
  - intros v Hv. unfold load, getenv in Hload. rewrite Hv in Hload.
    simpl in Hload. destruct (Text.python_int v); [|done].
    by injection Hload as <-.
Qed.

Lemma configuration_surface_witness :
  Text.python_int "30" = Some 30 ∧
  fetch_timeout (mkEffective 30 12 8) = 12 ∧
  concurrency_bound (mkEffective 30 12 8) = 8%nat.
Proof.
  destruct (configuration_surface Scenarios.environment (mkEffective 30 12 8))
    as (_ & Ht & Hc & _ & Hset).
  - vm_compute. reflexivity.
  - split; [|exact (conj Ht Hc)]. apply (Hset "30"). vm_compute. reflexivity.
Defined.

End ConfigFacts.

(** ** More on the registry *)

Module RegistryExtras.
Import Registry.

Lemma fmap_id_on {A} (f : A → A) (l : list A) :
  (∀ x, x ∈ l → f x = x) → f <$> l = l.
Proof.
  intros Hf. induction l as [|x l IH]; [done|].
  rewrite fmap_cons, Hf by left. f_equal. apply IH.
  intros y Hy. apply Hf. by right.
Qed.

Lemma fmap_id_on_filter {A} (P : A → Prop) `{∀ x, Decision (P x)}
  (l : list A) :
  Forall P l → filter P l = l.
Proof.
  induction 1 as [|x l Hx _ IH]; [done|].
  by rewrite filter_cons, decide_True, IH.
Qed.

Lemma same_key_same_row {A B} `{EqDecision B} (key : A → B) (l : list A) x y :
  NoDup (key <$> l) → x ∈ l → y ∈ l → key y = key x → y = x.
Proof.
  intros Hnd Hx Hy Hk.
  assert (y ∈ filter (λ z, key z = key x) l) as Hin
    by (by apply list_elem_of_filter).
  rewrite (MonitorFacts.filter_key_NoDup key l x Hnd Hx) in Hin.
  by apply list_elem_of_singleton in Hin.
Qed.

(** X1. A balance written for an id that has no row changes nothing; so the
    write of a balance for a wallet that its owner has deleted meanwhile is
    dropped. *)
Theorem update_of_missing_wallet (user_id wallet_id lamports : Z) (d : DB) :
  ((∀ w, w ∈ wallets d → w_id w ≠ wallet_id) →
   db_update_last_lamports wallet_id lamports d = d) ∧
  (primary_key d → (db_delete_wallet user_id wallet_id d).2 = true →
   db_update_last_lamports wallet_id lamports
     (db_delete_wallet user_id wallet_id d).1
   = (db_delete_wallet user_id wallet_id d).1).
Proof.
  assert (∀ d', (∀ w, w ∈ wallets d' → w_id w ≠ wallet_id) →
                db_update_last_lamports wallet_id lamports d' = d') as Hmiss.
  { intros [l n] Hl. unfold db_update_last_lamports. simpl in *. f_equal.
    apply fmap_id_on. intros w Hw. rewrite decide_False; [done|]. by apply Hl. }
  split; [apply Hmiss|].
  intros [Hnd _] Hdel. apply Hmiss. simpl. intros w Hw Hid.
  apply list_elem_of_filter in Hw as [Hnot Hw].
  unfold db_delete_wallet in Hdel. simpl in Hdel.
  apply bool_decide_eq_true in Hdel.
  destruct (filter (owned_by user_id wallet_id) (wallets d)) as [|x l] eqn:Hf;
    [simpl in Hdel; lia|].
  assert (x ∈ filter (owned_by user_id wallet_id) (wallets d)) as Hx
    by (rewrite Hf; left).
  apply list_elem_of_filter in Hx as [[Hxid Hxu] Hx].
  assert (w = x) as -> by (apply (same_key_same_row w_id (wallets d)); congruence).
  apply Hnot. by split.
Qed.

Lemma update_of_missing_wallet_witness :
  db_update_last_lamports 7 5 Scenarios.registry_two_users
  = Scenarios.registry_two_users ∧
  db_update_last_lamports 2 5
    (db_delete_wallet 200 2 Scenarios.registry_two_users).1
  = (db_delete_wallet 200 2 Scenarios.registry_two_users).1.
Proof.
  destruct (update_of_missing_wallet 200 7 5 Scenarios.registry_two_users)
    as [Hmiss _].
  destruct (update_of_missing_wallet 200 2 5 Scenarios.registry_two_users)
    as [_ Hdel].
  split.
  - apply Hmiss. intros w Hw. simpl in Hw. rewrite !elem_of_cons in Hw.
    destruct Hw as [->|[->|Hw]]; simpl; [lia|lia|by apply elem_of_nil in Hw].
  - apply Hdel; [|reflexivity].
    split; apply (bool_decide_unpack _); vm_compute; exact I.
Defined.

(** X2. Writes of the last balance compose as assignments: a second write
    for the same id replaces the first (so writing the same value twice is
    writing it once), and writes for different ids commute. *)
Theorem update_last_write_wins (w w' v v' : Z) (d : DB) :
  db_update_last_lamports w' v' (db_update_last_lamports w v d)
  = if decide (w = w') then db_update_last_lamports w' v' d
    else db_update_last_lamports w v (db_update_last_lamports w' v' d).
Proof.
  unfold db_update_last_lamports. simpl.
  destruct (decide (w = w')) as [->|Hne]; f_equal;
    rewrite <- !list_fmap_compose; apply list_fmap_ext; intros _ x _; simpl;
    repeat (case_decide; simpl in * ); try done; congruence.
Qed.

Lemma after_app ops1 ops2 :
  after (ops1 ++ ops2) = foldl apply_op (after ops1) ops2.
Proof. unfold after. by rewrite foldl_app. Qed.

Lemma after_enabled_is_flag ops : enabled_is_flag (after ops).
Proof.
  unfold enabled_is_flag.
  induction ops as [|op ops IH] using rev_ind; [apply Forall_nil_2|].
  rewrite RegistryFacts.after_snoc.
  destruct op as [u n a|u w|u w|w l]; simpl.
  - unfold db_add_wallet. destruct (decide _); simpl; [done|].
    apply Forall_app. split; [done|]. apply Forall_singleton. simpl. by right.
  - unfold db_toggle_wallet. destruct (head _) as [row|]; simpl; [|done].
    apply Forall_fmap. eapply Forall_impl; [exact IH|].
    intros x Hx. simpl. destruct (decide (owned_by u w x)); [|done].
    simpl. destruct (decide (w_enabled row = 1)); [by left|by right].
  - rewrite Forall_forall in IH |- *. intros x Hx.
    apply list_elem_of_filter in Hx as [_ Hx]. by apply IH.
  - apply Forall_fmap. eapply Forall_impl; [exact IH|].
    intros x Hx. simpl. by destruct (decide _).
Qed.

Lemma toggle_found user_id wallet_id d x :
  NoDup (w_id <$> wallets d) → x ∈ wallets d → owned_by user_id wallet_id x →
  db_toggle_wallet user_id wallet_id d
  = (mkDB ((λ w, if decide (w = x)
                 then set_enabled (if decide (w_enabled x = 1) then 0 else 1) w
                 else w) <$> wallets d) (autoincrement d),
     Some (if decide (w_enabled x = 1) then 0 else 1)).
Proof.
  intros Hnd Hx Ho. unfold db_toggle_wallet.
  destruct (head _) as [row|] eqn:Hrow.
  - apply head_Some_elem_of, list_elem_of_filter in Hrow as [[Hid Hu] Hrow].
    destruct Ho as [Hxid Hxu].
    assert (row = x) as -> by (apply (same_key_same_row w_id (wallets d)); congruence).
    f_equal. f_equal. apply list_fmap_ext. intros i w Hw.
    apply list_elem_of_lookup_2 in Hw.
    destruct (decide (owned_by user_id wallet_id w)) as [[Hwid Hwu]|Hno].
    + assert (w = x) as -> by (apply (same_key_same_row w_id (wallets d)); congruence).
      by destruct (decide (x = x)).
    + destruct (decide (w = x)) as [->|]; [|done]. exfalso. apply Hno. by split.
  - apply head_None in Hrow.
    exfalso. eapply filter_nil_not_elem_of; [exact Hrow|exact Ho|exact Hx].
Qed.

(** X3. In the table after any history of writes the enabled column is 0
    or 1, and toggling the same wallet twice gives the table back: the
    second toggle answers the flag the wallet had. *)
Theorem toggle_twice_restores (ops : list Op) (user_id wallet_id : Z) :
  let d := after ops in
  let t1 := db_toggle_wallet user_id wallet_id d in
  let t2 := db_toggle_wallet user_id wallet_id t1.1 in
  enabled_is_flag d ∧ t2.1 = d ∧
  (t1.2 = None ∧ t2.2 = None
   ∨ ∃ x, x ∈ wallets d ∧ owned_by user_id wallet_id x ∧
          t1.2 = Some (1 - w_enabled x) ∧ t2.2 = Some (w_enabled x)).
Proof.
  intros d t1 t2. pose proof (after_enabled_is_flag ops) as Hflag.
  destruct (RegistryFacts.after_primary_key ops) as [Hnd _].
  fold d in Hflag, Hnd. split; [done|].
  destruct (decide (Exists (owned_by user_id wallet_id) (wallets d)))
    as [Hex|Hno].
  - apply Exists_exists in Hex as (x & Hx & Ho).
    pose proof (toggle_found _ _ _ _ Hnd Hx Ho) as H1. fold t1 in H1.
    unfold enabled_is_flag in Hflag. rewrite Forall_forall in Hflag.
    pose proof (Hflag x Hx) as Hbit.
    set (e := if decide (w_enabled x = 1) then 0 else 1) in *.
    set (x' := set_enabled e x).
    assert (x' ∈ wallets t1.1) as Hx'.
    { rewrite H1. simpl. apply list_elem_of_fmap. exists x. split; [|done].
      by rewrite decide_True. }
    assert (NoDup (w_id <$> wallets t1.1)) as Hnd'.
    { rewrite H1. simpl. rewrite RegistryFacts.fmap_update_key; [done|].
      intros w. by destruct (decide (w = x)). }
    assert (owned_by user_id wallet_id x') as Ho' by done.
    pose proof (toggle_found _ _ _ _ Hnd' Hx' Ho') as H2. fold t2 in H2.
    assert ((if decide (w_enabled x' = 1) then 0 else 1) = w_enabled x) as He.
    { subst x' e. simpl. destruct Hbit as [Hb|Hb]; rewrite Hb; done. }
    rewrite He in H2. split.
    + rewrite H2, H1. simpl. destruct d as [l n]. simpl in *. f_equal.
      rewrite <- list_fmap_compose. apply fmap_id_on. intros w Hw. simpl.
      destruct (decide (w = x)) as [->|Hne].
      * fold x'. rewrite decide_True by done. by destruct x.
      * rewrite decide_False; [done|]. intros Hw'. apply Hne.
        apply (same_key_same_row w_id l); [done..|].
        by rewrite Hw'.
    + right. exists x. split_and!; try done.
      * rewrite H1. simpl. f_equal. subst e.
        destruct Hbit as [Hb|Hb]; rewrite Hb; done.
      * by rewrite H2.
  - assert (∀ w, w ∈ wallets d → ¬ owned_by user_id wallet_id w) as Hnone.
    { intros w Hw Ho. apply Hno. apply Exists_exists. eauto. }
    destruct (RegistryFacts.filter_none_owned _ _ _ Hnone) as [Hf _].
    assert (t1 = (d, None)) as H1.
    { unfold t1, db_toggle_wallet. by rewrite Hf. }
    assert (t2 = (d, None)) as H2.
    { unfold t2. rewrite H1. simpl. unfold db_toggle_wallet. by rewrite Hf. }
    rewrite H2, H1. split; [done|]. by left.
Qed.

(** X4. After a delete no row of the table has the given id and owner; a
    second delete answers [false], a toggle answers [None], and both leave
    the table as the first delete left it. *)
Theorem delete_then_gone (user_id wallet_id : Z) (d : DB) :
  let d' := (db_delete_wallet user_id wallet_id d).1 in
  (∀ w, w ∈ wallets d' → ¬ owned_by user_id wallet_id w) ∧
  db_delete_wallet user_id wallet_id d' = (d', false) ∧
  db_toggle_wallet user_id wallet_id d' = (d', None).
Proof.
  intros d'.
  assert (∀ w, w ∈ wallets d' → ¬ owned_by user_id wallet_id w) as Hnone.
  { intros w Hw. by apply list_elem_of_filter in Hw as [? _]. }
  split; [exact Hnone|]. clearbody d'.
  destruct (RegistryFacts.filter_none_owned _ _ _ Hnone) as [Hf Hk].
  unfold db_delete_wallet, db_toggle_wallet. rewrite Hf, Hk. simpl.
  by destruct d'.
Qed.

Lemma same_wallet_refl w : same_wallet w w.
Proof. by repeat split. Qed.

Lemma apply_op_keeps_wallets d0 d op :
  autoincrement d0 ≤ autoincrement d →
  (∀ w, w ∈ wallets d →
        (∃ w0, w0 ∈ wallets d0 ∧ same_wallet w0 w) ∨ autoincrement d0 < w_id w) →
  autoincrement d0 ≤ autoincrement (apply_op d op) ∧
  (∀ w, w ∈ wallets (apply_op d op) →
        (∃ w0, w0 ∈ wallets d0 ∧ same_wallet w0 w) ∨ autoincrement d0 < w_id w).
Proof.
  intros Hle Hold. destruct op as [u n a|u wid|u wid|wid l]; simpl.
  - unfold db_add_wallet. destruct (decide _); simpl; [done|].
    split; [lia|]. intros w Hw. apply elem_of_app in Hw as [Hw|Hw]; [by apply Hold|].
    apply list_elem_of_singleton in Hw as ->. right. simpl. lia.
  - unfold db_toggle_wallet. destruct (head _) as [row|]; simpl; [|done].
    split; [done|]. intros w Hw.
    apply list_elem_of_fmap in Hw as (x & -> & Hx).
    destruct (Hold x Hx) as [(w0 & Hw0 & Hsame)|Hnew].
    + left. exists w0. split; [done|]. by destruct (decide _).
    + right. by destruct (decide _).
  - split; [done|]. intros w Hw. apply list_elem_of_filter in Hw as [_ Hw].
    by apply Hold.
  - split; [done|]. intros w Hw.
    apply list_elem_of_fmap in Hw as (x & -> & Hx).
    destruct (Hold x Hx) as [(w0 & Hw0 & Hsame)|Hnew].
    + left. exists w0. split; [done|]. by destruct (decide _).
    + right. by destruct (decide _).
Qed.

(** X5. Ids are never reused and a wallet keeps its owner, name and address
    for life: the id counter never goes down, and a row of the table after
    more writes either is a wallet that was already there, with the same
    id, owner, name and address, or has an id above every id handed out
    before. *)
Theorem wallet_ids_never_reused (ops1 ops2 : list Op) :
  autoincrement (after ops1) ≤ autoincrement (after (ops1 ++ ops2)) ∧
  (∀ w, w ∈ wallets (after ops1) → w_id w ≤ autoincrement (after ops1)) ∧
  (∀ w, w ∈ wallets (after (ops1 ++ ops2)) →
        (∃ w0, w0 ∈ wallets (after ops1) ∧ same_wallet w0 w)
        ∨ autoincrement (after ops1) < w_id w).
Proof.
  assert (autoincrement (after ops1) ≤ autoincrement (after (ops1 ++ ops2)) ∧
          (∀ w, w ∈ wallets (after (ops1 ++ ops2)) →
                (∃ w0, w0 ∈ wallets (after ops1) ∧ same_wallet w0 w)
                ∨ autoincrement (after ops1) < w_id w)) as [H1 H2].
  { induction ops2 as [|op ops2 [IH1 IH2]] using rev_ind.
    - rewrite app_nil_r. split; [lia|]. intros w Hw. left. exists w.
      split; [done|apply same_wallet_refl].
    - rewrite app_assoc, RegistryFacts.after_snoc.
      by apply apply_op_keeps_wallets. }
  split_and!; [done| |done].
  destruct (RegistryFacts.after_primary_key ops1) as [_ Hids].
  rewrite Forall_forall in Hids. exact Hids.
Qed.

Lemma wallet_ids_never_reused_witness :
  (∃ w0, w0 ∈ wallets (after [AddWallet 100 "Main" Scenarios.ADDRESS_Y;
                               DeleteWallet 100 1])
         ∧ same_wallet w0 (mkWallet 2 200 "Cold" Scenarios.ADDRESS_X 1 None))
  ∨ autoincrement (after [AddWallet 100 "Main" Scenarios.ADDRESS_Y;
                          DeleteWallet 100 1])
    < w_id (mkWallet 2 200 "Cold" Scenarios.ADDRESS_X 1 None).
Proof.
  destruct (wallet_ids_never_reused
              [AddWallet 100 "Main" Scenarios.ADDRESS_Y; DeleteWallet 100 1]
              [AddWallet 200 "Cold" Scenarios.ADDRESS_X])
    as (_ & _ & Hnew).
  apply Hnew. apply (bool_decide_unpack _). vm_compute. exact I.
Defined.

Lemma filter_fmap_same {A} (P : A → Prop) `{∀ x, Decision (P x)}
  (f : A → A) (l : list A) :
  (∀ x, P x → f x = x) → (∀ x, P (f x) → P x) →
  filter P (f <$> l) = filter P l.
Proof.
  intros Hid Hback. induction l as [|x l IH]; [done|].
  rewrite fmap_cons, !filter_cons, IH.
  destruct (decide (P x)) as [Hx|Hx].
  - rewrite (Hid x Hx). by rewrite decide_True.
  - rewrite decide_False; [done|]. intros Hfx. by apply Hx, Hback.
Qed.

Lemma filter_filter_same {A} (P Q : A → Prop) `{∀ x, Decision (P x)}
  `{∀ x, Decision (Q x)} (l : list A) :
  (∀ x, P x → Q x) → filter P (filter Q l) = filter P l.
Proof.
  intros HPQ. induction l as [|x l IH]; [done|].
  rewrite !filter_cons. destruct (decide (Q x)) as [Hq|Hq].
  - rewrite filter_cons. by rewrite IH.
  - rewrite IH. rewrite decide_False; [done|]. intros Hp. by apply Hq, HPQ.
Qed.

(** X6. What a user reads of the table, through db_get_wallets, is not
    changed by what another user adds, toggles or deletes. *)
Theorem other_users_writes_invisible (user_id other : Z) (op : Op) (d : DB) :
  op_user op = Some other → other ≠ user_id →
  db_get_wallets user_id (apply_op d op) = db_get_wallets user_id d.
Proof.
  intros Hop Hne. unfold db_get_wallets. do 2 f_equal.
  destruct op as [u n a|u wid|u wid|wid l]; simpl in Hop; simplify_eq; simpl.
  - unfold db_add_wallet. destruct (decide _); simpl; [done|].
    rewrite filter_app, filter_cons, filter_nil. simpl.
    rewrite decide_False by done. by rewrite app_nil_r.
  - unfold db_toggle_wallet. destruct (head _) as [row|]; simpl; [|done].
    apply filter_fmap_same.
    + intros x Hx. rewrite decide_False; [done|]. intros [_ Hu]. congruence.
    + intros x. by destruct (decide _).
  - apply filter_filter_same. intros x Hx [_ Hu]. congruence.
Qed.

Lemma other_users_writes_invisible_witness :
  db_get_wallets 100 (apply_op Scenarios.registry_two_users (DeleteWallet 200 2))
  = db_get_wallets 100 Scenarios.registry_two_users.
Proof.
  apply (other_users_writes_invisible 100 200 (DeleteWallet 200 2)).
  - reflexivity.
  - lia.
Defined.

End RegistryExtras.

(** ** More on the monitor *)

Module MonitorExtras.
Import Registry Monitor.

Lemma settle_nil w : settle [] w = w.
Proof. done. Qed.

Lemma settle_cons e evs w :
  settle (e :: evs) w
  = settle evs (match e with
                | DbUpdateLastLamports w' v =>
                    if decide (w_id w = w') then set_last_lamports v w else w
                | _ => w
                end).
Proof.
  unfold settle. rewrite MonitorFacts.written_cons, last_app.
  destruct e as [w' v| | |]; try (by destruct (last _)).
  destruct (decide (w_id w = w')) as [<-|Hne].
  - rewrite decide_True by done. simpl. by destruct (last _).
  - rewrite decide_False by done. simpl. by destruct (last _).
Qed.

(** The table after a sequence of events. *)
Lemma wallets_foldl_perform evs d :
  foldl perform d evs = mkDB (settle evs <$> wallets d) (autoincrement d).
Proof.
  revert d. induction evs as [|e evs IH]; intros d.
  - simpl. destruct d as [l n]. simpl. f_equal.
    symmetry. apply RegistryExtras.fmap_id_on. done.
  - simpl. rewrite IH. f_equal.
    + destruct e as [w' v| | |]; simpl;
        try (apply list_fmap_ext; intros i x _; by rewrite settle_cons).
      rewrite <- list_fmap_compose. apply list_fmap_ext. intros i x _. simpl.
      by rewrite settle_cons.
    + by destruct e.
Qed.

Lemma written_none wallet_id evs :
  (∀ v, DbUpdateLastLamports wallet_id v ∉ evs) → written wallet_id evs = [].
Proof.
  induction evs as [|e evs IH]; intros Hno; [done|].
  rewrite MonitorFacts.written_cons, IH.
  - destruct e as [w' v| | |]; try done.
    destruct (decide (w' = wallet_id)) as [->|]; [|done].
    exfalso. apply (Hno v). left.
  - intros v Hin. apply (Hno v). by right.
Qed.

Lemma task_row_enabled env now a s i r p :
  invariant env now a s → tasks s !! i = Some (r, p) →
  ∃ w, w ∈ wallets (db a) ∧ w_enabled w = 1 ∧ row_of w = r.
Proof.
  intros Hinv Hi.
  assert (r ∈ db_get_enabled_wallets_all_users (db a)) as Hr.
  { rewrite <- (inv_rows _ _ _ _ Hinv). apply list_elem_of_fmap.
    exists (r, p). split; [done|]. by eapply list_elem_of_lookup_2. }
  apply list_elem_of_fmap in Hr as (w & -> & Hw).
  apply list_elem_of_filter in Hw as [He Hw]. eauto.
Qed.

(** X7. A scan has no task for a wallet whose alerts are off, never writes
    its balance, and leaves its row in the table exactly as it was. *)
Theorem scan_skips_disabled_wallets env now a moves s w :
  primary_key (db a) →
  run env moves (start now a) = Some s →
  w ∈ wallets (db a) → w_enabled w ≠ 1 →
  (∀ i r p, tasks s !! i = Some (r, p) → row_id r ≠ w_id w) ∧
  (∀ i v, (i, DbUpdateLastLamports (w_id w) v) ∉ trace s) ∧
  w ∈ wallets (db (app s)).
Proof.
  intros [Hnd _] Hrun Hw Hoff.
  pose proof (MonitorFacts.invariant_reachable _ _ _ _ _ Hrun) as Hinv.
  assert (∀ i r p, tasks s !! i = Some (r, p) → row_id r ≠ w_id w) as Hnotask.
  { intros i r p Hi Hid.
    destruct (task_row_enabled _ _ _ _ _ _ _ Hinv Hi) as (w' & Hw' & He & <-).
    assert (w' = w) as -> by (by apply (RegistryExtras.same_key_same_row
                                          w_id (wallets (db a)))).
    done. }
  assert (∀ i v, (i, DbUpdateLastLamports (w_id w) v) ∉ trace s) as Hnowrite.
  { intros i v Hin.
    destruct (MonitorFacts.event_owner _ _ _ _ _ _ _ Hinv Hin)
      as (r & p & Hi & Hid & _).
    by apply (Hnotask _ _ _ Hi). }
  split_and!; [done..|].
  rewrite (inv_db _ _ _ _ Hinv), wallets_foldl_perform. simpl.
  apply list_elem_of_fmap. exists w. split; [|done].
  unfold settle. rewrite written_none; [done|].
  intros v Hin. apply list_elem_of_fmap in Hin as ([i e] & Heq & Hin).
  simpl in Heq. subst e. by apply (Hnowrite i v).
Qed.

Lemma scan_skips_disabled_wallets_witness :
  mkWallet 2 100 "Y" Scenarios.ADDRESS_Y 0 (Some 1000000000)
  ∈ wallets (db (app Scenarios.scan_y_off)).
Proof.
  destruct (scan_skips_disabled_wallets
              Scenarios.remote_quiet Scenarios.NOW Scenarios.application_y_off
              Scenarios.moves_y_off Scenarios.scan_y_off
              (mkWallet 2 100 "Y" Scenarios.ADDRESS_Y 0 (Some 1000000000)))
    as (_ & _ & Hin).
  - split; apply (bool_decide_unpack _); vm_compute; exact I.
  - vm_compute. reflexivity.
  - apply (bool_decide_unpack _). vm_compute. exact I.
  - simpl. lia.
  - exact Hin.
Defined.

Lemma process_one_send wid uid name addr last result delivered chat_id msg d :
  SendMessage chat_id msg d
  ∈ process_one (wid, uid, name, addr, last) result delivered →
  ∃ previous current,
    last = Some previous ∧ result = Some current ∧ current ≠ previous ∧
    chat_id = uid ∧ d = delivered ∧
    msg = mkBalanceUpdate name (Text.truncate_addr addr)
            (if decide (current - previous > 0)
             then "increased 📈" else "decreased 📉")
            (if decide (current - previous > 0) then "+" else "-")
            (Z.abs (current - previous)) current.
Proof.
  unfold process_one, on_fetch, on_send.
  destruct result as [current|];
    [|intros Hin; by apply list_elem_of_singleton in Hin].
  destruct last as [previous|];
    [|intros Hin; by apply list_elem_of_singleton in Hin].
  destruct (decide (current ≠ previous)) as [Hne|];
    [|intros Hin; by apply elem_of_nil in Hin].
  simpl. rewrite !elem_of_cons. intros [Hin|[Hin|Hin]]; [done| |].
  - injection Hin as -> -> ->. exists previous, current. done.
  - destruct delivered; [by apply elem_of_nil in Hin|].
    by apply list_elem_of_singleton in Hin.
Qed.

(** X8. Every message a scan sends is the notice of a real change, to the
    owner: it comes from the task of an enabled wallet of that user whose
    request returned a balance other than the stored one, it carries that
    wallet's name and the new balance, its change is the difference, never
    zero, and it says increased exactly when the balance went up. *)
Theorem notifications_are_changes env now a moves s i chat_id msg delivered :
  run env moves (start now a) = Some s →
  (i, SendMessage chat_id msg delivered) ∈ trace s →
  ∃ w previous current,
    w ∈ wallets (db a) ∧ w_enabled w = 1 ∧ w_user_id w = chat_id ∧
    w_last_lamports w = Some previous ∧
    (tasks s).*1 !! i = Some (row_of w) ∧
    rpc_get_balance_lamports env i = Some current ∧ current ≠ previous ∧
    delivered = send_message env i ∧
    bu_name msg = w_name w ∧ bu_addr msg = Text.truncate_addr (w_address w) ∧
    bu_balance msg = current ∧ signed_change msg = current - previous ∧
    bu_change msg = Z.abs (current - previous) ∧ 0 < bu_change msg ∧
    (bu_direction msg = "increased 📈" ↔ previous < current) ∧
    (bu_sign msg = "+" ↔ previous < current).
Proof.
  intros Hrun Hin.
  pose proof (MonitorFacts.invariant_reachable _ _ _ _ _ Hrun) as Hinv.
  destruct (inv_trace _ _ _ _ Hinv _ _ Hin) as [[r p] Hi].
  pose proof (inv_tasks _ _ _ _ Hinv _ _ _ Hi) as Hok.
  apply MonitorFacts.elem_of_events_of in Hin.
  destruct (task_row_enabled _ _ _ _ _ _ _ Hinv Hi) as (w & Hw & He & <-).
  assert (SendMessage chat_id msg delivered
          ∈ process_one (row_of w) (rpc_get_balance_lamports env i)
                        (send_message env i)) as Hsend.
  { destruct p as [| |msg'|]; unfold task_ok in Hok.
    - rewrite Hok in Hin. by apply elem_of_nil in Hin.
    - rewrite Hok in Hin. by apply elem_of_nil in Hin.
    - unfold process_one. rewrite Hok. apply elem_of_app. by left.
    - by rewrite <- Hok. }
  destruct (process_one_send _ _ _ _ _ _ _ _ _ _ Hsend)
    as (previous & current & Hlast & Hcur & Hne & -> & -> & ->).
  exists w, previous, current.
  unfold signed_change. simpl.
  rewrite list_lookup_fmap, Hi. simpl.
  split_and!; try done.
  - destruct (decide (current - previous > 0)); simpl; lia.
  - lia.
  - destruct (decide (current - previous > 0)); split; try done; lia.
  - destruct (decide (current - previous > 0)); split; try done; lia.
Qed.

Lemma notifications_are_changes_witness :
  ∃ w previous current,
    w ∈ wallets Scenarios.registry ∧ w_user_id w = 100 ∧
    w_last_lamports w = Some previous ∧
    rpc_get_balance_lamports Scenarios.remote_timeout 0 = Some current ∧
    current ≠ previous.
Proof.
  destruct (notifications_are_changes
              Scenarios.remote_timeout Scenarios.NOW Scenarios.application
              Scenarios.moves_timeout Scenarios.scan_timeout 0%nat 100
              (mkBalanceUpdate "X" "4Nd1…nXTe" "decreased 📉" "-" 500000000
                               4500000000) false)
    as (w & previous & current & Hw & _ & Hu & Hl & _ & Hc & Hne & _).
  - vm_compute. reflexivity.
  - apply (bool_decide_unpack _). vm_compute. exact I.
  - exists w, previous, current. done.
Defined.

(** *** Finished scans *)

Lemma tasks_of_finished env now a s :
  invariant env now a s → finished s →
  tasks s = (λ r, (r, Finished)) <$> db_get_enabled_wallets_all_users (db a).
Proof.
  intros Hinv Hfin. rewrite <- (inv_rows _ _ _ _ Hinv).
  unfold finished in Hfin. induction Hfin as [|[r p] l Hp _ IH]; [done|].
  simpl in Hp. subst p. csimpl. by rewrite <- IH.
Qed.

Lemma events_out_of_range env now a s i :
  invariant env now a s → tasks s !! i = None → events_of i s = [].
Proof.
  intros Hinv Hi. unfold events_of.
  rewrite (MonitorFacts.filter_Forall_not (λ x : nat * Event, x.1 = i));
    [done|].
  apply Forall_forall. intros [j e] Hin Hj. simpl in Hj. subst j.
  destruct (inv_trace _ _ _ _ Hinv _ _ Hin) as [t Ht]. congruence.
Qed.

Lemma events_of_finished env now a s i :
  invariant env now a s → finished s →
  events_of i s
  = match db_get_enabled_wallets_all_users (db a) !! i with
    | Some r => process_one r (rpc_get_balance_lamports env i)
                            (send_message env i)
    | None => []
    end.
Proof.
  intros Hinv Hfin.
  pose proof (tasks_of_finished _ _ _ _ Hinv Hfin) as Ht.
  destruct (db_get_enabled_wallets_all_users (db a) !! i) as [r|] eqn:Hr.
  - apply (inv_tasks _ _ _ _ Hinv i r Finished).
    by rewrite Ht, list_lookup_fmap, Hr.
  - apply (events_out_of_range _ _ _ _ _ Hinv).
    by rewrite Ht, list_lookup_fmap, Hr.
Qed.

Lemma filter_task_events i (tr : list (nat * Event)) :
  filter (λ x, x.1 = i) tr = (λ e, (i, e)) <$> (filter (λ x, x.1 = i) tr).*2.
Proof.
  induction tr as [|[j e] tr IH]; [done|].
  rewrite filter_cons. simpl. destruct (decide (j = i)) as [->|]; [|done].
  csimpl. by rewrite <- IH.
Qed.

Lemma mjoin_outside {A} (g : nat → list A) j x start n :
  (j < start)%nat →
  mjoin ((λ i, if decide (j = i) then x :: g i else g i) <$> seq start n)
  = mjoin (g <$> seq start n).
Proof.
  revert start. induction n as [|n IH]; intros start Hj; [done|].
  csimpl. rewrite IH by lia. by rewrite decide_False by lia.
Qed.

Lemma mjoin_indicator {A} (g : nat → list A) j x start n :
  (start ≤ j < start + n)%nat →
  mjoin ((λ i, if decide (j = i) then x :: g i else g i) <$> seq start n)
  ≡ₚ x :: mjoin (g <$> seq start n).
Proof.
  revert start. induction n as [|n IH]; intros start Hj; [lia|].
  csimpl. destruct (decide (j = start)) as [->|Hne].
  - by rewrite mjoin_outside by lia.
  - rewrite IH by lia. by rewrite Permutation_middle.
Qed.

Lemma trace_by_task (tr : list (nat * Event)) n :
  (∀ i e, (i, e) ∈ tr → (i < n)%nat) →
  tr ≡ₚ mjoin ((λ i, filter (λ x, x.1 = i) tr) <$> seq 0 n).
Proof.
  induction tr as [|[j e] tr IH]; intros Hidx.
  - induction (seq 0 n) as [|i l IHl]; [done|]. csimpl. by rewrite <- IHl.
  - rewrite (IH (λ i e' Hin, Hidx i e' (list_elem_of_further _ _ _ Hin))) at 1.
    rewrite <- (mjoin_indicator _ j (j, e) 0 n)
      by (split; [lia|]; simpl; eapply Hidx; left).
    reflexivity.
Qed.

(** X9. The outcome of a scan does not depend on the order in which its
    coroutines ran: two finished runs of the same scan with the same
    outcomes of the remote calls leave the same table and timestamp, every
    account has the same events in both, and the two traces are the same
    up to order. *)
Theorem finished_scans_agree env now a moves1 moves2 s1 s2 :
  primary_key (db a) →
  run env moves1 (start now a) = Some s1 → finished s1 →
  run env moves2 (start now a) = Some s2 → finished s2 →
  app s1 = app s2 ∧ tasks s1 = tasks s2 ∧ sem s1 = sem s2 ∧
  (∀ i, events_of i s1 = events_of i s2) ∧
  trace s1 ≡ₚ trace s2.
Proof.
  intros Hpk Hrun1 Hfin1 Hrun2 Hfin2.
  pose proof (MonitorFacts.invariant_reachable _ _ _ _ _ Hrun1) as Hinv1.
  pose proof (MonitorFacts.invariant_reachable _ _ _ _ _ Hrun2) as Hinv2.
  assert (tasks s1 = tasks s2) as Htasks.
  { by rewrite (tasks_of_finished _ _ _ _ Hinv1 Hfin1),
               (tasks_of_finished _ _ _ _ Hinv2 Hfin2). }
  assert (∀ i, events_of i s1 = events_of i s2) as Hev.
  { intros i. by rewrite (events_of_finished _ _ _ _ i Hinv1 Hfin1),
                         (events_of_finished _ _ _ _ i Hinv2 Hfin2). }
  assert (∀ w, w ∈ wallets (db a) →
               written (w_id w) (trace s1).*2 = written (w_id w) (trace s2).*2)
    as Hwritten.
  { intros w Hw.
    destruct (decide (w_id w ∈ row_id <$> (tasks s1).*1)) as [Hin|Hout].
    - apply list_elem_of_fmap in Hin as (r & Hid & Hr).
      apply list_elem_of_fmap in Hr as ([r' p] & -> & Hr).
      apply list_elem_of_lookup in Hr as [i Hi]. simpl in Hid.
      rewrite Hid.
      rewrite (MonitorFacts.written_trace _ _ _ _ _ _ _ Hinv1 Hpk Hi).
      rewrite Htasks in Hi.
      rewrite (MonitorFacts.written_trace _ _ _ _ _ _ _ Hinv2 Hpk Hi).
      by rewrite Hev.
    - assert (∀ s, invariant env now a s → tasks s = tasks s1 →
                   written (w_id w) (trace s).*2 = []) as Hnone.
      { intros s Hinv Hs. apply written_none. intros v Hin.
        apply list_elem_of_fmap in Hin as ([i e] & Heq & Hin).
        simpl in Heq. subst e.
        destruct (MonitorFacts.event_owner _ _ _ _ _ _ _ Hinv Hin)
          as (r & p & Hi & Hid & _).
        apply Hout. rewrite <- Hid, <- Hs. apply list_elem_of_fmap.
        exists r. split; [done|]. apply list_elem_of_fmap. exists (r, p).
        split; [done|]. by eapply list_elem_of_lookup_2. }
      by rewrite (Hnone s1 Hinv1 eq_refl), (Hnone s2 Hinv2 (eq_sym Htasks)). }
  split_and!; try done.
  - destruct (app s1) as [t1 d1] eqn:Ha1, (app s2) as [t2 d2] eqn:Ha2.
    pose proof (inv_stamp _ _ _ _ Hinv1) as Hs1.
    pose proof (inv_stamp _ _ _ _ Hinv2) as Hs2.
    pose proof (inv_db _ _ _ _ Hinv1) as Hd1.
    pose proof (inv_db _ _ _ _ Hinv2) as Hd2.
    rewrite Ha1 in Hs1, Hd1. rewrite Ha2 in Hs2, Hd2. simpl in *.
    subst t1 t2 d1 d2. f_equal. rewrite !wallets_foldl_perform. f_equal.
    apply list_fmap_ext. intros i w Hw. apply list_elem_of_lookup_2 in Hw.
    unfold settle. by rewrite (Hwritten w Hw).
  - pose proof (inv_sem _ _ _ _ Hinv1) as H1.
    pose proof (inv_sem _ _ _ _ Hinv2) as H2.
    unfold holders in *. rewrite Htasks in H1. lia.
  - rewrite (trace_by_task (trace s1) (length (tasks s1))),
            (trace_by_task (trace s2) (length (tasks s1))).
    + match goal with |- ?x ≡ₚ ?y => enough (x = y) as -> by done end.
      f_equal. apply list_fmap_ext. intros _ i _.
      rewrite (filter_task_events i (trace s1)),
              (filter_task_events i (trace s2)).
      f_equal. apply (Hev i).
    + intros i e Hin. rewrite Htasks. apply lookup_lt_is_Some.
      by eapply inv_trace.
    + intros i e Hin. apply lookup_lt_is_Some. by eapply inv_trace.
Qed.

Lemma finished_scans_agree_witness :
  app Scenarios.scan_timeout
  = app (check_balances_job Scenarios.remote_timeout Scenarios.NOW
                            Scenarios.application).
Proof.
  destruct (finished_scans_agree
              Scenarios.remote_timeout Scenarios.NOW Scenarios.application
              Scenarios.moves_timeout
              [Acquire 0; Fetched 0; Sent 0; Acquire 1; Fetched 1]%nat
              Scenarios.scan_timeout
              (check_balances_job Scenarios.remote_timeout Scenarios.NOW
                                  Scenarios.application))
    as (Happ & _).
  - exact MonitorFacts.scenario_primary_key.
  - vm_compute. reflexivity.
  - apply (bool_decide_unpack _). vm_compute. exact I.
  - vm_compute. reflexivity.
  - apply (bool_decide_unpack _). vm_compute. exact I.
  - exact Happ.
Defined.

Lemma process_one_sends r result delivered :
  count is_send (process_one r result delivered)
  = match result, row_last_lamports r with
    | Some current, Some previous =>
        if bool_decide (current ≠ previous) then 1%nat else 0%nat
    | _, _ => 0%nat
    end.
Proof.
  destruct result as [current|];
    [|by rewrite MonitorFacts.process_one_failed].
  destruct (row_last_lamports r) as [previous|] eqn:Hlast.
  - destruct (decide (current = previous)) as [->|Hne].
    + rewrite MonitorFacts.process_one_unchanged by done.
      by rewrite bool_decide_eq_false_2 by (intros H; by apply H).
    + destruct (MonitorFacts.process_one_changed r previous current delivered
                  Hlast Hne) as (msg & -> & _).
      rewrite bool_decide_eq_true_2 by done. by destruct delivered.
  - by rewrite MonitorFacts.process_one_first.
Qed.

(** X10. A finished scan has sent exactly one message for each account
    whose request returned a balance other than its stored one, and none
    for any other account. *)
Theorem one_message_per_change env now a moves s :
  run env moves (start now a) = Some s → finished s →
  count is_send (trace s).*2 = changes env s ∧
  (∀ i, count is_send (events_of i s)
        = if balance_changed env s i then 1%nat else 0%nat).
Proof.
  intros Hrun Hfin.
  pose proof (MonitorFacts.invariant_reachable _ _ _ _ _ Hrun) as Hinv.
  assert (∀ i, count is_send (events_of i s)
               = if balance_changed env s i then 1%nat else 0%nat) as Hone.
  { intros i. rewrite (events_of_finished _ _ _ _ i Hinv Hfin).
    unfold balance_changed. rewrite (inv_rows _ _ _ _ Hinv).
    destruct (db_get_enabled_wallets_all_users (db a) !! i) as [r|]; [|done].
    rewrite process_one_sends.
    destruct (rpc_get_balance_lamports env i); [|done].
    by destruct (row_last_lamports r). }
  split; [|done].
  rewrite (MonitorFacts.count_by_task _ _ (length (tasks s))).
  - unfold changes.
    rewrite <- (MonitorFacts.sum_list_filter
                  (λ i, balance_changed env s i = true)).
    f_equal. apply list_fmap_ext. intros _ i _. simpl.
    fold (events_of i s). rewrite Hone.
    by destruct (balance_changed env s i).
  - intros i e Hin. apply lookup_lt_is_Some. by eapply inv_trace.
Qed.

Lemma one_message_per_change_witness :
  count is_send (trace Scenarios.scan_timeout).*2
  = changes Scenarios.remote_timeout Scenarios.scan_timeout.
Proof.
  destruct (one_message_per_change
              Scenarios.remote_timeout Scenarios.NOW Scenarios.application
              Scenarios.moves_timeout Scenarios.scan_timeout)
    as [Hcount _].
  - vm_compute. reflexivity.
  - apply (bool_decide_unpack _). vm_compute. exact I.
  - exact Hcount.
Defined.

Lemma filter_fmap_comm {A} (P : A → Prop) `{∀ x, Decision (P x)}
  (f : A → A) (l : list A) :
  (∀ x, P (f x) ↔ P x) → filter P (f <$> l) = f <$> filter P l.
Proof.
  intros Hf. induction l as [|x l IH]; [done|].
  rewrite fmap_cons, !filter_cons, IH.
  destruct (decide (P x)) as [Hx|Hx].
  - rewrite decide_True by (by apply Hf). done.
  - rewrite decide_False; [done|]. intros Hfx. by apply Hx, Hf.
Qed.

Lemma settle_fields evs w :
  w_id (settle evs w) = w_id w ∧ w_user_id (settle evs w) = w_user_id w ∧
  w_name (settle evs w) = w_name w ∧ w_address (settle evs w) = w_address w ∧
  w_enabled (settle evs w) = w_enabled w.
Proof. unfold settle. by destruct (last _). Qed.

(** X11. No second notice for the same balance: in the scan that follows a
    finished scan, an account whose request returns the balance that the
    first scan fetched for it is compared with that balance, which the
    first scan has stored, and does nothing - no write, no message. *)
Theorem rescan_of_same_balance_is_quiet
  env1 env2 now1 now2 a moves1 moves2 s1 s2 i r1 current :
  primary_key (db a) →
  run env1 moves1 (start now1 a) = Some s1 → finished s1 →
  run env2 moves2 (start now2 (app s1)) = Some s2 →
  (tasks s1).*1 !! i = Some r1 →
  rpc_get_balance_lamports env1 i = Some current →
  rpc_get_balance_lamports env2 i = Some current →
  ∃ r2, (tasks s2).*1 !! i = Some r2 ∧
        row_id r2 = row_id r1 ∧ row_user_id r2 = row_user_id r1 ∧
        row_last_lamports r2 = Some current ∧
        events_of i s2 = [].
Proof.
  intros Hpk Hrun1 Hfin1 Hrun2 Hr1 Hcur1 Hcur2.
  pose proof (MonitorFacts.invariant_reachable _ _ _ _ _ Hrun1) as Hinv1.
  pose proof (MonitorFacts.invariant_reachable _ _ _ _ _ Hrun2) as Hinv2.
  rewrite list_lookup_fmap in Hr1.
  destruct (tasks s1 !! i) as [[r p]|] eqn:Hi1; [|done].
  simpl in Hr1. injection Hr1 as ->.
  assert (p = Finished) as ->.
  { unfold finished in Hfin1. rewrite Forall_lookup in Hfin1.
    apply (Hfin1 _ _ Hi1). }
  pose proof (inv_rows _ _ _ _ Hinv1) as Hrows1.
  pose proof (inv_rows _ _ _ _ Hinv2) as Hrows2.
  unfold db_get_enabled_wallets_all_users in Hrows1, Hrows2.
  rewrite (inv_db _ _ _ _ Hinv1), wallets_foldl_perform in Hrows2.
  simpl in Hrows2.
  rewrite (filter_fmap_comm (λ w, w_enabled w = 1)) in Hrows2
    by (intros x; by destruct (settle_fields (trace s1).*2 x)
                       as (_ & _ & _ & _ & ->)).
  assert ((tasks s1).*1 !! i = Some r1) as Hl1
    by (by rewrite list_lookup_fmap, Hi1).
  rewrite Hrows1, list_lookup_fmap in Hl1.
  destruct (filter (λ w, w_enabled w = 1) (wallets (db a)) !! i)
    as [w1|] eqn:Hw1; [|done].
  simpl in Hl1. injection Hl1 as <-.
  set (w2 := settle (trace s1).*2 w1).
  assert ((tasks s2).*1 !! i = Some (row_of w2)) as Hl2.
  { rewrite Hrows2, <- list_fmap_compose, list_lookup_fmap, Hw1. done. }
  assert (w_last_lamports w2 = Some current) as Hlast2.
  { subst w2. unfold settle.
    change (w_id w1) with (row_id (row_of w1)).
    rewrite (MonitorFacts.written_trace _ _ _ _ _ _ _ Hinv1 Hpk Hi1).
    destruct (decide (row_last_lamports (row_of w1) = Some current))
      as [Hsame|Hnew].
    - pose proof (inv_tasks _ _ _ _ Hinv1 _ _ _ Hi1) as Hok. simpl in Hok.
      rewrite Hok, Hcur1, MonitorFacts.process_one_unchanged by done. done.
    - destruct (MonitorFacts.fetched_task_events _ _ _ _ _ _ _ current
                  Hinv1 Hi1 Hcur1 Hnew) as (rest & -> & Hrest).
      rewrite MonitorFacts.written_own_update; [done|].
      destruct Hrest as [[_ ->]|(previous & msg & _ & _ & ->)]; [done|].
      by destruct (send_message env1 i). }
  exists (row_of w2).
  destruct (settle_fields (trace s1).*2 w1) as (Hid & Hu & _).
  split_and!; try done.
  rewrite list_lookup_fmap in Hl2.
  destruct (tasks s2 !! i) as [[r2 p2]|] eqn:Hi2; [|done].
  simpl in Hl2. injection Hl2 as ->.
  pose proof (inv_tasks _ _ _ _ Hinv2 _ _ _ Hi2) as Hok. unfold task_ok in Hok.
  rewrite Hcur2 in Hok.
  destruct p2 as [| |msg|]; try done.
  - by rewrite MonitorFacts.on_fetch_unchanged in Hok.
  - by rewrite MonitorFacts.process_one_unchanged in Hok.
Qed.

Lemma rescan_of_same_balance_is_quiet_witness :
  ∃ r2, (tasks (check_balances_job Scenarios.remote_quiet "2026-01-01 00:00:10"
                   (app Scenarios.scan_timeout))).*1 !! 0%nat = Some r2 ∧
        row_last_lamports r2 = Some 4500000000 ∧
        events_of 0 (check_balances_job Scenarios.remote_quiet
                       "2026-01-01 00:00:10" (app Scenarios.scan_timeout)) = [].
Proof.
  destruct (rescan_of_same_balance_is_quiet
              Scenarios.remote_timeout Scenarios.remote_quiet
              Scenarios.NOW "2026-01-01 00:00:10" Scenarios.application
              Scenarios.moves_timeout
              [Acquire 0; Fetched 0; Acquire 1; Fetched 1]%nat
              Scenarios.scan_timeout
              (check_balances_job Scenarios.remote_quiet "2026-01-01 00:00:10"
                                  (app Scenarios.scan_timeout))
              0%nat (1, 100, "X", Scenarios.ADDRESS_X, Some 5000000000)
              4500000000)
    as (r2 & Hr2 & _ & _ & Hlast & Hev).
  - exact MonitorFacts.scenario_primary_key.
  - vm_compute. reflexivity.
  - apply (bool_decide_unpack _). vm_compute. exact I.
  - vm_compute. reflexivity.
  - reflexivity.
  - reflexivity.
  - reflexivity.
  - exists r2. done.
Defined.

(** X12. With no wallet whose alerts are on, the job stamps the time of the
    scan and returns: the scan has no task and no move, sends and writes
    nothing, and the table is the one it found. *)
Theorem scan_without_enabled_wallet env now a moves s :
  (∀ w, w ∈ wallets (db a) → w_enabled w ≠ 1) →
  run env moves (start now a) = Some s →
  moves = [] ∧
  s = mkScan [] 8 (mkApp (Some now) (db a)) [] ∧
  check_balances_job env now a = s.
Proof.
  intros Hoff Hrun.
  assert (start now a = mkScan [] 8 (mkApp (Some now) (db a)) []) as Hstart.
  { unfold start, db_get_enabled_wallets_all_users. simpl.
    rewrite (MonitorFacts.filter_Forall_not (λ w, w_enabled w = 1));
      [done|].
    apply Forall_forall. exact Hoff. }
  unfold check_balances_job. rewrite Hstart in Hrun |- *.
  destruct moves as [|m moves].
  - simpl in Hrun. injection Hrun as <-. done.
  - simpl in Hrun. by destruct m.
Qed.

Lemma scan_without_enabled_wallet_witness :
  check_balances_job Scenarios.remote_quiet Scenarios.NOW (mkApp None empty_db)
  = mkScan [] 8 (mkApp (Some Scenarios.NOW) empty_db) [].
Proof.
  destruct (scan_without_enabled_wallet
              Scenarios.remote_quiet Scenarios.NOW (mkApp None empty_db) []
              (mkScan [] 8 (mkApp (Some Scenarios.NOW) empty_db) []))
    as (_ & _ & Hjob).
  - intros w Hw. simpl in Hw. by apply elem_of_nil in Hw.
  - reflexivity.
  - exact Hjob.
Defined.

End MonitorExtras.

(** ** Text, screens and handlers *)

Module TextFacts.
Import Text.

#[local] Abbreviation chars := String.list_ascii_of_string.

Lemma digit_of_char (d : N) :
  (d < 10)%N →
  digit_value (pretty_N_char d) = Some (Z.of_N d) ∧
  is_space (pretty_N_char d) = false.
Proof.
  intros Hd.
  assert (d = 0 ∨ d = 1 ∨ d = 2 ∨ d = 3 ∨ d = 4 ∨ d = 5 ∨ d = 6 ∨ d = 7
          ∨ d = 8 ∨ d = 9)%N as Hcases by lia.
  repeat (destruct Hcases as [->|Hcases]; [by vm_compute|]).
  subst d. by vm_compute.
Qed.

(** The digits that [pretty] puts before [s] are read back by [int]. *)
Lemma int_digits_pretty (x : N) (s : string) :
  (0 < x)%N →
  ∃ k, ∀ acc b,
    int_digits acc b (chars (pretty_N_go x s))
    = int_digits (acc * 10 ^ k + Z.of_N x) true (chars s) ∧ 0 ≤ k.
Proof.
  revert s. induction (N.lt_wf_0 x) as [x _ IH]. intros s Hx.
  rewrite pretty_N_go_step by done.
  assert (x `mod` 10 < 10)%N as Hd by (apply N.mod_lt; lia).
  destruct (digit_of_char _ Hd) as [Hdigit _].
  destruct (decide (x `div` 10 = 0)%N) as [Hz|Hnz].
  - rewrite Hz, pretty_N_go_0. exists 1. intros acc b. split; [|lia].
    simpl. rewrite Hdigit. f_equal.
    assert (x = x `mod` 10)%N as Hx'.
    { rewrite (N.div_mod x 10) at 1 by lia. rewrite Hz. lia. }
    rewrite <- Hx'. lia.
  - destruct (IH (x `div` 10)%N) with (s := String (pretty_N_char (x `mod` 10)) s)
      as [k Hk].
    + apply N.div_lt; lia.
    + by apply N.neq_0_lt_0.
    + exists (k + 1). intros acc b. destruct (Hk acc b) as [-> Hk0].
      split; [|lia]. simpl. rewrite Hdigit. f_equal.
      rewrite Z.pow_add_r by lia.
      pose proof (N.div_mod x 10 ltac:(lia)) as Hdm.
      assert (Z.of_N x = 10 * Z.of_N (x `div` 10) + Z.of_N (x `mod` 10))
        as -> by lia.
      lia.
Qed.

Lemma pretty_head (x : N) (s : string) :
  (0 < x)%N →
  ∃ c rest, chars (pretty_N_go x s) = c :: rest ∧
            is_Some (digit_value c).
Proof.
  revert s. induction (N.lt_wf_0 x) as [x _ IH]. intros s Hx.
  rewrite pretty_N_go_step by done.
  assert (x `mod` 10 < 10)%N as Hd by (apply N.mod_lt; lia).
  destruct (digit_of_char _ Hd) as [Hdigit _].
  destruct (decide (x `div` 10 = 0)%N) as [Hz|Hnz].
  - rewrite Hz, pretty_N_go_0. simpl. eexists _, _. split; [done|].
    by rewrite Hdigit.
  - apply IH; [apply N.div_lt; lia | by apply N.neq_0_lt_0].
Qed.

Lemma pretty_no_space (x : N) (s : string) :
  Forall (λ c, is_space c = false) (chars s) →
  Forall (λ c, is_space c = false) (chars (pretty_N_go x s)).
Proof.
  revert s. induction (N.lt_wf_0 x) as [x _ IH]. intros s Hs.
  destruct (decide (0 < x)%N) as [Hx|Hx].
  - rewrite pretty_N_go_step by done.
    apply IH; [apply N.div_lt; lia|].
    simpl. apply Forall_cons. split; [|done].
    apply digit_of_char, N.mod_lt. lia.
  - assert (x = 0%N) as -> by lia. by rewrite pretty_N_go_0.
Qed.

Lemma lstrip_no_space l :
  Forall (λ c, is_space c = false) l → lstrip l = l.
Proof. destruct 1 as [|c l Hc _]; [done|]. simpl. by rewrite Hc. Qed.

Lemma strip_no_space s :
  Forall (λ c, is_space c = false) (chars s) → strip s = s.
Proof.
  intros Hs. unfold strip. rewrite (lstrip_no_space _ Hs).
  rewrite lstrip_no_space by (by apply Forall_rev).
  by rewrite rev_involutive, String.string_of_list_ascii_of_string.
Qed.

Lemma int_digits_pretty_pos (p : positive) :
  int_digits 0 false (chars (pretty (N.pos p))) = Some (Z.pos p) ∧
  Forall (λ c, is_space c = false) (chars (pretty (N.pos p))) ∧
  ∃ c rest, chars (pretty (N.pos p)) = c :: rest ∧ is_Some (digit_value c).
Proof.
  assert (pretty (N.pos p) = pretty_N_go (N.pos p) "") as ->.
  { unfold pretty, pretty_N. by rewrite decide_False. }
  pose proof (pretty_no_space (N.pos p) "" (Forall_nil_2 _)) as Hns.
  destruct (pretty_head (N.pos p) "" ltac:(lia)) as (c & rest & Hc & Hdig).
  split_and!; [|done|eauto].
  destruct (int_digits_pretty (N.pos p) "" ltac:(lia)) as [k Hk].
  destruct (Hk 0 false) as [-> _]. simpl. f_equal; lia.
Qed.

(** [int(str(n)) == n]: the decimal text of an integer is read back as
    that integer. *)
Lemma python_int_str (n : Z) : python_int (str n) = Some n.
Proof.
  destruct n as [|p|p]; [by vm_compute| |];
    destruct (int_digits_pretty_pos p) as (Hint & Hns & c & rest & Hc & [v Hv]).
  - change (str (Z.pos p)) with (pretty (N.pos p)).
    unfold python_int. rewrite (strip_no_space _ Hns).
    rewrite Hc in Hint |- *.
    destruct (decide (c = "-"%char)) as [->|Hminus]; [by vm_compute in Hv|].
    destruct (decide (c = "+"%char)) as [->|Hplus]; [by vm_compute in Hv|].
    destruct c as [[] [] [] [] [] [] [] []]; try done.
  - change (str (Z.neg p)) with ("-" +:+ pretty (N.pos p)).
    unfold python_int. rewrite strip_no_space.
    + change (chars ("-" +:+ pretty (N.pos p)))
        with ("-"%char :: chars (pretty (N.pos p))).
      lazy iota. by rewrite Hint.
    + change (chars ("-" +:+ pretty (N.pos p)))
        with ("-"%char :: chars (pretty (N.pos p))).
      apply Forall_cons. split; [done|]. done.
Qed.

(** Callback data made of a prefix and a number are read back. *)
Lemma after_colon_prefix (prefix rest : string) :
  after_colon prefix = Some "" → after_colon (prefix +:+ rest) = Some rest.
Proof.
  induction prefix as [|c prefix IH]; [done|]. simpl.
  destruct (bool_decide (c = ":"%char)).
  - intros [= ->]. done.
  - apply IH.
Qed.

Lemma startswith_prefix (prefix rest : string) :
  startswith (prefix +:+ rest) prefix = true.
Proof.
  unfold startswith. induction prefix as [|c prefix IH]; simpl.
  - by destruct rest.
  - by destruct (Ascii.ascii_dec c c).
Qed.

Lemma base58_byte c :
  is_base58 c = true →
  is_space c = false ∧ (49 ≤ N_of_ascii c ≤ 122)%N ∧
  c ≠ "0"%char ∧ c ≠ "O"%char ∧ c ≠ "I"%char ∧ c ≠ "l"%char.
Proof.
  destruct c as [[] [] [] [] [] [] [] []]; vm_compute; intros H;
    try discriminate H; split_and!; try done; lia.
Qed.

Lemma space_first_base58 l :
  Forall (λ c, is_base58 c = true) l → space_first l = 0%nat.
Proof.
  destruct 1 as [|b1 l H1 Hl]; [done|]. simpl.
  destruct (base58_byte _ H1) as (-> & Hb1 & _).
  assert (∀ n, (122 < n)%N → byte_is b1 n = false) as Hbyte.
  { intros n Hn. unfold byte_is. apply N.eqb_neq. lia. }
  destruct l as [|b2 l]; [done|].
  unfold is_space2. rewrite Hbyte by lia. simpl.
  destruct l as [|b3 l]; [done|].
  unfold is_space3. rewrite !Hbyte by lia. done.
Qed.

Lemma space_last_base58 l :
  Forall (λ c, is_base58 c = true) l → space_last l = 0%nat.
Proof.
  destruct 1 as [|b1 l H1 Hl]; [done|]. simpl.
  destruct (base58_byte _ H1) as (-> & Hb1 & _).
  destruct Hl as [|b2 l H2 Hl]; [done|].
  destruct (base58_byte _ H2) as (_ & Hb2 & _).
  assert (∀ b n, (49 ≤ N_of_ascii b ≤ 122)%N → (122 < n)%N →
                 byte_is b n = false) as Hbyte.
  { intros b n Hb Hn. unfold byte_is. apply N.eqb_neq. lia. }
  unfold is_space2. rewrite (Hbyte b2) by (done || lia). simpl.
  destruct Hl as [|b3 l H3 Hl]; [done|].
  destruct (base58_byte _ H3) as (_ & Hb3 & _).
  unfold is_space3. rewrite !(Hbyte b3) by (done || lia). done.
Qed.

Lemma strip_go_fixed width fuel l :
  width l = 0%nat → strip_go width fuel l = l.
Proof. intros H. destruct fuel; [done|]. simpl. by rewrite H. Qed.

Lemma strip_text_base58 s :
  Forall (λ c, is_base58 c = true) (chars s) → strip_text s = s.
Proof.
  intros Hs. unfold strip_text.
  rewrite (strip_go_fixed space_first) by (by apply space_first_base58).
  rewrite (strip_go_fixed space_last)
    by (by apply space_last_base58, Forall_rev).
  by rewrite rev_involutive, String.string_of_list_ascii_of_string.
Qed.

Lemma length_chars s : length (chars s) = String.length s.
Proof. induction s as [|c s IH]; [done|]. simpl. by rewrite IH. Qed.

(** X13. An address that is_probably_solana_address accepts is, once
    stripped, 32 to 44 characters of the base58 alphabet: ASCII only (so
    its characters are its bytes), with no 0, O, I or l and no whitespace;
    the stripped address is accepted too and stripping it again changes
    nothing. *)
Theorem accepted_address_is_base58 (addr : string) :
  is_probably_solana_address addr = true →
  let a := strip_text addr in
  Forall (λ c, is_base58 c = true ∧ is_space c = false ∧ c ≠ "0"%char
               ∧ c ≠ "O"%char ∧ c ≠ "I"%char ∧ c ≠ "l"%char) (chars a) ∧
  (32 ≤ String.length a ≤ 44)%nat ∧
  py_len a = Z.of_nat (String.length a) ∧
  strip_text a = a ∧
  is_probably_solana_address a = true.
Proof.
  intros Hok a. unfold is_probably_solana_address in Hok. fold a in Hok.
  apply andb_true_iff in Hok as [Hok Hmax].
  apply andb_true_iff in Hok as [Hall Hmin].
  apply Nat.leb_le in Hmin, Hmax. rewrite length_chars in Hmin, Hmax.
  apply Is_true_true_2, forallb_True in Hall.
  assert (Forall (λ c, is_base58 c = true) (chars a)) as Hb58.
  { eapply Forall_impl; [exact Hall|]. intros c Hc. by apply Is_true_true_1. }
  pose proof (strip_text_base58 a Hb58) as Hstrip.
  split_and!; try done.
  - eapply Forall_impl; [exact Hb58|]. intros c Hc.
    destruct (base58_byte c Hc) as (? & _ & ? & ? & ? & ?). done.
  - unfold py_len. rewrite <- length_chars. f_equal.
    f_equal. apply RegistryExtras.fmap_id_on_filter.
    eapply Forall_impl; [exact Hb58|]. intros c Hc.
    destruct (base58_byte c Hc) as (_ & Hrange & _).
    unfold is_continuation. apply andb_false_iff. left.
    apply N.leb_gt. lia.
  - unfold is_probably_solana_address. rewrite Hstrip. fold a.
    rewrite length_chars.
    apply andb_true_iff. split; [apply andb_true_iff; split|].
    + by apply Is_true_true_1, forallb_True.
    + by apply Nat.leb_le.
    + by apply Nat.leb_le.
Qed.

Lemma accepted_address_is_base58_witness :
  (32 ≤ String.length (strip_text "  4Nd1mYQFPHxMiSC9voV7GWnrZ3BCcFRwDq3kG1J5nXTe ")
   ≤ 44)%nat.
Proof.
  destruct (accepted_address_is_base58
              "  4Nd1mYQFPHxMiSC9voV7GWnrZ3BCcFRwDq3kG1J5nXTe ")
    as (_ & Hlen & _).
  - vm_compute. reflexivity.
  - exact Hlen.
Defined.

(** X14. An address that is_probably_solana_address accepts is never shown
    in full: truncate_addr renders it as its first four characters, an
    ellipsis and its last four. *)
Theorem accepted_address_is_shortened (addr : string) :
  is_probably_solana_address addr = true →
  let a := strip_text addr in
  truncate_addr a
  = String.substring 0 4 a +:+ "…"
      +:+ String.substring (String.length a - 4) 4 a.
Proof.
  intros Hok a. unfold is_probably_solana_address in Hok. fold a in Hok.
  apply andb_true_iff in Hok as [Hok _].
  apply andb_true_iff in Hok as [Hall Hmin].
  apply Nat.leb_le in Hmin. rewrite length_chars in Hmin.
  apply Is_true_true_2, forallb_True in Hall.
  unfold truncate_addr. rewrite strip_no_space.
  - destruct (String.length a <=? 10)%nat eqn:Hlen; [|done].
    apply Nat.leb_le in Hlen. lia.
  - eapply Forall_impl; [exact Hall|]. intros c Hc.
    by apply base58_byte, Is_true_true_1.
Qed.

Lemma accepted_address_is_shortened_witness :
  truncate_addr (strip_text " 4Nd1mYQFPHxMiSC9voV7GWnrZ3BCcFRwDq3kG1J5nXTe")
  = "4Nd1…nXTe".
Proof.
  rewrite (accepted_address_is_shortened
             " 4Nd1mYQFPHxMiSC9voV7GWnrZ3BCcFRwDq3kG1J5nXTe").
  - vm_compute. reflexivity.
  - vm_compute. reflexivity.
Defined.

End TextFacts.

(** ** The wallets screen *)

Module ScreensFacts.
Import Registry Text Screens.

Lemma pages_bounds (total per_page : Z) :
  0 < per_page → 0 < total →
  1 ≤ (total + per_page - 1) / per_page ∧
  ((total + per_page - 1) / per_page - 1) * per_page < total
    ≤ (total + per_page - 1) / per_page * per_page.
Proof.
  intros Hp Ht.
  pose proof (Z.mul_div_le (total + per_page - 1) per_page Hp).
  pose proof (Z.mul_succ_div_gt (total + per_page - 1) per_page Hp).
  nia.
Qed.

Lemma page_count_nonempty (rows : list WalletRow) per_page :
  0 < per_page → rows ≠ [] →
  page_count rows per_page
  = (Z.of_nat (length rows) + per_page - 1) / per_page.
Proof.
  intros Hp Hrows. unfold page_count.
  assert (0 < Z.of_nat (length rows)) as Ht by (destruct rows; [done|simpl; lia]).
  destruct (pages_bounds _ _ Hp Ht) as [H1 _]. lia.
Qed.

Lemma page_shown_range (rows : list WalletRow) page per_page :
  0 ≤ page_shown rows page per_page < page_count rows per_page.
Proof. unfold page_shown, page_count. lia. Qed.

Lemma length_page_rows (rows : list WalletRow) p per_page :
  0 < per_page → 0 ≤ p →
  Z.of_nat (length (page_rows rows p per_page))
  = Z.max 0 (Z.min per_page (Z.of_nat (length rows) - p * per_page)).
Proof.
  intros Hp H0. unfold page_rows, slice.
  rewrite length_take, length_drop.
  replace (p * per_page + per_page - p * per_page) with per_page by lia.
  assert (0 ≤ p * per_page) by nia. lia.
Qed.

(** X15. For a user with wallets, the text and the keyboard of the wallets
    screen show the same page: its number is between 1 and the number of
    pages whatever page was asked for, it holds between 1 and per_page
    wallets, and the keyboard has the toggle and remove buttons of exactly
    the wallets the text lists, in the same order, followed by the
    navigation row and the way back. *)
Theorem text_and_keyboard_agree (rows : list WalletRow) (page per_page : Z) :
  0 < per_page → rows ≠ [] →
  let p := page_shown rows page per_page in
  let chunk := page_rows rows p per_page in
  0 ≤ p < page_count rows per_page ∧
  (1 ≤ Z.of_nat (length chunk) ≤ per_page) ∧
  wallets_screen_text rows page per_page
  = WalletsPage (p + 1) (page_count rows per_page) (wallet_line <$> chunk) ∧
  ∃ nav, wallets_screen_keyboard rows page per_page
         = (wallet_buttons <$> chunk)
             ++ [nav; [mkButton "🏠 Back to Dashboard" CB_BACK_MENU]].
Proof.
  intros Hp Hrows p chunk.
  assert (0 < Z.of_nat (length rows)) as Ht by (destruct rows; [done|simpl; lia]).
  pose proof (page_shown_range rows page per_page) as Hrange. fold p in Hrange.
  pose proof (page_count_nonempty rows per_page Hp Hrows) as Hcount.
  destruct (pages_bounds _ _ Hp Ht) as (_ & Hlow & _).
  rewrite <- Hcount in Hlow.
  split_and!; try lia.
  - unfold chunk. rewrite length_page_rows by lia. nia.
  - unfold chunk. rewrite length_page_rows by lia. lia.
  - unfold wallets_screen_text. rewrite decide_False by lia.
    rewrite <- Hcount. reflexivity.
  - eexists. reflexivity.
Qed.

Lemma text_and_keyboard_agree_witness :
  wallets_screen_text (db_get_wallets 100 Scenarios.registry) 5 PER_PAGE
  = WalletsPage 1 1
      (wallet_line <$> page_rows (db_get_wallets 100 Scenarios.registry) 0
                                 PER_PAGE).
Proof.
  destruct (text_and_keyboard_agree (db_get_wallets 100 Scenarios.registry)
                                    5 PER_PAGE) as (_ & _ & Htext & _).
  - reflexivity.
  - vm_compute. discriminate.
  - exact Htext.
Defined.

Lemma pages_up_to (rows : list WalletRow) (k n : nat) :
  mjoin ((λ p, page_rows rows (Z.of_nat p) (Z.of_nat k)) <$> seq 0 n)
  = take (n * k) rows.
Proof.
  induction n as [|n IH]; [done|].
  rewrite seq_S, fmap_app, join_app, IH. simpl. rewrite app_nil_r.
  unfold page_rows, slice.
  replace (Z.to_nat (Z.of_nat n * Z.of_nat k + Z.of_nat k
                     - Z.of_nat n * Z.of_nat k)) with k by lia.
  replace (Z.to_nat (Z.of_nat n * Z.of_nat k)) with (n * k)%nat by lia.
  rewrite take_take_drop. f_equal. lia.
Qed.

(** X16. The pages of the wallets screen partition the list: the pages
    0 to pages - 1, one after the other, are the wallets of db_get_wallets,
    each once and in its order, so every wallet is on exactly one page that
    the navigation reaches. *)
Theorem pages_partition_rows (rows : list WalletRow) (per_page : Z) :
  0 < per_page →
  mjoin ((λ p, page_rows rows (Z.of_nat p) per_page)
           <$> seq 0 (Z.to_nat (page_count rows per_page)))
  = rows.
Proof.
  intros Hp.
  pose proof (pages_up_to rows (Z.to_nat per_page)
                (Z.to_nat (page_count rows per_page))) as Hjoin.
  rewrite Z2Nat.id in Hjoin by lia. rewrite Hjoin. apply take_ge.
  destruct rows as [|r rows]; [simpl; lia|].
  rewrite page_count_nonempty by done.
  assert (0 < Z.of_nat (length (r :: rows))) as Ht by (simpl; lia).
  destruct (pages_bounds _ _ Hp Ht) as (H1 & _ & Hup).
  nia.
Qed.

Lemma pages_partition_rows_witness :
  mjoin ((λ p, page_rows (db_get_wallets 100 Scenarios.registry)
                         (Z.of_nat p) PER_PAGE)
           <$> seq 0 (Z.to_nat (page_count
                                  (db_get_wallets 100 Scenarios.registry)
                                  PER_PAGE)))
  = db_get_wallets 100 Scenarios.registry.
Proof. apply (pages_partition_rows _ PER_PAGE). reflexivity. Defined.

End ScreensFacts.

(** ** The handlers *)

Module HandlersFacts.
Import Registry Text Screens Handlers.

(** *** The listing of db_get_wallets *)

Lemma id_desc_transitive : Transitive id_desc.
Proof. intros a b c. unfold id_desc. lia. Qed.

Lemma id_desc_total : Total id_desc.
Proof. intros a b. unfold id_desc. lia. Qed.

Lemma listing_sorted (l : list Wallet) :
  StronglySorted id_desc (merge_sort id_desc l).
Proof.
  apply StronglySorted_merge_sort;
    [apply id_desc_transitive|apply id_desc_total].
Qed.

(** With ids that are a key, ORDER BY id DESC fixes the order. *)
Lemma listing_unique (l1 l2 : list Wallet) :
  NoDup (w_id <$> l1) → l1 ≡ₚ l2 →
  StronglySorted id_desc l1 → StronglySorted id_desc l2 → l1 = l2.
Proof.
  intros Hnd Hp H1 H2. apply (StronglySorted_unique_strong id_desc); try done.
  intros x1 x2 Hx1 Hx2 Ha Hb.
  apply (RegistryExtras.same_key_same_row w_id l1 x2 x1); try done.
  - by rewrite Hp.
  - unfold id_desc in *. lia.
Qed.

Lemma sorted_is (l l' : list Wallet) :
  NoDup (w_id <$> l) → l' ≡ₚ l → StronglySorted id_desc l' →
  merge_sort id_desc l = l'.
Proof.
  intros Hnd Hp Hs. apply listing_unique.
  - by rewrite merge_sort_Permutation.
  - by rewrite merge_sort_Permutation.
  - apply listing_sorted.
  - done.
Qed.

Lemma StronglySorted_filter_id (P : Wallet → Prop) `{∀ x, Decision (P x)} l :
  StronglySorted id_desc l → StronglySorted id_desc (filter P l).
Proof.
  induction 1 as [|x l Hl IH Hx]; [constructor|].
  rewrite filter_cons. destruct (decide (P x)); [|done].
  constructor; [done|]. rewrite Forall_forall in Hx |- *. intros y Hy.
  apply list_elem_of_filter in Hy as [_ Hy]. by apply Hx.
Qed.

Lemma filter_of_fmap {A B} (f : A → B) (P : B → Prop) `{∀ x, Decision (P x)}
  (l : list A) :
  filter P (f <$> l) = f <$> filter (λ x, P (f x)) l.
Proof.
  induction l as [|x l IH]; [done|].
  rewrite fmap_cons, !filter_cons, IH. by destruct (decide (P (f x))).
Qed.

Lemma elem_of_db_get_wallets r u d :
  r ∈ db_get_wallets u d
  ↔ ∃ w, w ∈ wallets d ∧ w_user_id w = u ∧ r = wallet_row_of w.
Proof.
  unfold db_get_wallets. rewrite list_elem_of_fmap.
  split; intros (w & H1 & H2); exists w.
  - rewrite merge_sort_Permutation in H2.
    apply list_elem_of_filter in H2 as [? ?]. done.
  - destruct H2 as [Hu ->]. split; [done|].
    rewrite merge_sort_Permutation. by apply list_elem_of_filter.
Qed.

(** The listing after an update of columns that are not the id or the
    owner. *)
Lemma db_get_wallets_fmap (f : Wallet → Wallet) u d :
  NoDup (w_id <$> wallets d) →
  (∀ w, w_id (f w) = w_id w) → (∀ w, w_user_id (f w) = w_user_id w) →
  merge_sort id_desc (filter (λ w, w_user_id w = u) (f <$> wallets d))
  = f <$> merge_sort id_desc (filter (λ w, w_user_id w = u) (wallets d)).
Proof.
  intros Hnd Hid Hu.
  rewrite MonitorExtras.filter_fmap_comm by (intros w; by rewrite Hu).
  apply sorted_is.
  - rewrite RegistryFacts.fmap_update_key by done.
    by apply RegistryFacts.NoDup_fmap_filter.
  - by rewrite merge_sort_Permutation.
  - eapply StronglySorted_fmap; [|apply listing_sorted].
    intros x y. unfold id_desc. by rewrite !Hid.
Qed.

Lemma db_get_wallets_filter (Q : Wallet → Prop) `{∀ x, Decision (Q x)} u l :
  NoDup (w_id <$> l) →
  merge_sort id_desc (filter (λ w, w_user_id w = u) (filter Q l))
  = filter Q (merge_sort id_desc (filter (λ w, w_user_id w = u) l)).
Proof.
  intros Hnd. apply sorted_is.
  - by do 2 apply RegistryFacts.NoDup_fmap_filter.
  - rewrite merge_sort_Permutation.
    rewrite !list_filter_filter.
    apply NoDup_Permutation.
    + apply NoDup_filter. eapply NoDup_fmap_1. exact Hnd.
    + apply NoDup_filter. eapply NoDup_fmap_1. exact Hnd.
    + intros x. rewrite !list_elem_of_filter. tauto.
  - apply StronglySorted_filter_id, listing_sorted.
Qed.

Lemma db_get_wallets_snoc u (l : list Wallet) (x : Wallet) :
  NoDup (w_id <$> l) → Forall (λ w, w_id w < w_id x) l → w_user_id x = u →
  merge_sort id_desc (filter (λ w, w_user_id w = u) (l ++ [x]))
  = x :: merge_sort id_desc (filter (λ w, w_user_id w = u) l).
Proof.
  intros Hnd Hlt Hu. apply sorted_is.
  - apply RegistryFacts.NoDup_fmap_filter. rewrite fmap_app.
    apply NoDup_app. split; [done|]. split; [|apply NoDup_singleton].
    intros i Hi Hi'. apply list_elem_of_singleton in Hi'. subst i.
    apply list_elem_of_fmap in Hi as (y & Hy & Hin).
    rewrite Forall_forall in Hlt. specialize (Hlt y Hin). lia.
  - rewrite filter_app, filter_cons, filter_nil, decide_True by done.
    rewrite merge_sort_Permutation. by rewrite Permutation_app_comm.
  - constructor; [apply listing_sorted|].
    rewrite Forall_forall. intros y Hy.
    rewrite merge_sort_Permutation in Hy.
    apply list_elem_of_filter in Hy as [_ Hy].
    rewrite Forall_forall in Hlt. specialize (Hlt y Hy).
    unfold id_desc. lia.
Qed.

(** *** Callback data *)

Lemma callback_int_str (prefix : string) (n : Z) :
  after_colon prefix = Some "" → callback_int (prefix +:+ str n) = Some n.
Proof.
  intros Hp. unfold callback_int.
  rewrite (TextFacts.after_colon_prefix _ _ Hp). simpl.
  apply TextFacts.python_int_str.
Qed.

Ltac other_key :=
  match goal with
  | |- context [decide (?a = ?b)] =>
      destruct (decide (a = b)) as [Heq|_]; [by cbv in Heq|]
  end.

Lemma menu_click_page (s : string) u d :
  menu_click (CB_WALLETS_PAGE_PREFIX +:+ s) u d
  = page ← callback_int (CB_WALLETS_PAGE_PREFIX +:+ s);
    Some (mkOutcome d [] (Some (show_wallets u page d)) END).
Proof.
  unfold menu_click. do 4 other_key.
  rewrite TextFacts.startswith_prefix.
  done.
Qed.

Lemma menu_click_toggle (s : string) u d :
  menu_click (CB_TOGGLE_PREFIX +:+ s) u d
  = wallet_id ← callback_int (CB_TOGGLE_PREFIX +:+ s);
    Some (mkOutcome (db_toggle_wallet u wallet_id d).1
            [match (db_toggle_wallet u wallet_id d).2 with
             | None => MSG_NOT_FOUND
             | Some new_enabled =>
                 if decide (new_enabled = 1) then MSG_ENABLED
                 else MSG_DISABLED
             end]
            (Some (show_wallets u 0 (db_toggle_wallet u wallet_id d).1)) END).
Proof.
  unfold menu_click. do 4 other_key.
  change (startswith (CB_TOGGLE_PREFIX +:+ s) CB_WALLETS_PAGE_PREFIX)
    with false.
  do 3 other_key.
  rewrite TextFacts.startswith_prefix.
  destruct (callback_int _) as [wallet_id|]; [|done]. simpl.
  by destruct (db_toggle_wallet u wallet_id d).
Qed.

Lemma menu_click_delete (s : string) u d :
  menu_click (CB_DELETE_PREFIX +:+ s) u d
  = wallet_id ← callback_int (CB_DELETE_PREFIX +:+ s);
    Some (mkOutcome (db_delete_wallet u wallet_id d).1
            [if (db_delete_wallet u wallet_id d).2 then MSG_REMOVED
             else MSG_NOT_REMOVED]
            (Some (show_wallets u 0 (db_delete_wallet u wallet_id d).1)) END).
Proof.
  unfold menu_click. do 4 other_key.
  change (startswith (CB_DELETE_PREFIX +:+ s) CB_WALLETS_PAGE_PREFIX)
    with false.
  do 3 other_key.
  change (startswith (CB_DELETE_PREFIX +:+ s) CB_TOGGLE_PREFIX) with false.
  rewrite TextFacts.startswith_prefix.
  destruct (callback_int _) as [wallet_id|]; [|done]. done.
Qed.

(** *** The wallet buttons *)

Lemma primary_key_registry : primary_key Scenarios.registry.
Proof. apply (bool_decide_unpack _). vm_compute. exact I. Qed.

(** X17. Pressing the toggle button of a listed wallet never fails and
    never answers not-found: the reply names the new state, and the listing
    the user gets back is the old one, in the same order, with the flag of
    that wallet flipped and nothing else changed. *)
Theorem toggle_button_flips_its_wallet (u : Z) (d : DB) (r : WalletRow) :
  primary_key d → r ∈ db_get_wallets u d →
  ∃ out,
    menu_click (CB_TOGGLE_PREFIX +:+ str (wr_id r)) u d = Some out ∧
    o_replies out
    = [if decide (wr_enabled r = 1) then MSG_DISABLED else MSG_ENABLED] ∧
    db_get_wallets u (o_db out)
    = (λ r', if decide (wr_id r' = wr_id r)
             then (wr_id r', wr_name r', wr_address r',
                   (if decide (wr_enabled r = 1) then 0 else 1),
                   wr_last_lamports r')
             else r') <$> db_get_wallets u d ∧
    o_shown out = Some (show_wallets u 0 (o_db out)) ∧
    o_state out = END.
Proof.
  intros [Hnd _] Hr. apply elem_of_db_get_wallets in Hr as (x & Hx & Hu & ->).
  rewrite menu_click_toggle, callback_int_str by done.
  eexists. split; [reflexivity|].
  change (wr_id (wallet_row_of x)) with (w_id x).
  change (wr_enabled (wallet_row_of x)) with (w_enabled x).
  rewrite (RegistryExtras.toggle_found u (w_id x) d x Hnd Hx) by done.
  simpl. split_and!; try done.
  - by destruct (decide (w_enabled x = 1)).
  - unfold db_get_wallets. simpl.
    rewrite db_get_wallets_fmap; try done.
    + rewrite <- !list_fmap_compose. apply list_fmap_ext. intros i w Hw. simpl.
      apply list_elem_of_lookup_2 in Hw. rewrite merge_sort_Permutation in Hw.
      apply list_elem_of_filter in Hw as [_ Hw].
      change (wr_id (wallet_row_of w)) with (w_id w).
      destruct (decide (w = x)) as [->|Hne].
      * by destruct (decide (w_id x = w_id x)).
      * destruct (decide (w_id w = w_id x)) as [Hid|]; [|done].
        exfalso. apply Hne.
        by apply (RegistryExtras.same_key_same_row w_id (wallets d)).
    + intros w. by destruct (decide (w = x)).
    + intros w. by destruct (decide (w = x)).
Qed.

Lemma toggle_button_flips_its_wallet_witness :
  ∃ out,
    menu_click "toggle:2" 100 Scenarios.registry = Some out ∧
    o_replies out = [MSG_DISABLED] ∧
    db_get_wallets 100 (o_db out)
    = [(2, "Y", Scenarios.ADDRESS_Y, 0, Some 1000000000);
       (1, "X", Scenarios.ADDRESS_X, 1, Some 5000000000)].
Proof.
  destruct (toggle_button_flips_its_wallet 100 Scenarios.registry
              (2, "Y", Scenarios.ADDRESS_Y, 1, Some 1000000000))
    as (out & Hclick & Hreply & Hlist & _).
  - exact primary_key_registry.
  - apply (bool_decide_unpack _). vm_compute. exact I.
  - exists out. split; [exact Hclick|]. split; [exact Hreply|]. exact Hlist.
Defined.

(** X18. Pressing the remove button of a listed wallet never fails: the
    reply is the removed message and the listing the user gets back is the
    old one without that wallet, the others in their order. *)
Theorem delete_button_removes_its_wallet (u : Z) (d : DB) (r : WalletRow) :
  primary_key d → r ∈ db_get_wallets u d →
  ∃ out,
    menu_click (CB_DELETE_PREFIX +:+ str (wr_id r)) u d = Some out ∧
    o_replies out = [MSG_REMOVED] ∧
    db_get_wallets u (o_db out)
    = filter (λ r', wr_id r' ≠ wr_id r) (db_get_wallets u d) ∧
    o_shown out = Some (show_wallets u 0 (o_db out)) ∧
    o_state out = END.
Proof.
  intros [Hnd _] Hr. apply elem_of_db_get_wallets in Hr as (x & Hx & Hu & ->).
  rewrite menu_click_delete, callback_int_str by done.
  eexists. split; [reflexivity|].
  change (wr_id (wallet_row_of x)) with (w_id x).
  simpl. split_and!; try done.
  - rewrite bool_decide_eq_true_2; [done|].
    assert (x ∈ filter (owned_by u (w_id x)) (wallets d)) as Hin
      by (by apply list_elem_of_filter).
    destruct (filter _ _); [by apply elem_of_nil in Hin|simpl; lia].
  - unfold db_get_wallets. simpl.
    rewrite filter_of_fmap. f_equal.
    rewrite <- (db_get_wallets_filter (λ w, w_id w ≠ w_id x)) by done.
    f_equal. rewrite !list_filter_filter. apply list_filter_iff.
    intros w. unfold owned_by. tauto.
Qed.

Lemma delete_button_removes_its_wallet_witness :
  ∃ out,
    menu_click "delete:2" 100 Scenarios.registry = Some out ∧
    o_replies out = [MSG_REMOVED] ∧
    db_get_wallets 100 (o_db out)
    = [(1, "X", Scenarios.ADDRESS_X, 1, Some 5000000000)].
Proof.
  destruct (delete_button_removes_its_wallet 100 Scenarios.registry
              (2, "Y", Scenarios.ADDRESS_Y, 1, Some 1000000000))
    as (out & Hclick & Hreply & Hlist & _).
  - exact primary_key_registry.
  - apply (bool_decide_unpack _). vm_compute. exact I.
  - exists out. split; [exact Hclick|]. split; [exact Hreply|]. exact Hlist.
Defined.

(** *** Callbacks and the wallets of other users *)

Lemma toggle_keeps_others u n d :
  filter (λ w, w_user_id w ≠ u) (wallets (db_toggle_wallet u n d).1)
  = filter (λ w, w_user_id w ≠ u) (wallets d).
Proof.
  unfold db_toggle_wallet. destruct (head _) as [row|]; simpl; [|done].
  apply RegistryExtras.filter_fmap_same.
  - intros x Hx. rewrite decide_False; [done|]. intros [_ Hu]. congruence.
  - intros x. by destruct (decide _).
Qed.

Lemma delete_keeps_others u n d :
  filter (λ w, w_user_id w ≠ u) (wallets (db_delete_wallet u n d).1)
  = filter (λ w, w_user_id w ≠ u) (wallets d).
Proof.
  simpl. apply RegistryExtras.filter_filter_same.
  intros x Hx [_ Hu]. congruence.
Qed.

Lemma listing_of_others u v d d' :
  v ≠ u →
  filter (λ w, w_user_id w ≠ u) (wallets d')
  = filter (λ w, w_user_id w ≠ u) (wallets d) →
  db_get_wallets v d' = db_get_wallets v d.
Proof.
  intros Hne Heq. unfold db_get_wallets. do 2 f_equal.
  rewrite <- (RegistryExtras.filter_filter_same
                (λ w, w_user_id w = v) (λ w, w_user_id w ≠ u) (wallets d'))
    by (intros; congruence).
  rewrite Heq. apply RegistryExtras.filter_filter_same. intros; congruence.
Qed.

(** X19. Whatever the callback data, also data no keyboard of the bot has
    ever offered, a callback query of a user leaves the rows of all other
    users as they are and in their place: the wallet it acts on is looked
    up with the id of the sender, never with one taken from the data. *)
Theorem callbacks_are_owner_scoped (data : string) (u : Z) (d : DB)
  (out : Outcome) :
  menu_click data u d = Some out →
  filter (λ w, w_user_id w ≠ u) (wallets (o_db out))
  = filter (λ w, w_user_id w ≠ u) (wallets d) ∧
  ∀ v, v ≠ u → db_get_wallets v (o_db out) = db_get_wallets v d.
Proof.
  intros Hclick.
  enough (filter (λ w, w_user_id w ≠ u) (wallets (o_db out))
          = filter (λ w, w_user_id w ≠ u) (wallets d)) as Heq.
  { split; [done|]. intros v Hv. by apply (listing_of_others u). }
  unfold menu_click in Hclick.
  repeat match type of Hclick with
         | (if decide ?P then _ else _) = _ =>
             destruct (decide P) as [_|_]
         | (if ?b then _ else _) = _ => destruct b
         | (?m ≫= _) = _ => destruct m as [n|]; simpl in Hclick
         end; try (by simplify_eq).
  - pose proof (toggle_keeps_others u n d).
    destruct (db_toggle_wallet u n d). by simplify_eq.
  - pose proof (delete_keeps_others u n d). by simplify_eq.
Qed.

Lemma callbacks_are_owner_scoped_witness :
  db_get_wallets 200 (db_delete_wallet 100 2 Scenarios.registry_two_users).1
  = db_get_wallets 200 Scenarios.registry_two_users.
Proof.
  destruct (callbacks_are_owner_scoped "delete:2" 100
              Scenarios.registry_two_users
              (mkOutcome
                 (db_delete_wallet 100 2 Scenarios.registry_two_users).1
                 [MSG_NOT_REMOVED]
                 (Some (show_wallets 100 0
                          (db_delete_wallet 100 2
                             Scenarios.registry_two_users).1))
                 END)) as [_ Hothers].
  - vm_compute. reflexivity.
  - apply (Hothers 200). lia.
Defined.

(** *** Every button of the wallets screen *)

Lemma toggle_not_page s s' :
  CB_TOGGLE_PREFIX +:+ s ≠ CB_WALLETS_PAGE_PREFIX +:+ s'.
Proof. intros H. by cbv in H. Qed.

Lemma delete_not_page s s' :
  CB_DELETE_PREFIX +:+ s ≠ CB_WALLETS_PAGE_PREFIX +:+ s'.
Proof. intros H. by cbv in H. Qed.

Lemma add_not_page s : CB_ADD ≠ CB_WALLETS_PAGE_PREFIX +:+ s.
Proof. intros H. by cbv in H. Qed.

Lemma back_not_page s : CB_BACK_MENU ≠ CB_WALLETS_PAGE_PREFIX +:+ s.
Proof. intros H. by cbv in H. Qed.

Lemma page_data_inj n m :
  CB_WALLETS_PAGE_PREFIX +:+ str n = CB_WALLETS_PAGE_PREFIX +:+ str m → n = m.
Proof.
  intros H.
  pose proof (callback_int_str CB_WALLETS_PAGE_PREFIX n eq_refl) as Hn.
  rewrite H, callback_int_str in Hn by done. by injection Hn.
Qed.

Lemma menu_click_page_str n u d :
  menu_click (CB_WALLETS_PAGE_PREFIX +:+ str n) u d
  = Some (mkOutcome d [] (Some (show_wallets u n d)) END).
Proof. by rewrite menu_click_page, callback_int_str. Qed.

(** X20. No button of the wallets screen that a user is shown makes
    menu_click raise: the callback data of each is handled.  A Prev or Next
    button asks for a page that exists, so the screen it opens is that
    page and not one the clamping has put in its place. *)
Theorem every_button_is_handled (u : Z) (d : DB) (page : Z)
  (row : list Button) (b : Button) :
  row ∈ wallets_screen_keyboard (db_get_wallets u d) page PER_PAGE →
  b ∈ row →
  is_Some (menu_click (callback_data b) u d) ∧
  ∀ n, callback_data b = CB_WALLETS_PAGE_PREFIX +:+ str n →
       menu_click (callback_data b) u d
       = Some (mkOutcome d [] (Some (show_wallets u n d)) END) ∧
       page_shown (db_get_wallets u d) n PER_PAGE = n.
Proof.
  set (rows := db_get_wallets u d).
  pose proof (ScreensFacts.page_shown_range rows page PER_PAGE) as Hrange.
  unfold wallets_screen_keyboard. cbv zeta.
  change (Z.max 1 ((Z.of_nat (length rows) + PER_PAGE - 1) / PER_PAGE))
    with (page_count rows PER_PAGE).
  change (Z.max 0 (Z.min page (page_count rows PER_PAGE - 1)))
    with (page_shown rows page PER_PAGE).
  set (p := page_shown rows page PER_PAGE) in *.
  intros Hrow Hb.
  apply elem_of_app in Hrow as [Hrow|Hrow];
    [|apply elem_of_app in Hrow as [Hrow|Hrow]].
  - apply list_elem_of_fmap in Hrow as (r & -> & _).
    apply elem_of_cons in Hb as [->|Hb];
      [|apply list_elem_of_singleton in Hb as ->]; simpl.
    + split.
      * by rewrite menu_click_toggle, callback_int_str.
      * intros n Hn. by destruct (toggle_not_page _ _ Hn).
    + split.
      * by rewrite menu_click_delete, callback_int_str.
      * intros n Hn. by destruct (delete_not_page _ _ Hn).
  - apply list_elem_of_singleton in Hrow as ->.
    apply elem_of_app in Hb as [Hb|Hb];
      [|apply elem_of_app in Hb as [Hb|Hb]].
    + destruct (decide (p > 0)); [|by apply elem_of_nil in Hb].
      apply list_elem_of_singleton in Hb as ->. simpl. split.
      * by rewrite menu_click_page_str.
      * intros n Hn. apply page_data_inj in Hn as <-.
        split; [apply menu_click_page_str|].
        unfold page_shown. lia.
    + apply list_elem_of_singleton in Hb as ->. simpl. split; [done|].
      intros n Hn. by destruct (add_not_page _ Hn).
    + destruct (decide (p < page_count rows PER_PAGE - 1));
        [|by apply elem_of_nil in Hb].
      apply list_elem_of_singleton in Hb as ->. simpl. split.
      * by rewrite menu_click_page_str.
      * intros n Hn. apply page_data_inj in Hn as <-.
        split; [apply menu_click_page_str|].
        unfold page_shown. lia.
  - apply list_elem_of_singleton in Hrow as ->.
    apply list_elem_of_singleton in Hb as ->. simpl. split; [done|].
    intros n Hn. by destruct (back_not_page _ Hn).
Qed.

Lemma every_button_is_handled_witness :
  is_Some (menu_click "toggle:2" 100 Scenarios.registry).
Proof.
  apply (every_button_is_handled 100 Scenarios.registry 0
           [mkButton "🔔 Toggle — Y" "toggle:2";
            mkButton "🗑 Remove — Y" "delete:2"]
           (mkButton "🔔 Toggle — Y" "toggle:2")).
  - apply (list_elem_of_lookup_2 _ 0%nat). vm_compute. reflexivity.
  - apply (list_elem_of_lookup_2 _ 0%nat). vm_compute. reflexivity.
Defined.

(** *** The add-wallet dialogue *)

Lemma add_wallet_address_fresh text u ud fetched d :
  primary_key d →
  is_probably_solana_address (strip_text text) = true →
  (u, strip_text text) ∉ owner_address <$> wallets d →
  add_wallet_address (Some text) u ud fetched d
  = (delete "new_wallet_name" ud,
     mkOutcome
       (mkDB (wallets d
                ++ [mkWallet (autoincrement d + 1) u
                             (default "Wallet" (ud !! "new_wallet_name"))
                             (strip_text text) 1 fetched])
             (autoincrement d + 1))
       [MSG_SAVED] (Some MainMenu) END).
Proof.
  intros [Hnd Hle] Hok Hfresh. unfold add_wallet_address. simpl.
  rewrite Hok. simpl. unfold db_add_wallet. rewrite decide_False by done.
  destruct fetched as [lamports|]; [|done].
  assert (Forall (λ w, w_id w < autoincrement d + 1) (wallets d)) as Hlt.
  { eapply Forall_impl; [exact Hle|]. simpl. intros; lia. }
  unfold db_get_wallets. simpl.
  rewrite db_get_wallets_snoc by done.
  rewrite fmap_cons, filter_cons. simpl.
  rewrite decide_True by done. simpl.
  unfold db_update_last_lamports. simpl.
  rewrite fmap_app. simpl. rewrite decide_True by done.
  rewrite RegistryExtras.fmap_id_on; [done|].
  intros w Hw. rewrite decide_False; [done|].
  rewrite Forall_forall in Hlt. specialize (Hlt w Hw). simpl in Hlt.
  unfold wr_id, wallet_row_of. simpl. lia.
Qed.

(** X21. A valid address that the user has not saved yet is added as one
    new row: its alerts are on, its id is new, and its stored balance is the
    balance fetched at that moment, or none when the request failed.  It
    is the first entry of the owner's listing, the monitor reads it after
    the rows it already had, and no other row has changed. *)
Theorem added_wallet_is_listed_first (text : string) (u : Z)
  (ud : gmap string string) (fetched : option Z) (d : DB) :
  primary_key d →
  is_probably_solana_address (strip_text text) = true →
  (u, strip_text text) ∉ owner_address <$> wallets d →
  let name := default "Wallet" (ud !! "new_wallet_name") in
  let out := (add_wallet_address (Some text) u ud fetched d).2 in
  o_replies out = [MSG_SAVED] ∧
  db_get_wallets u (o_db out)
  = (autoincrement d + 1, name, strip_text text, 1, fetched)
      :: db_get_wallets u d ∧
  db_get_enabled_wallets_all_users (o_db out)
  = db_get_enabled_wallets_all_users d
      ++ [(autoincrement d + 1, u, name, strip_text text, fetched)] ∧
  (∀ v, v ≠ u → db_get_wallets v (o_db out) = db_get_wallets v d).
Proof.
  intros Hpk Hok Hfresh name out. unfold out.
  rewrite add_wallet_address_fresh by done. simpl.
  destruct Hpk as [Hnd Hle].
  assert (Forall (λ w, w_id w < autoincrement d + 1) (wallets d)) as Hlt.
  { eapply Forall_impl; [exact Hle|]. simpl. intros; lia. }
  split_and!; try done.
  - unfold db_get_wallets. simpl. by rewrite db_get_wallets_snoc.
  - unfold db_get_enabled_wallets_all_users. simpl.
    rewrite filter_app, filter_cons, filter_nil. simpl.
    by rewrite fmap_app.
  - intros v Hv. unfold db_get_wallets. simpl.
    rewrite filter_app, filter_cons, filter_nil. simpl.
    rewrite decide_False by done. by rewrite app_nil_r.
Qed.

Lemma added_wallet_is_listed_first_witness :
  db_get_wallets 200
    (o_db (add_wallet_address (Some (" " +:+ Scenarios.ADDRESS_X)) 200 ∅
                              (Some 77) Scenarios.registry).2)
  = [(3, "Wallet", Scenarios.ADDRESS_X, 1, Some 77)].
Proof.
  destruct (added_wallet_is_listed_first (" " +:+ Scenarios.ADDRESS_X) 200 ∅
              (Some 77) Scenarios.registry) as (_ & Hlist & _).
  - exact primary_key_registry.
  - vm_compute. reflexivity.
  - apply (bool_decide_unpack _). vm_compute. exact I.
  - exact Hlist.
Defined.

(** X22. Adding an address the user has already saved is answered with the
    already-saved message, yet it is not without effect: when the balance
    request succeeds, the stored balance of the wallet that is already there
    is replaced by the balance just fetched.  Nothing else changes. *)
Theorem duplicate_add_moves_the_baseline (text : string) (u : Z)
  (ud : gmap string string) (lamports : Z) (d : DB) (w : Wallet) :
  primary_key d → unique_owner_address d →
  is_probably_solana_address (strip_text text) = true →
  w ∈ wallets d → w_user_id w = u → w_address w = strip_text text →
  let out := (add_wallet_address (Some text) u ud (Some lamports) d).2 in
  o_replies out = [MSG_ALREADY_SAVED] ∧
  wallets (o_db out)
  = (λ x, if decide (x = w) then set_last_lamports lamports x else x)
      <$> wallets d ∧
  autoincrement (o_db out) = autoincrement d.
Proof.
  intros [Hnd _] Huniq Hok Hw Hu Ha out. unfold out, add_wallet_address.
  simpl. rewrite Hok. simpl. unfold db_add_wallet.
  rewrite decide_True.
  2:{ apply list_elem_of_fmap. exists w. split; [|done].
      unfold owner_address. by rewrite Hu, Ha. }
  assert (filter (λ r, wr_address r = strip_text text) (db_get_wallets u d)
          = [wallet_row_of w]) as ->.
  { unfold db_get_wallets. rewrite filter_of_fmap.
    change [wallet_row_of w] with (wallet_row_of <$> [w]). f_equal.
    apply Permutation_singleton_r.
    rewrite merge_sort_Permutation, list_filter_filter.
    rewrite <- (MonitorFacts.filter_key_NoDup owner_address (wallets d) w)
      by done.
    erewrite list_filter_iff; [done|].
    intros x. unfold owner_address. simpl.
    change (wr_address (wallet_row_of x)) with (w_address x).
    rewrite <- Hu, <- Ha. split; [intros [-> ->]|intros [= -> ->]]; done. }
  simpl. split_and!; try done.
  apply list_fmap_ext. intros i x Hx. apply list_elem_of_lookup_2 in Hx.
  change (wr_id (wallet_row_of w)) with (w_id w).
  destruct (decide (x = w)) as [->|Hne].
  - by rewrite decide_True.
  - rewrite decide_False; [done|]. intros Hid. apply Hne.
    by apply (RegistryExtras.same_key_same_row w_id (wallets d)).
Qed.

Lemma duplicate_add_moves_the_baseline_witness :
  wallets (o_db (add_wallet_address (Some Scenarios.ADDRESS_X) 100 ∅ (Some 77)
                                    Scenarios.registry).2)
  = [mkWallet 1 100 "X" Scenarios.ADDRESS_X 1 (Some 77);
     mkWallet 2 100 "Y" Scenarios.ADDRESS_Y 1 (Some 1000000000)].
Proof.
  destruct (duplicate_add_moves_the_baseline Scenarios.ADDRESS_X 100 ∅ 77
              Scenarios.registry
              (mkWallet 1 100 "X" Scenarios.ADDRESS_X 1 (Some 5000000000)))
    as (_ & Hrows & _).
  - exact primary_key_registry.
  - apply (bool_decide_unpack _). vm_compute. exact I.
  - vm_compute. reflexivity.
  - apply (bool_decide_unpack _). vm_compute. exact I.
  - reflexivity.
  - vm_compute. reflexivity.
  - exact Hrows.
Defined.

(** X23. The two steps of the dialogue compose: when add_wallet_name has
    accepted a text, its name without the surrounding whitespace has 1 to
    40 characters, and the wallet that add_wallet_address then adds for a
    valid new address carries exactly that name; the name is forgotten
    afterwards and the conversation is over. *)
Theorem dialogue_stores_the_name (name_text addr_text : string) (u : Z)
  (ud : gmap string string) (fetched : option Z) (d : DB) :
  primary_key d →
  (add_wallet_name (Some name_text) ud).2 = ASK_ADDRESS →
  is_probably_solana_address (strip_text addr_text) = true →
  (u, strip_text addr_text) ∉ owner_address <$> wallets d →
  let ud1 := (add_wallet_name (Some name_text) ud).1.1 in
  let result := add_wallet_address (Some addr_text) u ud1 fetched d in
  1 ≤ py_len (strip_text name_text) ≤ 40 ∧
  wallets (o_db result.2)
  = wallets d ++ [mkWallet (autoincrement d + 1) u (strip_text name_text)
                           (strip_text addr_text) 1 fetched] ∧
  result.1 !! "new_wallet_name" = None ∧
  o_state result.2 = END.
Proof.
  intros Hpk Hname Hok Hfresh ud1 result. unfold result, ud1.
  rewrite add_wallet_address_fresh by done. simpl.
  unfold add_wallet_name in *. simpl in *.
  destruct (decide (py_len (strip_text name_text) < 1
                    ∨ py_len (strip_text name_text) > 40)) as [|Hlen];
    [done|]. simpl.
  rewrite lookup_insert_eq. simpl.
  split_and!; try done; try lia.
  apply lookup_delete_eq.
Qed.

Lemma dialogue_stores_the_name_witness :
  wallets (o_db (add_wallet_address (Some Scenarios.ADDRESS_X) 200
                   (add_wallet_name (Some "  Cold  ") ∅).1.1 None
                   Scenarios.registry).2)
  = wallets Scenarios.registry
      ++ [mkWallet 3 200 "Cold" Scenarios.ADDRESS_X 1 None].
Proof.
  destruct (dialogue_stores_the_name "  Cold  " Scenarios.ADDRESS_X 200 ∅ None
              Scenarios.registry) as (_ & Hrows & _).
  - exact primary_key_registry.
  - vm_compute. reflexivity.
  - vm_compute. reflexivity.
  - apply (bool_decide_unpack _). vm_compute. exact I.
  - exact Hrows.
Defined.

End HandlersFacts.

(** ** More on the configuration *)

Module ConfigExtras.
Import Text Config.

(** X24. The interval is not validated.  With a bot token, every integer
    that CHECK_INTERVAL_SECONDS spells is taken as the interval of the
    scan, zero and the negative ones too; the timeout and the bound stay 12
    and 8.  A variable that is set but blank stops the program when the
    module is loaded: the default of 10 is for the variable that is not
    set. *)
Theorem interval_is_not_validated (env : gmap string string) :
  strip (getenv env "BOT_TOKEN" "") ≠ "" →
  (∀ n, env !! "CHECK_INTERVAL_SECONDS" = Some (str n) →
        effective env = Some (mkEffective n 12 8)) ∧
  (∀ v, env !! "CHECK_INTERVAL_SECONDS" = Some v → strip v = "" →
        effective env = None).
Proof.
  intros Htoken. split.
  - intros n Hn. unfold effective, load, getenv in *. rewrite Hn. simpl.
    rewrite TextFacts.python_int_str. simpl. by rewrite decide_False.
  - intros v Hv Hblank. unfold effective, load, getenv. rewrite Hv. simpl.
    unfold python_int. by rewrite Hblank.
Qed.

Lemma interval_is_not_validated_witness :
  effective (<["CHECK_INTERVAL_SECONDS" := str (-5)]>
               Scenarios.environment_default)
  = Some (mkEffective (-5) 12 8).
Proof.
  destruct (interval_is_not_validated
              (<["CHECK_INTERVAL_SECONDS" := str (-5)]>
                 Scenarios.environment_default)) as [Hint _].
  - vm_compute. discriminate.
  - apply (Hint (-5)). vm_compute. reflexivity.
Defined.

End ConfigExtras.
